(** * Pesquisa_TEMAC: the article collection and relevance-ranking pipeline

    A shallow embedding of [Filtro_SerpiAPI.py] and [Filtro_bilingue.py].
    The two scripts share [preprocessar_texto], [calcular_relevancia],
    [salvar_artigos] and [baixar_pdf] word for word; they differ in
    [coletar_artigos] and in the main block, which are kept apart in the
    modules [SerpiAPI] and [Bilingue].

    Article records are Python dictionaries that the scorer updates in
    place, so they live in a heap of dictionaries and lists hold
    references.  Exceptions are explicit: every fallible function returns a
    [result].  The libraries the scripts call (scikit-learn, spaCy,
    requests, scholarly, json, the file system) are outside the
    repository; their floating-point kernel, number formatting and
    linguistic tables are parameters, their control flow (what they raise,
    and when) and the JSON text they write and read are written out.

    The main blocks of the two scripts are the modules [Filtro_SerpiAPI]
    and [Filtro_bilingue], on the lines read from the terminal; what they
    print is left out, and [yake] is a parameter. *)

From stdpp Require Import base option list sorting gmap strings.
From Stdlib Require Import Ascii ZArith DecimalN.

Local Open Scope Z_scope.
Local Open Scope nat_scope.

(** ** Python values *)

(** A Python [str] is a sequence of code points. *)
Abbreviation str := (list N).

Definition str_of (s : string) : str :=
  Ascii.N_of_ascii <$> String.list_ascii_of_string s.

(** ["Resumo não disponível"]: U+00E3 and U+00ED are the two accented
    letters. *)
Definition resumo_nao_disponivel : str :=
  str_of "Resumo n" ++ [227%N] ++ str_of "o dispon" ++ [237%N] ++ str_of "vel".

(** ["Título não disponível"]. *)
Definition titulo_nao_disponivel : str :=
  str_of "T" ++ [237%N] ++ str_of "tulo n" ++ [227%N] ++ str_of "o dispon"
    ++ [237%N] ++ str_of "vel".

Inductive exn :=
  | KeyError (k : string)
  | IndexError
  | TypeError
  | AttributeError
  | ValueError (msg : string)
  | RequestException
  | JSONDecodeError
  | UnicodeEncodeError
  | OSError.

Inductive result (A : Type) :=
  | Ok (a : A)
  | Raise (e : exn).
Arguments Ok {A} a.
Arguments Raise {A} e.

#[global] Instance result_ret : MRet result := λ A a, Ok a.
#[global] Instance result_bind : MBind result := λ A B f m,
  match m with Ok a => f a | Raise e => Raise e end.
#[global] Instance result_fmap : FMap result := λ A B f m,
  match m with Ok a => Ok (f a) | Raise e => Raise e end.

(** ** Relevance values

    Relevance values are the floats of [cosine_similarity] and the integer
    [0] of the fallback.  The development needs their order only: a
    decidable total preorder, as [<] on Python numbers without NaN is. *)
Class Pontuacao (F : Type) := {
  zero : F;
  leb : F → F → bool;
  pontuacao_eq_dec :: EqDecision F;
  leb_total x y : leb x y = true ∨ leb y x = true;
  leb_trans x y z : leb x y = true → leb y z = true → leb x z = true;
}.

Section valores.
Context {F : Type} `{!Pontuacao F}.

(** [x < y] and [x == y] on relevance values. *)
Definition ltb (x y : F) : bool := negb (leb y x).
Definition eqb (x y : F) : bool := leb x y && leb y x.
End valores.

Inductive value (F : Type) :=
  | VStr (s : str)
  | VNum (x : F)
  | VNone.
Arguments VStr {F} s.
Arguments VNum {F} x.
Arguments VNone {F}.

#[global] Instance value_eq_dec `{EqDecision F} : EqDecision (value F).
Proof. solve_decision. Defined.

(** A dictionary, and the heap of dictionaries: a list of articles is a
    list of references into the heap. *)
Abbreviation dict F := (gmap string (value F)).
Abbreviation loc := positive.
Abbreviation heap F := (gmap positive (gmap string (value F))).

Section heap.
Context {F : Type}.

(** [artigo[k]] *)
Definition getitem (σ : heap F) (a : loc) (k : string) : result (value F) :=
  match σ !! a with
  | Some d => match d !! k with Some v => Ok v | None => Raise (KeyError k) end
  | None => Raise TypeError
  end.

(** [artigo[k] = v] *)
Definition setitem (σ : heap F) (a : loc) (k : string) (v : value F) : heap F :=
  alter (insert k v) a σ.

(** [artigo.get(k)] *)
Definition get (d : dict F) (k : string) (padrao : value F) : value F :=
  default padrao (d !! k).

Definition como_str (v : value F) : result str :=
  match v with VStr s => Ok s | _ => Raise AttributeError end.

Definition como_num (v : value F) : result F :=
  match v with VNum x => Ok x | _ => Raise TypeError end.
End heap.

(** ** spaCy and scikit-learn

    [Token] is what the scripts read of a spaCy token. *)
Record Token := {
  lemma_ : str;
  is_stop : bool;
  is_punct : bool;
}.

(** The [stop_words] argument of [TfidfVectorizer]: a list of words, or the
    name of a built-in list (['english']). *)
Inductive stop_words_arg :=
  | Lista (palavras : list str)
  | Nome (nome : str).

(** What the libraries supply: the two spaCy pipelines loaded at import
    time with the Portuguese stop-word table, the analyser that
    [TfidfVectorizer] builds for a stop-word argument (lower-casing,
    tokenisation, stop-word removal), and the floating-point kernel, which
    from the corpus statistics (number of documents, document frequency of
    each vocabulary term) and the term counts of two documents gives the
    cosine of their tf-idf vectors. *)
Class Bibliotecas (F : Type) `{!Pontuacao F} := {
  nlp_en : str → list Token;
  nlp_pt : str → list Token;
  stop_words_pt : list str;
  build_analyzer : stop_words_arg → str → list str;
  cosseno : nat → list nat → list nat → list nat → F;
  (** A row without any term is left at zero by the normalisation, so its
      product with any other row is [0.0]. *)
  cosseno_nulo_l n df x y : Forall (λ c, c = 0) x → cosseno n df x y = zero;
  cosseno_nulo_r n df x y : Forall (λ c, c = 0) y → cosseno n df x y = zero;
}.

(** The tf-idf matrix in factored form: the corpus statistics and one row
    of term counts per document, over the vocabulary in first-seen order. *)
Record matriz := {
  n_documentos : nat;
  frequencias : list nat;
  linhas : list (list nat);
}.

Definition empty_vocabulary : string :=
  "empty vocabulary; perhaps the documents only contain stop words".
(** The message of [check_array], without the shape it reports. *)
Definition no_samples : string :=
  "Found array with 0 sample(s) while a minimum of 1 is required by check_pairwise_arrays.".

Section sklearn.
Context {F : Type} `{!Pontuacao F, !Bibliotecas F}.

Definition contar (t : str) (doc : list str) : nat :=
  length (filter (t =.) doc).

Definition frequencia_documental (t : str) (docs : list (list str)) : nat :=
  length (filter (λ doc, t ∈ doc) docs).

(** The row of term counts of a tokenised document. *)
Definition linha_de (vocabulario : list str) (doc : list str) : list nat :=
  (λ t, contar t doc) <$> vocabulario.

(** [TfidfVectorizer(stop_words=...).fit_transform(raw_documents)]: a
    document that is not a [str] fails in the analyser; a corpus in which
    no document keeps a token has an empty vocabulary, which is a
    [ValueError]. *)
Definition fit_transform (stop_words : stop_words_arg)
    (raw_documents : list (value F)) : result matriz :=
  docs ← mapM como_str raw_documents;
  let tokens := build_analyzer stop_words <$> docs in
  let vocabulario := remove_dups (concat tokens) in
  if decide (vocabulario = []) then Raise (ValueError empty_vocabulary)
  else Ok {| n_documentos := length docs;
             frequencias := (λ t, frequencia_documental t tokens) <$> vocabulario;
             linhas := linha_de vocabulario <$> tokens |}.

(** [m[-1]] and [m[:-1]] *)
Definition linha_final (m : matriz) : result matriz :=
  match last (linhas m) with
  | Some l => Ok {| n_documentos := n_documentos m;
                    frequencias := frequencias m;
                    linhas := [l] |}
  | None => Raise IndexError
  end.

Definition sem_linha_final (m : matriz) : matriz :=
  {| n_documentos := n_documentos m;
     frequencias := frequencias m;
     linhas := take (length (linhas m) - 1) (linhas m) |}.

(** [cosine_similarity(X, Y)]: both arguments are checked for at least
    one row, then every row of [X] is compared with every row of [Y]. *)
Definition cosine_similarity (X Y : matriz) : result (list (list F)) :=
  if decide (linhas X = [] ∨ linhas Y = []) then Raise (ValueError no_samples)
  else Ok ((λ x, cosseno (n_documentos X) (frequencias X) x <$> linhas Y)
             <$> linhas X).

(** [.flatten()] *)
Definition flatten (m : list (list F)) : list F := concat m.
End sklearn.

(** ** The scripts' shared functions *)

Section relevancia.
Context {F : Type} `{!Pontuacao F, !Bibliotecas F}.

(** [[token.lemma_ for token in doc if not token.is_stop and not
    token.is_punct]] *)
Definition tokens_uteis (doc : list Token) : list str :=
  lemma_ <$> filter (λ token, negb (is_stop token) && negb (is_punct token)) doc.

(** [stop_words_pt if idioma == "pt" else 'english'] *)
Definition stop_words_para (idioma : str) : stop_words_arg :=
  if decide (idioma = str_of "pt") then Lista stop_words_pt
  else Nome (str_of "english").

(** [preprocessar_texto(texto, idioma="en")] *)
Definition preprocessar_texto (texto : str) (idioma : str) : list str :=
  let doc := if decide (idioma = str_of "pt") then nlp_pt texto else nlp_en texto in
  tokens_uteis doc.

(** [sorted(l, key=..., reverse=True)] on decorated pairs: descending by
    key, equal keys in their input order.  [inserir] puts [x], which
    comes before every element of [l] in the input, in front of the first
    element whose key is not larger. *)
Fixpoint inserir {A} (x : F * A) (l : list (F * A)) : list (F * A) :=
  match l with
  | [] => [x]
  | y :: l' => if leb y.1 x.1 then x :: y :: l' else y :: inserir x l'
  end.

Definition sorted_reverse {A} (l : list (F * A)) : list (F * A) :=
  foldr inserir [] l.

(** [x] may stand before [y] in a descending list, and [x] has a key
    equal to [r]. *)
Definition antes {A} (x y : F * A) : Prop := leb y.1 x.1 = true.
Definition com_chave {A} (r : F) (x : F * A) : Prop := eqb x.1 r = true.

#[global] Instance com_chave_dec {A} r (x : F * A) : Decision (com_chave r x).
Proof. unfold com_chave. apply _. Defined.

(** [similaridades[i] if i < len(similaridades) else 0] *)
Definition similaridade_ou_zero (similaridades : list F) (i : nat) : F :=
  if decide (i < length similaridades)
  then default zero (similaridades !! i) else zero.

(** The loop [for i, artigo in enumerate(artigos)] from index [i]. *)
Fixpoint atribuir (similaridades : list F) (i : nat) (σ : heap F)
    (artigos : list loc) : heap F :=
  match artigos with
  | [] => σ
  | artigo :: resto =>
      atribuir similaridades (S i)
        (setitem σ artigo "relevancia" (VNum (similaridade_ou_zero similaridades i)))
        resto
  end.

(** The key function [lambda x: x['relevancia']], and the predicate "the
    relevance of [x] equals [r]". *)
Definition chave (σ : heap F) (x : loc) : result F :=
  getitem σ x "relevancia" ≫= como_num.

Definition relevancia_de (σ : heap F) (x : loc) : F :=
  match chave σ x with Ok k => k | Raise _ => zero end.

Definition com_relevancia (σ : heap F) (r : F) (x : loc) : Prop :=
  ∃ k, chave σ x = Ok k ∧ eqb k r = true.

#[global] Instance com_relevancia_dec σ r x : Decision (com_relevancia σ r x).
Proof.
  unfold com_relevancia. destruct (chave σ x) as [k|e].
  - destruct (eqb k r) eqn:Hk.
    + left. eauto.
    + right. intros (k' & [= <-] & ?). congruence.
  - right. by intros (k' & ? & ?).
Defined.

(** [[artigo['resumo'] for artigo in artigos if artigo['resumo'] !=
    "Resumo não disponível"]] *)
Definition textos_de (σ : heap F) (artigos : list loc) : result (list (value F)) :=
  resumos ← mapM (λ artigo, getitem σ artigo "resumo") artigos;
  mret (filter (λ resumo, resumo ≠ VStr resumo_nao_disponivel) resumos).

(** The statements of [calcular_relevancia] up to the computation of
    [similaridades], for the stop-word argument chosen in its first
    line. *)
Definition similaridades_de (stop_words : stop_words_arg) (σ : heap F)
    (artigos : list loc) (termo_referencia : str) : result (list F) :=
  textos ← textos_de σ artigos;
  matriz_tfidf ← fit_transform stop_words (textos ++ [VStr termo_referencia]);
  consulta ← linha_final matriz_tfidf;
  flatten <$> cosine_similarity consulta (sem_linha_final matriz_tfidf).

(** The rest of [calcular_relevancia]: the assignment loop and the sort. *)
Definition pontuar_e_ordenar (similaridades : list F) (σ : heap F)
    (artigos : list loc) : heap F * result (list loc) :=
  let σ' := atribuir similaridades 0 σ artigos in
  (σ', chaves ← mapM (chave σ') artigos;
       mret (snd <$> sorted_reverse (zip chaves artigos))).

Definition relevancia_com (stop_words : stop_words_arg) (σ : heap F)
    (artigos : list loc) (termo_referencia : str) : heap F * result (list loc) :=
  match similaridades_de stop_words σ artigos termo_referencia with
  | Ok similaridades => pontuar_e_ordenar similaridades σ artigos
  | Raise e => (σ, Raise e)
  end.

(** [calcular_relevancia(artigos, termo_referencia, idioma="en")]: the
    heap after the call, and what the call returns or raises. *)
Definition calcular_relevancia (σ : heap F) (artigos : list loc)
    (termo_referencia : str) (idioma : str) : heap F * result (list loc) :=
  let stop_words := stop_words_para idioma in
  relevancia_com stop_words σ artigos termo_referencia.

(** [[artigo for artigo in artigos_ordenados if artigo['relevancia'] > 0]] *)
Definition artigos_relevantes (σ : heap F) (artigos_ordenados : list loc)
    : result (list loc) :=
  chaves ← mapM (chave σ) artigos_ordenados;
  mret (snd <$> filter (λ p, ltb zero p.1 = true) (zip chaves artigos_ordenados)).
End relevancia.

(** ** The network and the file system *)

(** What the scripts read of a [requests] response: the status, the body
    parsed as a JSON object whose entries are lists of flat objects
    ([.json()] raises on a body that is not JSON), and the chunks of a
    streamed body, any of which may fail in transit. *)
Record Response (F : Type) := {
  status_code : Z;
  json : result (gmap string (list (gmap string (value F))));
  iter_content : list (result (list Byte.byte));
}.
Arguments status_code {F} _.
Arguments json {F} _.
Arguments iter_content {F} _.

(** A publication as [scholarly] yields it, and the generator returned by
    [search_pubs]: it ends, yields a publication, or fails when asked for
    the next one. *)
Record Publicacao (F : Type) := {
  bib : option (gmap string (value F));
  eprint_url : option (value F);
}.
Arguments bib {F} _.
Arguments eprint_url {F} _.

Inductive gerador (F : Type) :=
  | Fim
  | Item (resultado : Publicacao F) (resto : gerador F)
  | Falha (e : exn).
Arguments Fim {F}.
Arguments Item {F} resultado resto.
Arguments Falha {F} e.

Class Internet (F : Type) := {
  (** [requests.get(url, params=params)] *)
  requests_get : str → list (string * (str + Z)) → result (Response F);
  (** [scholarly.search_pubs(query)] *)
  search_pubs : str → result (gerador F);
}.

(** [l[:n]] for a Python integer [n]. *)
Definition fatia_ate {A} (n : Z) (l : list A) : list A :=
  if (n <? 0)%Z then take (Z.to_nat (Z.of_nat (length l) + n)) l
  else take (Z.to_nat n) l.

(** An article record as [coletar_artigos] builds it has the three fields,
    and a reference is registered when the heap holds such a record for
    it. *)
Definition tem_campos {F} (d : dict F) : Prop :=
  is_Some (d !! "titulo") ∧ is_Some (d !! "resumo") ∧ is_Some (d !! "link").

Definition registrado {F} (σ : heap F) (a : loc) : Prop :=
  ∃ d, σ !! a = Some d ∧ tem_campos d.

(** A new dictionary object. *)
Definition alocar {F} (σ : heap F) (d : dict F) : heap F * loc :=
  let a := fresh (dom σ) in (<[a := d]> σ, a).

Module SerpiAPI.
Section coleta.
Context {F : Type} `{!Internet F}.

Definition url : str := str_of "https://serpapi.com/search".

Definition novo_artigo (resultado : dict F) : dict F :=
  <["titulo" := get resultado "title" (VStr titulo_nao_disponivel)]>
    (<["resumo" := get resultado "snippet" (VStr resumo_nao_disponivel)]>
       (<["link" := get resultado "link" (VStr [])]> ∅)).

(** The loop [for resultado in resultados[:max_resultados]]. *)
Fixpoint acrescentar (σ : heap F) (artigos : list loc)
    (resultados : list (dict F)) : heap F * list loc :=
  match resultados with
  | [] => (σ, artigos)
  | resultado :: resto =>
      let '(σ', artigo) := alocar σ (novo_artigo resultado) in
      acrescentar σ' (artigos ++ [artigo]) resto
  end.

(** [coletar_artigos(query, max_resultados=10, api_key=...)] *)
Definition coletar_artigos (σ : heap F) (query : str) (max_resultados : Z)
    (api_key : str) : heap F * result (list loc) :=
  let params := [("engine", inl (str_of "google_scholar")); ("q", inl query);
                 ("api_key", inl api_key); ("num", inr max_resultados)] in
  match requests_get url params with
  | Raise e => (σ, Raise e)
  | Ok response =>
      if decide (status_code response = 200%Z) then
        match json response with
        | Raise e => (σ, Raise e)
        | Ok corpo =>
            let resultados := default [] (corpo !! "organic_results") in
            let '(σ', artigos) :=
              acrescentar σ [] (fatia_ate max_resultados resultados) in
            (σ', Ok artigos)
        end
      else (σ, Ok [])
  end.
End coleta.
End SerpiAPI.

Module Bilingue.
Section coleta.
Context {F : Type} `{!Internet F}.

Definition novo_artigo (resultado : Publicacao F) : dict F :=
  <["titulo" := get (default ∅ (bib resultado)) "title" (VStr titulo_nao_disponivel)]>
    (<["resumo" := get (default ∅ (bib resultado)) "abstract" (VStr resumo_nao_disponivel)]>
       (<["link" := default (VStr []) (eprint_url resultado)]> ∅)).

(** The loop [for i, resultado in enumerate(resultados)] from index [i]:
    the generator is asked for the next publication before the bound is
    tested. *)
Fixpoint percorrer (max_resultados : Z) (i : nat) (σ : heap F)
    (artigos : list loc) (resultados : gerador F) : heap F * result (list loc) :=
  match resultados with
  | Fim => (σ, Ok artigos)
  | Falha e => (σ, Raise e)
  | Item resultado resto =>
      if (Z.of_nat i >=? max_resultados)%Z then (σ, Ok artigos)
      else let '(σ', artigo) := alocar σ (novo_artigo resultado) in
           percorrer max_resultados (S i) σ' (artigos ++ [artigo]) resto
  end.

(** [coletar_artigos(query, max_resultados=10)] *)
Definition coletar_artigos (σ : heap F) (query : str) (max_resultados : Z)
    : heap F * result (list loc) :=
  match search_pubs query with
  | Raise e => (σ, Raise e)
  | Ok resultados => percorrer max_resultados 0 σ [] resultados
  end.
End coleta.
End Bilingue.

(** The file system: the directories and files that exist, and the paths
    the process may not create or write.  A file written in binary mode
    holds bytes; of a file written in text mode the embedding keeps the
    text, of which the bytes on disk are the UTF-8 encoding.

    Paths are POSIX paths, and a path is the name of what it leads to:
    the two maps are keyed by canonical paths, those without an empty, [.]
    or [..] component, and there are no links.  The root [/] always exists
    and the current directory is the empty path.  Where the operating
    system would resolve the components of a path that is not canonical,
    the embedding looks the path up as it is written; the theorems that
    depend on it take their paths to be [canonico]. *)
Inductive conteudo :=
  | Binario (b : list Byte.byte)
  | Texto (s : str).

Record Arquivos := {
  diretorios : gset (list N);
  arquivos : gmap (list N) conteudo;
  protegidos : gset (list N);
}.

Definition barra : N := 47.
Definition ponto : str := [46%N].
Definition ponto_ponto : str := [46%N; 46%N].

(** [os.path.join(a, b)] on POSIX. *)
Definition os_path_join (a b : str) : str :=
  match b with
  | c :: _ => if decide (c = barra) then b
              else if decide (a = [] ∨ last a = Some barra) then a ++ b
              else a ++ [barra] ++ b
  | [] => if decide (a = [] ∨ last a = Some barra) then a else a ++ [barra]
  end.

(** [os.path.dirname(p)] on POSIX: the path up to its last slash, without
    the trailing slashes unless it consists of slashes only. *)
Fixpoint ate_ultima_barra (p : str) : str :=
  match p with
  | [] => []
  | c :: p' =>
      if decide (barra ∈ p') then c :: ate_ultima_barra p'
      else if decide (c = barra) then [c] else []
  end.

Fixpoint rstrip_barras (p : str) : str :=
  match p with
  | [] => []
  | c :: p' =>
      let r := rstrip_barras p' in
      if decide (c = barra ∧ r = []) then [] else c :: r
  end.

Definition os_path_dirname (p : str) : str :=
  let head := ate_ultima_barra p in
  if decide (Forall (λ c, c = barra) head) then head else rstrip_barras head.

(** [os.path.basename(p)] on POSIX: what follows the last slash. *)
Fixpoint os_path_basename (p : str) : str :=
  match p with
  | [] => []
  | c :: p' =>
      if decide (barra ∈ p') then os_path_basename p'
      else if decide (c = barra) then p' else c :: p'
  end.

(** The components of a path, which its slashes separate. *)
Fixpoint partes (p : str) : list str :=
  match p with
  | [] => [[]]
  | c :: p' =>
      if decide (c = barra) then [] :: partes p'
      else match partes p' with
           | x :: xs => (c :: x) :: xs
           | [] => [[c]]
           end
  end.

(** A canonical path: relative or absolute, and every component a name,
    none empty, [.] or [..]. *)
Definition nome (x : str) : bool :=
  bool_decide (x ≠ [] ∧ x ≠ ponto ∧ x ≠ ponto_ponto).

Definition canonico (p : str) : bool :=
  match partes p with
  | [] :: x :: xs => forallb nome (x :: xs)
  | xs => forallb nome xs
  end.

(** [os.path.isdir(p)] and [os.path.exists(p)] *)
Definition os_path_isdir (fs : Arquivos) (p : str) : bool :=
  bool_decide (p = [barra] ∨ p ∈ diretorios fs).

Definition os_path_exists (fs : Arquivos) (p : str) : bool :=
  bool_decide (p = [barra] ∨ p ∈ diretorios fs ∨ is_Some (arquivos fs !! p)).

(** [os.fsencode(p)], the first step of every call that takes a path: the
    name is encoded in UTF-8 with [surrogateescape], which takes no
    surrogate other than U+DC80 to U+DCFF, and may hold no NUL. *)
Definition em_nome (c : N) : bool :=
  N.ltb c 55296 || N.leb 57344 c || (N.leb 56448 c && N.leb c 56575).

Definition os_fsencode (p : str) : result unit :=
  if forallb em_nome p then
    if decide (0%N ∈ p) then Raise (ValueError "embedded null byte") else Ok ()
  else Raise UnicodeEncodeError.

(** [os.mkdir(p)]: the path must be new and its parent a directory. *)
Definition os_mkdir (fs : Arquivos) (p : str) : result Arquivos :=
  match os_fsencode p with
  | Raise e => Raise e
  | Ok _ =>
      if decide (p = [] ∨ p ∈ protegidos fs ∨ os_path_exists fs p = true
                 ∨ (os_path_dirname p ≠ []
                    ∧ os_path_isdir fs (os_path_dirname p) = false))
      then Raise OSError
      else Ok {| diretorios := {[p]} ∪ diretorios fs;
                 arquivos := arquivos fs;
                 protegidos := protegidos fs |}
  end.

(** [os.makedirs(name)]:
    [head, tail = path.split(name)]
    [if not tail: head, tail = path.split(head)]
    [if head and tail and not path.exists(head):]
    [    makedirs(head); if tail == curdir: return]
    [mkdir(name)]
    The call on [head] is on a shorter path; [n] bounds the number of
    nested calls.  The [FileExistsError] that the code passes over after
    the call on [head] needs another process to create [head] in between,
    and there is none. *)
Definition os_path_split (p : str) : str * str :=
  (os_path_dirname p, os_path_basename p).

Definition cabeca (name : str) : str * str :=
  let '(head, tail) := os_path_split name in
  if decide (tail = []) then os_path_split head else (head, tail).

Fixpoint makedirs (n : nat) (fs : Arquivos) (name : str) : result Arquivos :=
  let '(head, tail) := cabeca name in
  match n with
  | S n' =>
      if decide (head ≠ [] ∧ tail ≠ [] ∧ os_path_exists fs head = false) then
        match makedirs n' fs head with
        | Raise e => Raise e
        | Ok fs1 => if decide (tail = ponto) then Ok fs1 else os_mkdir fs1 name
        end
      else os_mkdir fs name
  | O => os_mkdir fs name
  end.

Definition os_makedirs (fs : Arquivos) (name : str) : result Arquivos :=
  makedirs (length name) fs name.

(** [open(p, mode)] for writing, in binary or in text mode: the file is
    created or emptied, [vazio] being the empty content of the mode.  The
    path must name a file, not a directory, in a directory that exists. *)
Definition abrir (vazio : conteudo) (fs : Arquivos) (p : str) : result Arquivos :=
  match os_fsencode p with
  | Raise e => Raise e
  | Ok _ =>
      if decide (os_path_basename p ∈ [[]; ponto; ponto_ponto]
                 ∨ p ∈ protegidos fs ∨ os_path_isdir fs p = true
                 ∨ (os_path_dirname p ≠ []
                    ∧ os_path_isdir fs (os_path_dirname p) = false))
      then Raise OSError
      else Ok {| diretorios := diretorios fs;
                 arquivos := <[p := vazio]> (arquivos fs);
                 protegidos := protegidos fs |}
  end.

(** [open(p, "wb")] *)
Definition open_wb (fs : Arquivos) (p : str) : result Arquivos :=
  abrir (Binario []) fs p.

(** [f.write(chunk)] on a file opened in binary mode. *)
Definition anexar (chunk : list Byte.byte) (c : conteudo) : conteudo :=
  match c with
  | Binario b => Binario (b ++ chunk)
  | Texto s => Texto s
  end.

Definition write (fs : Arquivos) (p : str) (chunk : list Byte.byte) : Arquivos :=
  {| diretorios := diretorios fs;
     arquivos := alter (anexar chunk) p (arquivos fs);
     protegidos := protegidos fs |}.

Definition pdfs : str := str_of "pdfs".
Definition ponto_pdf : str := str_of ".pdf".

Section download.
Context {F : Type} `{!Pontuacao F, !Internet F}.

(** [if v:] *)
Definition truthy (v : value F) : bool :=
  match v with
  | VStr s => bool_decide (s ≠ [])
  | VNum x => negb (eqb x zero)
  | VNone => false
  end.

(** [for chunk in response.iter_content(chunk_size=1024): f.write(chunk)] *)
Fixpoint gravar (fs : Arquivos) (p : str) (chunks : list (result (list Byte.byte)))
    : Arquivos * result unit :=
  match chunks with
  | [] => (fs, Ok ())
  | Ok chunk :: resto => gravar (write fs p chunk) p resto
  | Raise e :: _ => (fs, Raise e)
  end.

(** The body of the [try] block: [Ok true] is [return True], [Ok false]
    is falling out of the block. *)
Definition tentar_baixar (fs : Arquivos) (artigo : dict F) (link : value F)
    (pasta_destino : str) : Arquivos * result bool :=
  match como_str link ≫= λ url, requests_get url [] with
  | Raise e => (fs, Raise e)
  | Ok response =>
      if decide (status_code response = 200%Z) then
        match from_option Ok (Raise (KeyError "titulo")) (artigo !! "titulo")
                ≫= como_str with
        | Raise e => (fs, Raise e)
        | Ok titulo =>
            let arquivo_pdf := os_path_join pasta_destino (take 50 titulo ++ ponto_pdf) in
            match open_wb fs arquivo_pdf with
            | Raise e => (fs, Raise e)
            | Ok fs' =>
                match gravar fs' arquivo_pdf (iter_content response) with
                | (fs'', Ok _) => (fs'', Ok true)
                | (fs'', Raise e) => (fs'', Raise e)
                end
            end
        end
      else (fs, Ok false)
  end.

(** [baixar_pdf(artigo, pasta_destino="pdfs")] *)
Definition baixar_pdf (fs : Arquivos) (artigo : dict F) (pasta_destino : str)
    : Arquivos * result bool :=
  match (if os_path_exists fs pasta_destino then Ok fs
         else os_makedirs fs pasta_destino) with
  | Raise e => (fs, Raise e)
  | Ok fs1 =>
      let link := get artigo "link" VNone in
      if truthy link then
        match tentar_baixar fs1 artigo link pasta_destino with
        | (fs2, Ok true) => (fs2, Ok true)
        | (fs2, Ok false) => (fs2, Ok false)
        | (fs2, Raise _) => (fs2, Ok false)
        end
      else (fs1, Ok false)
  end.
End download.


(** ** JSON text *)

Section texto_json.
Local Open Scope N_scope.

Definition numerico (c : N) : bool :=
  (48 <=? c) && (c <=? 57) || (c =? 43) || (c =? 45) || (c =? 46)
  || (c =? 69) || (c =? 101).

(** How numbers are written and read: [float.__repr__] (and [int.__repr__]
    for the integer [0]) and the number parser of [json].  A written number
    consists of digits, sign, point and exponent, and reads back as the
    number it was written from; relevance values are finite. *)
Class Escrita (F : Type) := {
  repr : F → str;
  float_de : str → option F;
  repr_numerico x : repr x ≠ [] ∧ Forall (λ c, numerico c = true) (repr x);
  float_de_repr x : float_de (repr x) = Some x;
}.

Definition aspas : N := 34.
Definition contrabarra : N := 92.

Definition hex_digito (n : N) : N := if n <? 10 then 48 + n else 87 + n.

Definition valor_hex (c : N) : option N :=
  if (48 <=? c) && (c <=? 57) then Some (c - 48)
  else if (97 <=? c) && (c <=? 102) then Some (c - 87)
  else if (65 <=? c) && (c <=? 70) then Some (c - 55)
  else None.

(** The replacement of one character in [json.encoder.encode_basestring]
    ([ensure_ascii=False]): the quote, the backslash and the control
    characters are escaped, every other character stands for itself. *)
Definition escapar (c : N) : str :=
  if c =? 34 then [92; 34]
  else if c =? 92 then [92; 92]
  else if c =? 10 then [92; 110]
  else if c =? 13 then [92; 114]
  else if c =? 9 then [92; 116]
  else if c =? 8 then [92; 98]
  else if c =? 12 then [92; 102]
  else if c <? 32 then [92; 117; 48; 48; hex_digito (c / 16); hex_digito (c mod 16)]
  else [c].

Definition encode_basestring (s : str) : str :=
  [aspas] ++ concat (escapar <$> s) ++ [aspas].

(** The character an escape letter stands for. *)
Definition desescapar (e : N) : option N :=
  if e =? 34 then Some 34
  else if e =? 92 then Some 92
  else if e =? 47 then Some 47
  else if e =? 98 then Some 8
  else if e =? 102 then Some 12
  else if e =? 110 then Some 10
  else if e =? 114 then Some 13
  else if e =? 116 then Some 9
  else None.

(** [json.decoder.scanstring] after the opening quote, in strict mode: the
    string and the text after its closing quote.  A [\u] escape stands for
    the code point it names; pairs of surrogate escapes, which the writer
    never produces, are not joined. *)
Fixpoint scanstring (s : str) : option (str * str) :=
  match s with
  | [] => None
  | c :: r =>
      if c =? 34 then Some ([], r)
      else if c =? 92 then
        match r with
        | [] => None
        | e :: r' =>
            if e =? 117 then
              match r' with
              | h1 :: h2 :: h3 :: h4 :: r'' =>
                  v1 ← valor_hex h1; v2 ← valor_hex h2;
                  v3 ← valor_hex h3; v4 ← valor_hex h4;
                  '(t, fim) ← scanstring r'';
                  Some ((((v1 * 16 + v2) * 16 + v3) * 16 + v4) :: t, fim)
              | _ => None
              end
            else c' ← desescapar e; '(t, fim) ← scanstring r'; Some (c' :: t, fim)
        end
      else if c <? 32 then None
      else '(t, fim) ← scanstring r; Some (c :: t, fim)
  end.

Definition branco (c : N) : bool :=
  (c =? 32) || (c =? 10) || (c =? 13) || (c =? 9).

(** Skipping white space. *)
Fixpoint espacos (s : str) : str :=
  match s with
  | c :: r => if branco c then espacos r else s
  | [] => []
  end.

(** The longest numeric prefix and the rest. *)
Fixpoint numero (s : str) : str * str :=
  match s with
  | c :: r => if numerico c then let '(n, fim) := numero r in (c :: n, fim) else ([], s)
  | [] => ([], [])
  end.

(** [sep.join(partes)] *)
Fixpoint juntar (sep : str) (partes : list str) : str :=
  match partes with
  | [] => []
  | [p] => p
  | p :: ps => p ++ sep ++ juntar sep ps
  end.

(** A dictionary key is a string of characters below 256. *)
Definition string_de (s : str) : option string :=
  if forallb (λ c, c <? 256) s
  then Some (String.string_of_list_ascii (Ascii.ascii_of_N <$> s)) else None.

Definition nl : str := [10].
Definition ind4 : str := replicate 4 32.
Definition ind8 : str := replicate 8 32.

(** Between and after the members of an object at nesting level one, and
    between and after the items of the top-level array ([indent=4]). *)
Definition sep_membros : str := [44] ++ nl ++ ind8.
Definition fecho_objeto : str := nl ++ ind4 ++ [125].
Definition sep_objetos : str := [44] ++ nl ++ ind4.
Definition fecho_lista : str := nl ++ [93].

(** The text starts with a character that is not part of a number, or
    that is not white space. *)
Definition nao_numerico (s : str) : Prop :=
  match s with c :: _ => numerico c = false | [] => True end.

Definition nao_branco (s : str) : Prop :=
  match s with c :: _ => branco c = false | [] => True end.

Section json.
Context {F : Type} `{!Escrita F}.

Definition dump_valor (v : value F) : str :=
  match v with
  | VStr s => encode_basestring s
  | VNum x => repr x
  | VNone => str_of "null"
  end.

Definition dump_membro (kv : string * value F) : str :=
  encode_basestring (str_of kv.1) ++ [58; 32] ++ dump_valor kv.2.

(** An object at nesting level one of a document indented by four.  The
    members come in the order of the map, where Python keeps the order of
    insertion; the reader does not depend on it. *)
Definition dump_objeto (d : dict F) : str :=
  match map_to_list d with
  | [] => [123; 125]
  | membros =>
      [123] ++ nl ++ ind8 ++ juntar sep_membros (dump_membro <$> membros)
        ++ fecho_objeto
  end.

(** [json.dumps(artigos, ensure_ascii=False, indent=4)] *)
Definition json_dumps (artigos : list (dict F)) : str :=
  match artigos with
  | [] => [91; 93]
  | _ =>
      [91] ++ nl ++ ind4 ++ juntar sep_objetos (dump_objeto <$> artigos)
        ++ fecho_lista
  end.

Definition ler_valor (s : str) : option (value F * str) :=
  match s with
  | [] => None
  | c :: r =>
      if c =? 34 then '(t, fim) ← scanstring r; Some (VStr t, fim)
      else if c =? 110 then
        if decide (take 4 s = str_of "null") then Some (VNone, drop 4 s) else None
      else let '(n, fim) := numero s in x ← float_de n; Some (VNum x, fim)
  end.

(** The members of an object up to its closing brace, [n] bounding
    their number. *)
Fixpoint ler_membros (n : nat) (s : str) (pares : list (string * value F))
    : option (list (string * value F) * str) :=
  match n with
  | O => None
  | S n =>
      match espacos s with
      | c :: r1 =>
          if negb (c =? 34) then None else
          '(k, r2) ← scanstring r1;
          chave ← string_de k;
          match espacos r2 with
          | c2 :: r3 =>
              if negb (c2 =? 58) then None else
              '(v, r4) ← ler_valor (espacos r3);
              match espacos r4 with
              | c4 :: r5 =>
                  if c4 =? 44 then ler_membros n r5 (pares ++ [(chave, v)])
                  else if c4 =? 125 then Some (pares ++ [(chave, v)], r5)
                  else None
              | [] => None
              end
          | [] => None
          end
      | [] => None
      end
  end.

(** [dict(pares)] *)
Definition dict_de (pares : list (string * value F)) : dict F :=
  foldl (λ d kv, <[kv.1 := kv.2]> d) ∅ pares.

Definition ler_objeto (n : nat) (s : str) : option (dict F * str) :=
  match espacos s with
  | c :: r =>
      if negb (c =? 123) then None else
      match espacos r with
      | c' :: r' =>
          if c' =? 125 then Some (∅, r')
          else '(pares, fim) ← ler_membros n r []; Some (dict_de pares, fim)
      | [] => None
      end
  | [] => None
  end.

Fixpoint ler_objetos (m n : nat) (s : str) (acc : list (dict F))
    : option (list (dict F) * str) :=
  match n with
  | O => None
  | S n =>
      '(d, r) ← ler_objeto m s;
      match espacos r with
      | c :: r' =>
          if c =? 44 then ler_objetos m n r' (acc ++ [d])
          else if c =? 93 then Some (acc ++ [d], r')
          else None
      | [] => None
      end
  end.

Definition ler_lista (n : nat) (s : str) : option (list (dict F) * str) :=
  match espacos s with
  | c :: r =>
      if negb (c =? 91) then None else
      match espacos r with
      | c' :: r' => if c' =? 93 then Some ([], r') else ler_objetos n n r []
      | [] => None
      end
  | [] => None
  end.

(** [json.loads(s)] on the documents [json_dumps] writes: an array of
    objects whose values are strings, numbers and [null]. *)
Definition json_loads (s : str) : option (list (dict F)) :=
  '(l, fim) ← ler_lista (length s) s;
  if decide (espacos fim = []) then Some l else None.
End json.

(** ** Persistence *)

Definition artigos_relevantes_json : str := str_of "artigos_relevantes.json".

(** A character UTF-8 can encode: a code point that is not a surrogate. *)
Definition codificavel (c : N) : bool :=
  (c <? 55296) || (57344 <=? c) && (c <=? 1114111).

(** [open(p, "w", encoding="utf-8")] *)
Definition open_w (fs : Arquivos) (p : str) : result Arquivos :=
  abrir (Texto []) fs p.

(** Writing text to a file opened in text mode; a character that cannot be
    encoded is a [UnicodeEncodeError]. *)
Definition write_texto (fs : Arquivos) (p : str) (s : str) : result Arquivos :=
  if forallb codificavel s
  then Ok {| diretorios := diretorios fs;
             arquivos := alter (λ c, match c with
                                     | Texto t => Texto (t ++ s)
                                     | Binario b => Binario b
                                     end) p (arquivos fs);
             protegidos := protegidos fs |}
  else Raise UnicodeEncodeError.

Section persistencia.
Context {F : Type} `{!Escrita F}.

(** [salvar_artigos(artigos, caminho="artigos_relevantes.json")] *)
Definition salvar_artigos (fs : Arquivos) (σ : heap F) (artigos : list loc)
    (caminho : str) : Arquivos * result unit :=
  match open_w fs caminho with
  | Raise e => (fs, Raise e)
  | Ok fs1 =>
      match mapM (λ artigo, from_option Ok (Raise TypeError) (σ !! artigo)) artigos with
      | Raise e => (fs1, Raise e)
      | Ok registros =>
          match write_texto fs1 caminho (json_dumps registros) with
          | Raise e => (fs1, Raise e)
          | Ok fs2 => (fs2, Ok ())
          end
      end
  end.

(** Re-loading, which the scripts leave to the reader of the file:
    [json.load] on the file opened as UTF-8 text. *)
Definition carregar_artigos (fs : Arquivos) (caminho : str) : result (list (dict F)) :=
  match arquivos fs !! caminho with
  | Some (Texto s) => from_option Ok (Raise JSONDecodeError) (json_loads s)
  | _ => Raise OSError
  end.
End persistencia.

End texto_json.

(** ** Records with sequences

    The records the two scripts build hold strings, numbers and [None].
    [salvar_artigos] takes any list of records, and the articles of the
    specification also have keywords, a sequence of pairs of a term and a
    score, which [yake] returns as a list of tuples.  [Aninhado] is [json]
    and [salvar_artigos] on records whose values may also be lists and
    tuples, nested at will; on records without sequences it is the
    [salvar_artigos] above. *)
Local Unset Elimination Schemes.
Inductive objeto (F : Type) :=
  | OStr (s : str)
  | ONum (x : F)
  | ONone
  | OLista (itens : list (objeto F))
  | OTupla (itens : list (objeto F)).
Local Set Elimination Schemes.
Arguments OStr {F} s.
Arguments ONum {F} x.
Arguments ONone {F}.
Arguments OLista {F} itens.
Arguments OTupla {F} itens.

(** A value of a record of the scripts, among the values with sequences. *)
Definition incluir {F} (v : value F) : objeto F :=
  match v with
  | VStr s => OStr s
  | VNum x => ONum x
  | VNone => ONone
  end.

Definition incluir_registro {F} (d : dict F) : gmap string (objeto F) :=
  incluir <$> d.

(** What reading gives for a value that was written: JSON has arrays
    only, and [json.load] makes a list of every array. *)
Fixpoint como_lido {F} (o : objeto F) : objeto F :=
  match o with
  | OLista itens | OTupla itens => OLista (como_lido <$> itens)
  | _ => o
  end.

Definition registro_lido {F} (d : gmap string (objeto F)) : gmap string (objeto F) :=
  como_lido <$> d.

Fixpoint sem_tuplas {F} (o : objeto F) : bool :=
  match o with
  | OLista itens => forallb sem_tuplas itens
  | OTupla _ => false
  | _ => true
  end.

(** The number of values in a value, itself included, and of items in its
    sequences: the calls the reader makes on its text. *)
Fixpoint custo {F} (o : objeto F) : nat :=
  match o with
  | OLista itens | OTupla itens => S (sum_list (custo <$> itens) + length itens)
  | _ => 1
  end.

Module Aninhado.
Section json.
Local Open Scope N_scope.
Context {F : Type} `{!Escrita F}.

Definition ind (nivel : nat) : str := replicate (4 * nivel)%nat 32.

(** A list or tuple at nesting level [nivel], from the texts of its items
    ([indent=4]): [_iterencode_list] of [json.encoder]. *)
Definition escrever_lista (nivel : nat) (itens : list str) : str :=
  match itens with
  | [] => [91; 93]
  | _ =>
      [91] ++ nl ++ ind (S nivel)
        ++ juntar ([44] ++ nl ++ ind (S nivel)) itens
        ++ nl ++ ind nivel ++ [93]
  end.

Fixpoint dump (nivel : nat) (o : objeto F) : str :=
  match o with
  | OStr s => encode_basestring s
  | ONum x => repr x
  | ONone => str_of "null"
  | OLista itens | OTupla itens => escrever_lista nivel (dump (S nivel) <$> itens)
  end.

(** The value of a member is at nesting level two. *)
Definition dump_membro (kv : string * objeto F) : str :=
  encode_basestring (str_of kv.1) ++ [58; 32] ++ dump 2 kv.2.

Definition dump_objeto (d : gmap string (objeto F)) : str :=
  match map_to_list d with
  | [] => [123; 125]
  | membros =>
      [123] ++ nl ++ ind8 ++ juntar sep_membros (dump_membro <$> membros)
        ++ fecho_objeto
  end.

(** [json.dumps(artigos, ensure_ascii=False, indent=4)] *)
Definition json_dumps (artigos : list (gmap string (objeto F))) : str :=
  match artigos with
  | [] => [91; 93]
  | _ =>
      [91] ++ nl ++ ind4 ++ juntar sep_objetos (dump_objeto <$> artigos)
        ++ fecho_lista
  end.

(** A value, and the items of an array up to its closing bracket; [n]
    bounds the number of calls. *)
Fixpoint ler (n : nat) (s : str) {struct n} : option (objeto F * str) :=
  match n, s with
  | S n, c :: r =>
      if c =? 34 then '(t, fim) ← scanstring r; Some (OStr t, fim)
      else if c =? 110 then
        if decide (take 4 s = str_of "null") then Some (ONone, drop 4 s) else None
      else if c =? 91 then
        match espacos r with
        | c' :: r' =>
            if c' =? 93 then Some (OLista [], r')
            else '(itens, fim) ← ler_itens n (c' :: r') []; Some (OLista itens, fim)
        | [] => None
        end
      else let '(x, fim) := numero s in x ← float_de x; Some (ONum x, fim)
  | _, _ => None
  end
with ler_itens (n : nat) (s : str) (itens : list (objeto F)) {struct n}
    : option (list (objeto F) * str) :=
  match n with
  | S n =>
      '(o, r) ← ler n s;
      match espacos r with
      | c :: r' =>
          if c =? 44 then ler_itens n (espacos r') (itens ++ [o])
          else if c =? 93 then Some (itens ++ [o], r')
          else None
      | [] => None
      end
  | O => None
  end.

(** The members of an object up to its closing brace; [n] bounds their
    number and [m] the calls on a value. *)
Fixpoint ler_membros (m n : nat) (s : str) (pares : list (string * objeto F))
    : option (list (string * objeto F) * str) :=
  match n with
  | O => None
  | S n =>
      match espacos s with
      | c :: r1 =>
          if negb (c =? 34) then None else
          '(k, r2) ← scanstring r1;
          chave ← string_de k;
          match espacos r2 with
          | c2 :: r3 =>
              if negb (c2 =? 58) then None else
              '(v, r4) ← ler m (espacos r3);
              match espacos r4 with
              | c4 :: r5 =>
                  if c4 =? 44 then ler_membros m n r5 (pares ++ [(chave, v)])
                  else if c4 =? 125 then Some (pares ++ [(chave, v)], r5)
                  else None
              | [] => None
              end
          | [] => None
          end
      | [] => None
      end
  end.

(** [dict(pares)] *)
Definition dict_de (pares : list (string * objeto F)) : gmap string (objeto F) :=
  foldl (λ d kv, <[kv.1 := kv.2]> d) ∅ pares.

Definition ler_objeto (n : nat) (s : str) : option (gmap string (objeto F) * str) :=
  match espacos s with
  | c :: r =>
      if negb (c =? 123) then None else
      match espacos r with
      | c' :: r' =>
          if c' =? 125 then Some (∅, r')
          else '(pares, fim) ← ler_membros n n r []; Some (dict_de pares, fim)
      | [] => None
      end
  | [] => None
  end.

Fixpoint ler_objetos (m n : nat) (s : str) (acc : list (gmap string (objeto F)))
    : option (list (gmap string (objeto F)) * str) :=
  match n with
  | O => None
  | S n =>
      '(d, r) ← ler_objeto m s;
      match espacos r with
      | c :: r' =>
          if c =? 44 then ler_objetos m n r' (acc ++ [d])
          else if c =? 93 then Some (acc ++ [d], r')
          else None
      | [] => None
      end
  end.

Definition ler_lista (n : nat) (s : str)
    : option (list (gmap string (objeto F)) * str) :=
  match espacos s with
  | c :: r =>
      if negb (c =? 91) then None else
      match espacos r with
      | c' :: r' => if c' =? 93 then Some ([], r') else ler_objetos n n r []
      | [] => None
      end
  | [] => None
  end.

(** [json.loads(s)] on the documents [json_dumps] writes: an array of
    objects whose values are strings, numbers, [null] and arrays. *)
Definition json_loads (s : str) : option (list (gmap string (objeto F))) :=
  '(l, fim) ← ler_lista (length s) s;
  if decide (espacos fim = []) then Some l else None.

(** [salvar_artigos(artigos, caminho="artigos_relevantes.json")] *)
Definition salvar_artigos (fs : Arquivos) (σ : gmap loc (gmap string (objeto F)))
    (artigos : list loc) (caminho : str) : Arquivos * result unit :=
  match open_w fs caminho with
  | Raise e => (fs, Raise e)
  | Ok fs1 =>
      match mapM (λ artigo, from_option Ok (Raise TypeError) (σ !! artigo)) artigos with
      | Raise e => (fs1, Raise e)
      | Ok registros =>
          match write_texto fs1 caminho (json_dumps registros) with
          | Raise e => (fs1, Raise e)
          | Ok fs2 => (fs2, Ok ())
          end
      end
  end.

(** Re-loading: [json.load] on the file opened as UTF-8 text. *)
Definition carregar_artigos (fs : Arquivos) (caminho : str)
    : result (list (gmap string (objeto F))) :=
  match arquivos fs !! caminho with
  | Some (Texto s) => from_option Ok (Raise JSONDecodeError) (json_loads s)
  | _ => Raise OSError
  end.
End json.
End Aninhado.

(** ** The two scripts

    [yake] is used through one call, whose result is printed. *)
Class Yake (F : Type) := {
  (** [yake.KeywordExtractor(lan=lan, top=top).extract_keywords(texto)] *)
  extract_keywords : str → Z → value F → result (list (str * F));
}.

Section execucao.
Context {F : Type}.
Context `{!Pontuacao F, !Bibliotecas F, !Internet F, !Yake F, !Escrita F}.

(** [extrair_palavras_chave_yake(texto, max_palavras=10, idioma="en")] *)
Definition extrair_palavras_chave_yake (texto : value F) (max_palavras : Z)
    (idioma : str) : result (list (str * F)) :=
  extract_keywords idioma max_palavras texto.

(** [if idioma not in ["en", "pt"]: idioma = "en"], on the line read,
    stripped and lower-cased. *)
Definition idioma_ou_padrao (idioma : str) : str :=
  if decide (idioma ∉ [str_of "en"; str_of "pt"]) then str_of "en" else idioma.

(** [try: int(input(...)) except ValueError: 10]; [None] stands for a line
    that is not an integer. *)
Definition numero_ou_padrao (lido : option Z) : Z := default 10%Z lido.

(** [f"{v:.2f}"] *)
Definition formato_f (v : value F) : result unit :=
  match v with
  | VNum _ => Ok ()
  | VStr _ => Raise (ValueError "Unknown format code 'f' for object of type 'str'")
  | VNone => Raise TypeError
  end.

(** The body of the loop [for artigo in artigos_relevantes]: the three
    fields that are printed, the keywords, the download.  What is written
    to the terminal is left out: the terminal takes every line. *)
Definition exibir_artigo (fs : Arquivos) (σ : heap F) (idioma : str) (artigo : loc)
    : Arquivos * result bool :=
  match σ !! artigo with
  | None => (fs, Raise TypeError)
  | Some d =>
      match (_ ← getitem σ artigo "titulo";
             relevancia ← getitem σ artigo "relevancia";
             _ ← formato_f relevancia;
             _ ← getitem σ artigo "link";
             resumo ← getitem σ artigo "resumo";
             extrair_palavras_chave_yake resumo 10 idioma) with
      | Raise e => (fs, Raise e)
      | Ok _ => baixar_pdf fs d pdfs
      end
  end.

Fixpoint exibir (fs : Arquivos) (σ : heap F) (idioma : str)
    (artigos_relevantes : list loc) : Arquivos * result unit :=
  match artigos_relevantes with
  | [] => (fs, Ok ())
  | artigo :: resto =>
      match exibir_artigo fs σ idioma artigo with
      | (fs', Ok _) => exibir fs' σ idioma resto
      | (fs', Raise e) => (fs', Raise e)
      end
  end.

(** The statements that the two scripts share under [if artigos:] and
    [if novos_artigos:]: scoring, filtering, display.  In
    [Filtro_SerpiAPI.py] the list [artigos] is extended between the filter
    and the display; the extended list is used after the loop only. *)
Definition pontuar_e_exibir (σ : heap F) (fs : Arquivos) (artigos : list loc)
    (termo_referencia idioma : str) : heap F * Arquivos * result (list loc) :=
  match calcular_relevancia σ artigos termo_referencia idioma with
  | (σ', Raise e) => (σ', fs, Raise e)
  | (σ', Ok artigos_ordenados) =>
      match artigos_relevantes σ' artigos_ordenados with
      | Raise e => (σ', fs, Raise e)
      | Ok relevantes =>
          match exibir fs σ' idioma relevantes with
          | (fs', Raise e) => (σ', fs', Raise e)
          | (fs', Ok _) => (σ', fs', Ok relevantes)
          end
      end
  end.
End execucao.

(** [Filtro_bilingue.py] run as a script, on the three lines read from the
    terminal. *)
Module Filtro_bilingue.
Section principal.
Context {F : Type}.
Context `{!Pontuacao F, !Bibliotecas F, !Internet F, !Yake F, !Escrita F}.

Definition principal (σ : heap F) (fs : Arquivos) (tema idioma_lido : str)
    (numero_lido : option Z) : heap F * Arquivos * result unit :=
  let idioma := idioma_ou_padrao idioma_lido in
  let max_resultados := numero_ou_padrao numero_lido in
  let termo_referencia := tema in
  match Bilingue.coletar_artigos σ tema max_resultados with
  | (σ1, Raise e) => (σ1, fs, Raise e)
  | (σ1, Ok artigos) =>
      if decide (artigos ≠ []) then
        match pontuar_e_exibir σ1 fs artigos termo_referencia idioma with
        | (σ2, fs', Raise e) => (σ2, fs', Raise e)
        | (σ2, fs', Ok relevantes) =>
            let '(fs'', r) := salvar_artigos fs' σ2 relevantes artigos_relevantes_json in
            (σ2, fs'', r)
        end
      else (σ1, fs, Ok ())
  end.
End principal.
End Filtro_bilingue.

(** [Filtro_SerpiAPI.py] run as a script.  [entradas] holds what is read
    in the rounds of the loop before the line [sair] ends it: the search
    term, stripped, and the number of articles. *)
Module Filtro_SerpiAPI.
Section principal.
Context {F : Type}.
Context `{!Pontuacao F, !Bibliotecas F, !Internet F, !Yake F, !Escrita F}.

(** The default of the parameter [api_key]. *)
Definition api_key : str := replicate 31 45%N.

(** [query_acumulada += f" {novo_termo}"], or the term itself on an empty
    query. *)
Definition acumular (query_acumulada novo_termo : str) : str :=
  if decide (query_acumulada ≠ []) then query_acumulada ++ [32%N] ++ novo_termo
  else novo_termo.

(** One round of the loop: the list [artigos] and the query after it. *)
Definition rodada (σ : heap F) (fs : Arquivos) (idioma : str) (artigos : list loc)
    (query_acumulada novo_termo : str) (numero_lido : option Z)
    : heap F * Arquivos * result (list loc * str) :=
  let query_acumulada := acumular query_acumulada novo_termo in
  let max_resultados := numero_ou_padrao numero_lido in
  match SerpiAPI.coletar_artigos σ query_acumulada max_resultados api_key with
  | (σ1, Raise e) => (σ1, fs, Raise e)
  | (σ1, Ok novos_artigos) =>
      if decide (novos_artigos ≠ []) then
        match pontuar_e_exibir σ1 fs novos_artigos query_acumulada idioma with
        | (σ2, fs', Raise e) => (σ2, fs', Raise e)
        | (σ2, fs', Ok relevantes) =>
            (σ2, fs', Ok (artigos ++ relevantes, query_acumulada))
        end
      else (σ1, fs, Ok (artigos, query_acumulada))
  end.

Fixpoint laco (σ : heap F) (fs : Arquivos) (idioma : str) (artigos : list loc)
    (query_acumulada : str) (entradas : list (str * option Z))
    : heap F * Arquivos * result (list loc * str) :=
  match entradas with
  | [] => (σ, fs, Ok (artigos, query_acumulada))
  | (novo_termo, numero_lido) :: resto =>
      match rodada σ fs idioma artigos query_acumulada novo_termo numero_lido with
      | (σ', fs', Ok (artigos', query')) => laco σ' fs' idioma artigos' query' resto
      | (σ', fs', Raise e) => (σ', fs', Raise e)
      end
  end.

Definition principal (σ : heap F) (fs : Arquivos) (idioma_lido : str)
    (entradas : list (str * option Z)) : heap F * Arquivos * result unit :=
  let idioma := idioma_ou_padrao idioma_lido in
  match laco σ fs idioma [] [] entradas with
  | (σ', fs', Raise e) => (σ', fs', Raise e)
  | (σ', fs', Ok (artigos, _)) =>
      if decide (artigos ≠ []) then
        let '(fs'', r) := salvar_artigos fs' σ' artigos artigos_relevantes_json in
        (σ', fs'', r)
      else (σ', fs', Ok ())
  end.
End principal.
End Filtro_SerpiAPI.

(** ** Predicates of the statements *)

Section predicados.
Context {F : Type} `{!Pontuacao F, !Internet F}.

(** The records that a collection loop adds to the heap [σ] for the
    sources [fontes]: one new reference for each, in order. *)
Definition acrescidos {A} (novo : A → dict F) (σ σ' : heap F) (novos : list loc)
    (fontes : list A) : Prop :=
  Forall2 (λ a r, σ' !! a = Some (novo r)) novos fontes
  ∧ NoDup novos
  ∧ (∀ a, a ∈ novos → σ !! a = None)
  ∧ (∀ a, a ∉ novos → σ' !! a = σ !! a).

(** [p] is the path to which [baixar_pdf] writes the article. *)
Definition alvo (artigo : dict F) (pasta : str) (p : str) : Prop :=
  ∃ titulo, artigo !! "titulo" = Some (VStr titulo)
            ∧ p = os_path_join pasta (take 50 titulo ++ ponto_pdf).

(** The cases in which the [try] block ends before the file is opened. *)
Definition sem_download (artigo : dict F) (link : value F) : Prop :=
  (∀ url, link ≠ VStr url)
  ∨ (∃ url e, link = VStr url ∧ requests_get url [] = Raise e)
  ∨ (∃ url response, link = VStr url ∧ requests_get url [] = Ok response
                     ∧ status_code response ≠ 200%Z)
  ∨ (∀ titulo, artigo !! "titulo" ≠ Some (VStr titulo)).

(** The strings of a record are free of surrogates. *)
Definition registro_codificavel (d : dict F) : Prop :=
  ∀ k s, d !! k = Some (VStr s) → forallb codificavel s = true.

(** The articles that pass the filter. *)
Definition relevantes_de (σ : heap F) (ordenados : list loc) : list loc :=
  filter (λ a, ltb zero (relevancia_de σ a) = true) ordenados.

(** A record with a relevance above zero. *)
Definition positivo (d : dict F) : Prop :=
  ∃ r, d !! "relevancia" = Some (VNum r) ∧ ltb zero r = true.

(** The state of the loop of [Filtro_SerpiAPI.py]: the articles gathered
    so far are pairwise distinct and have a relevance above zero. *)
Definition reunidos (σ : heap F) (artigos : list loc) : Prop :=
  NoDup artigos ∧ ∀ a, a ∈ artigos → ∃ d, σ !! a = Some d ∧ positivo d.
End predicados.

(** ** A reference instance

    Fixed-point numbers (an integer number of millionths) for the relevance
    values, and a small executable stand-in for the libraries, used to run
    the definitions on concrete inputs: ASCII and Latin-1 words of two or
    more characters, lower-cased, a few entries of each stop-word table,
    and for the kernel the squared cosine of the count rows weighted by
    [1 / (1 + df)], rounded down to millionths; it is [0] when the rows
    share no term and one million when they are proportional. *)
Module Referencia.
Lemma Zleb_total (x y : Z) : (x <=? y)%Z = true ∨ (y <=? x)%Z = true.
Proof. rewrite !Z.leb_le. lia. Qed.

Lemma Zleb_trans (x y z : Z) :
  (x <=? y)%Z = true → (y <=? z)%Z = true → (x <=? z)%Z = true.
Proof. rewrite !Z.leb_le. lia. Qed.

#[export] Instance pontuacao : Pontuacao Z :=
  {| zero := 0%Z; leb := Z.leb; leb_total := Zleb_total; leb_trans := Zleb_trans |}.

Definition letra (c : N) : bool :=
  ((48 <=? c) && (c <=? 57) || (65 <=? c) && (c <=? 90) || (c =? 95)
   || (97 <=? c) && (c <=? 122)
   || (192 <=? c) && negb (c =? 215) && negb (c =? 247))%N.

Definition minuscula (c : N) : N :=
  (if (65 <=? c) && (c <=? 90) || (192 <=? c) && (c <=? 222) && negb (c =? 215)
   then c + 32 else c)%N.

Fixpoint palavras (atual : str) (s : str) : list str :=
  match s with
  | [] => [reverse atual]
  | c :: s' => if letra c then palavras (c :: atual) s'
               else reverse atual :: palavras [] s'
  end.

Definition tokenizar (s : str) : list str :=
  filter (λ t, 2 ≤ length t) (palavras [] (minuscula <$> s)).

Definition english : list str :=
  str_of <$> ["a"; "an"; "and"; "are"; "as"; "at"; "be"; "by"; "for"; "from";
              "in"; "is"; "it"; "of"; "on"; "or"; "that"; "the"; "this"; "to";
              "was"; "with"].

Definition portugues : list str :=
  str_of <$> ["a"; "as"; "com"; "da"; "de"; "do"; "e"; "em"; "na"; "no"; "o";
              "os"; "para"; "por"; "que"; "um"; "uma"].

Definition analisar (stop_words : stop_words_arg) (doc : str) : list str :=
  let parada := match stop_words with
                | Lista palavras => palavras
                | Nome _ => english
                end in
  filter (λ t, t ∉ parada) (tokenizar doc).

Definition pontuacao_char (c : N) : bool :=
  negb (letra c) && negb (c =? 32)%N.

Definition etiquetar (parada : list str) (texto : str) : list Token :=
  (λ t, {| lemma_ := minuscula <$> t;
           is_stop := bool_decide ((minuscula <$> t) ∈ parada);
           is_punct := forallb pontuacao_char t |})
    <$> filter (λ t, t ≠ []) (palavras [] texto).

(** Integer weights proportional to [1 / (1 + df)²]. *)
Definition pesos (df : list nat) : list Z :=
  let quadrados := (λ f, (1 + Z.of_nat f) * (1 + Z.of_nat f))%Z <$> df in
  let comum := foldr Z.mul 1%Z quadrados in
  (λ q, comum / q)%Z <$> quadrados.

Definition produto (w : list Z) (x y : list nat) : Z :=
  foldr Z.add 0%Z
    (zip_with Z.mul w (zip_with (λ a b, Z.of_nat a * Z.of_nat b)%Z x y)).

Definition cosseno_quadrado (n : nat) (df x y : list nat) : Z :=
  if forallb (Nat.eqb 0) x || forallb (Nat.eqb 0) y then 0%Z
  else let w := pesos df in
       (1000000 * (produto w x y * produto w x y)
        / (produto w x x * produto w y y))%Z.

Lemma cosseno_quadrado_nulo_l n df x y :
  Forall (λ c, c = 0) x → cosseno_quadrado n df x y = 0%Z.
Proof.
  intros Hx. unfold cosseno_quadrado.
  assert (forallb (Nat.eqb 0) x = true) as ->; [|done].
  apply forallb_forall. intros c Hc%list_elem_of_In.
  rewrite Forall_forall in Hx. by rewrite (Hx c Hc).
Qed.

Lemma cosseno_quadrado_nulo_r n df x y :
  Forall (λ c, c = 0) y → cosseno_quadrado n df x y = 0%Z.
Proof.
  intros Hy. unfold cosseno_quadrado.
  assert (forallb (Nat.eqb 0) y = true) as ->; [|by rewrite orb_true_r].
  apply forallb_forall. intros c Hc%list_elem_of_In.
  rewrite Forall_forall in Hy. by rewrite (Hy c Hc).
Qed.

#[export] Instance bibliotecas : Bibliotecas Z :=
  {| nlp_en := etiquetar english;
     nlp_pt := etiquetar portugues;
     stop_words_pt := portugues;
     build_analyzer := analisar;
     cosseno := cosseno_quadrado;
     cosseno_nulo_l := cosseno_quadrado_nulo_l;
     cosseno_nulo_r := cosseno_quadrado_nulo_r |}.

Section milionesimos.
Local Open Scope N_scope.

(** Decimal digits as characters. *)
Fixpoint digitos (u : Decimal.uint) : str :=
  match u with
  | Decimal.Nil => []
  | Decimal.D0 u => 48 :: digitos u
  | Decimal.D1 u => 49 :: digitos u
  | Decimal.D2 u => 50 :: digitos u
  | Decimal.D3 u => 51 :: digitos u
  | Decimal.D4 u => 52 :: digitos u
  | Decimal.D5 u => 53 :: digitos u
  | Decimal.D6 u => 54 :: digitos u
  | Decimal.D7 u => 55 :: digitos u
  | Decimal.D8 u => 56 :: digitos u
  | Decimal.D9 u => 57 :: digitos u
  end.

Definition digito (c : N) : option (Decimal.uint → Decimal.uint) :=
  if c =? 48 then Some Decimal.D0 else if c =? 49 then Some Decimal.D1
  else if c =? 50 then Some Decimal.D2 else if c =? 51 then Some Decimal.D3
  else if c =? 52 then Some Decimal.D4 else if c =? 53 then Some Decimal.D5
  else if c =? 54 then Some Decimal.D6 else if c =? 55 then Some Decimal.D7
  else if c =? 56 then Some Decimal.D8 else if c =? 57 then Some Decimal.D9
  else None.

Fixpoint ler_digitos (s : str) : option Decimal.uint :=
  match s with
  | [] => Some Decimal.Nil
  | c :: r => d ← digito c; u ← ler_digitos r; Some (d u)
  end.

Definition expoente : str := [101; 45; 54].

(** A number of millionths [x] is written [x] followed by [e-6]. *)
Definition repr_milionesimos (x : Z) : str :=
  (if (x <? 0)%Z then [45] else []) ++ digitos (N.to_uint (Z.abs_N x)) ++ expoente.

Definition ler_milionesimos (s : str) : option Z :=
  let '(negativo, s1) := match s with
                         | c :: r => if c =? 45 then (true, r) else (false, s)
                         | [] => (false, s)
                         end in
  let k := (length s1 - 3)%nat in
  if decide (drop k s1 = expoente) then
    u ← ler_digitos (take k s1);
    Some (if negativo then (- Z.of_N (N.of_uint u))%Z else Z.of_N (N.of_uint u))
  else None.

Lemma ler_digitos_digitos u : ler_digitos (digitos u) = Some u.
Proof. induction u; simpl; rewrite ?IHu; done. Qed.

Lemma digitos_numerico u : Forall (λ c, numerico c = true) (digitos u).
Proof. induction u; simpl; constructor; done. Qed.

Lemma digitos_nao_menos u c r : digitos u = c :: r → (c =? 45) = false.
Proof. destruct u; simpl; intros [= <- _]; done. Qed.

Lemma to_uint_nao_nil n : N.to_uint n ≠ Decimal.Nil.
Proof.
  destruct n as [|p]; [done|]. simpl. 
  pose proof (DecimalPos.Unsigned.to_uint_nonnil p). done.
Qed.

Lemma ler_milionesimos_repr x : ler_milionesimos (repr_milionesimos x) = Some x.
Proof.
  unfold repr_milionesimos, ler_milionesimos.
  set (u := N.to_uint (Z.abs_N x)).
  assert (∀ (g : N → Z) s1, s1 = digitos u ++ expoente →
            (let k := (length s1 - 3)%nat in
             if decide (drop k s1 = expoente)
             then ler_digitos (take k s1) ≫= λ u', Some (g (N.of_uint u'))
             else None) = Some (g (Z.abs_N x))) as Hg.
  { intros g s1 ->. cbn zeta. rewrite length_app. simpl length.
    replace (length (digitos u) + 3 - 3)%nat with (length (digitos u)) by lia.
    rewrite drop_app_length, take_app_length, decide_True by done.
    rewrite ler_digitos_digitos. simpl. unfold u. by rewrite DecimalN.Unsigned.of_to. }
  destruct (x <? 0)%Z eqn:Hx.
  - simpl app. cbn [N.eqb Pos.eqb].
    rewrite (Hg (λ n, (- Z.of_N n)%Z)) by done. f_equal. apply Z.ltb_lt in Hx. lia.
  - pose proof (Hg Z.of_N _ eq_refl) as Hpos. cbv zeta in Hpos.
    assert (Z.of_N (Z.abs_N x) = x) as Hx' by (apply Z.ltb_ge in Hx; lia).
    rewrite Hx' in Hpos. clear Hg.
    simpl app. destruct (digitos u) as [|c r] eqn:Hu.
    + exfalso. destruct u eqn:Eu; try done. by apply (to_uint_nao_nil (Z.abs_N x)).
    + simpl app in *. cbv beta iota. by rewrite (digitos_nao_menos u c r Hu).
Qed.

Lemma repr_milionesimos_numerico x :
  repr_milionesimos x ≠ [] ∧ Forall (λ c, numerico c = true) (repr_milionesimos x).
Proof.
  unfold repr_milionesimos. split.
  - intros H. apply app_eq_nil in H as [_ H]. apply app_eq_nil in H as [_ H]. done.
  - apply Forall_app. split; [by destruct (x <? 0)%Z; repeat constructor|].
    apply Forall_app. split; [apply digitos_numerico|by repeat constructor].
Qed.

End milionesimos.

#[export] Instance escrita : Escrita Z :=
  {| repr := repr_milionesimos;
     float_de := ler_milionesimos;
     repr_numerico := repr_milionesimos_numerico;
     float_de_repr := ler_milionesimos_repr |}.

(** An article record as [coletar_artigos] builds it. *)
Definition artigo (titulo resumo link : str) : dict Z :=
  <["titulo" := VStr titulo]> (<["resumo" := VStr resumo]> (<["link" := VStr link]> ∅)).

Definition consulta : str := str_of "graph neural networks".
Definition en : str := str_of "en".
Definition endereco : str := str_of "http://example.org/a.pdf".

(** Three articles with abstracts, none of them the sentinel. *)
Definition acervo : heap Z :=
  <[1%positive := artigo (str_of "Pasta") (str_of "Cooking pasta in the oven") []]>
    (<[2%positive := artigo (str_of "GNN") (str_of "Graph neural networks") endereco]>
       (<[3%positive := artigo (str_of "Survey")
                          (str_of "A survey of neural networks for vision") []]> ∅)).

(** An article without abstract followed by one with an abstract. *)
Definition acervo_sem_resumo : heap Z :=
  <[1%positive := artigo (str_of "Unknown") resumo_nao_disponivel []]>
    (<[2%positive := artigo (str_of "GNN") (str_of "Graph neural networks") []]> ∅).

(** An article whose abstract holds stop words only. *)
Definition acervo_vazio : heap Z :=
  <[1%positive := artigo (str_of "Of") (str_of "of the and") []]> ∅.

(** A network that is down, and one that answers: the search API with
    two results (the second without snippet), [scholarly] with two
    publications, one address with a two-chunk body, [404] elsewhere. *)
Definition rede_fora_do_ar : Internet Z :=
  {| requests_get := λ _ _, Raise RequestException;
     search_pubs := λ _, Raise RequestException |}.

Definition resultados_exemplo : list (dict Z) :=
  [ <["title" := VStr (str_of "GNN")]>
      (<["snippet" := VStr (str_of "Graph neural networks")]>
         (<["link" := VStr endereco]> ∅));
    <["title" := VStr (str_of "Unknown")]> ∅ ].

Definition publicacoes_exemplo : gerador Z :=
  Item {| bib := Some (<["title" := VStr (str_of "GNN")]>
                         (<["abstract" := VStr (str_of "Graph neural networks")]> ∅));
          eprint_url := Some (VStr endereco) |}
    (Item {| bib := None; eprint_url := None |} Fim).

Definition rede : Internet Z :=
  {| requests_get := λ url _,
       if decide (url = SerpiAPI.url) then
         Ok {| status_code := 200;
               json := Ok (<["organic_results" := resultados_exemplo]> ∅);
               iter_content := [] |}
       else if decide (url = endereco) then
         Ok {| status_code := 200;
               json := Raise JSONDecodeError;
               iter_content := [Ok [Byte.x25; Byte.x50; Byte.x44; Byte.x46];
                                Ok [Byte.x2d; Byte.x31]] |}
       else Ok {| status_code := 404; json := Raise JSONDecodeError;
                  iter_content := [] |};
     search_pubs := λ _, Ok publicacoes_exemplo |}.

(** An empty working directory, and one in which nothing may be created
    under the name [pdfs]. *)
Definition disco : Arquivos :=
  {| diretorios := ∅; arquivos := ∅; protegidos := ∅ |}.

Definition disco_protegido : Arquivos :=
  {| diretorios := ∅; arquivos := ∅; protegidos := {[pdfs]} |}.

Definition chave_api : str := str_of "secret".

(** The keyword extractor: the first [top] tokens, each with score 0. *)
#[export] Instance yake : Yake Z :=
  {| extract_keywords := λ _ top texto,
       match texto with
       | VStr s => Ok ((λ p, (p, 0%Z)) <$> take (Z.to_nat top) (tokenizar s))
       | _ => Raise AttributeError
       end |}.

(** A record without abstract entry. *)
Definition acervo_incompleto : heap Z :=
  <[1%positive := <["titulo" := VStr (str_of "GNN")]> ∅]> ∅.

(** A network on which the search yields one publication and then fails,
    and the body of the one address fails after its second chunk. *)
Definition rede_instavel : Internet Z :=
  {| requests_get := λ url _,
       if decide (url = endereco) then
         Ok {| status_code := 200;
               json := Raise JSONDecodeError;
               iter_content := [Ok [Byte.x25; Byte.x50]; Ok [Byte.x44];
                                Raise RequestException; Ok [Byte.x46]] |}
       else Raise RequestException;
     search_pubs := λ _,
       Ok (Item {| bib := Some (<["title" := VStr (str_of "GNN")]> ∅);
                   eprint_url := None |}
             (Falha RequestException)) |}.

(** A working directory in which [pdfs] exists. *)
Definition disco_com_pdfs : Arquivos :=
  {| diretorios := {[pdfs]}; arquivos := ∅; protegidos := ∅ |}.

(** The publications of the search on [rede], and a record whose title
    holds a lone surrogate. *)
Definition publicacoes_da_busca : list (Publicacao Z) :=
  [ {| bib := Some (<["title" := VStr (str_of "GNN")]>
                      (<["abstract" := VStr (str_of "Graph neural networks")]> ∅));
       eprint_url := Some (VStr endereco) |};
    {| bib := None; eprint_url := None |} ].

Definition acervo_substituto : heap Z :=
  <[1%positive := artigo [55296%N] (str_of "Graph neural networks") []]> ∅.

(** What is typed in two rounds of [Filtro_SerpiAPI.py]. *)
Definition duas_rodadas : list (str * option Z) :=
  [(str_of "graph", Some 1%Z); (str_of "neural", None)].

(** The heap after the three articles have been scored. *)
Definition acervo_pontuado : heap Z :=
  (calcular_relevancia acervo [1; 2; 3]%positive consulta en).1.
(** A scored article with its keywords, pairs of a term and a score as
    [yake] returns them, and the record [json.load] returns for it. *)
Definition artigo_com_palavras : gmap string (objeto Z) :=
  <["titulo" := OStr (str_of "GNN")]>
    (<["relevancia" := ONum 500000%Z]>
       (<["keywords" :=
            OLista [OTupla [OStr (str_of "graph"); ONum 100000%Z];
                    OTupla [OStr (str_of "classifica" ++ [231%N; 227%N] ++ str_of "o");
                            ONum 250000%Z]]]> ∅)).

Definition artigo_com_palavras_lido : gmap string (objeto Z) :=
  <["titulo" := OStr (str_of "GNN")]>
    (<["relevancia" := ONum 500000%Z]>
       (<["keywords" :=
            OLista [OLista [OStr (str_of "graph"); ONum 100000%Z];
                    OLista [OStr (str_of "classifica" ++ [231%N; 227%N] ++ str_of "o");
                            ONum 250000%Z]]]> ∅)).

Definition acervo_com_palavras : gmap loc (gmap string (objeto Z)) :=
  {[1%positive := artigo_com_palavras]}.

End Referencia.

(** ** Facts about the result monad, the sort and the loop *)

Lemma bind_Ok {A B} (m : result A) (f : A → result B) b :
  m ≫= f = Ok b ↔ ∃ a, m = Ok a ∧ f a = Ok b.
Proof. destruct m; simpl; split; [eauto|by intros (?&[= ->]&?)|done|by intros (?&?&?)]. Qed.

Section result_lemmas.
Context {A B : Type}.

Lemma mapM_Ok (f : A → result B) l k :
  mapM f l = Ok k ↔ Forall2 (λ x y, f x = Ok y) l k.
Proof.
  revert k. induction l as [|x l IH]; intros k; simpl.
  - split; [intros [= <-]; constructor|by inversion 1].
  - split.
    + intros (y & Hy & (k' & Hk' & [= <-])%bind_Ok)%bind_Ok.
      constructor; [done|by apply IH].
    + inversion 1 as [|? y ? k' Hy Hk]; subst.
      rewrite Hy. simpl. apply IH in Hk. by rewrite Hk.
Qed.

Lemma mapM_Ok_total (f : A → result B) (g : A → B) l :
  (∀ x, x ∈ l → f x = Ok (g x)) → mapM f l = Ok (g <$> l).
Proof.
  intros H. apply mapM_Ok. induction l as [|x l IH]; constructor.
  - apply H. left.
  - apply IH. intros y Hy. apply H. by right.
Qed.

End result_lemmas.

Section ordenacao.
Context {F : Type} `{!Pontuacao F} {A : Type}.
Implicit Types (x y : F * A) (l : list (F * A)).

Lemma inserir_perm x l : inserir x l ≡ₚ x :: l.
Proof.
  induction l as [|y l IH]; simpl; [done|].
  destruct (leb y.1 x.1); [done|]. rewrite IH. apply Permutation_swap.
Qed.

Lemma sorted_reverse_perm l : sorted_reverse l ≡ₚ l.
Proof.
  induction l as [|x l IH]; simpl; [done|].
  rewrite inserir_perm. by constructor.
Qed.

Lemma inserir_sorted x l : Sorted antes l → Sorted antes (inserir x l).
Proof.
  induction 1 as [|y l Hl IH Hy]; simpl.
  - repeat constructor.
  - destruct (leb y.1 x.1) eqn:Hyx.
    + repeat constructor; done.
    + constructor; [done|].
      assert (antes y x) as Hxy.
      { unfold antes. destruct (leb_total y.1 x.1); congruence. }
      destruct Hy as [|z l' Hz]; simpl.
      * by constructor.
      * destruct (leb z.1 x.1); by constructor.
Qed.

Lemma sorted_reverse_sorted l : Sorted antes (sorted_reverse l).
Proof.
  induction l as [|x l IH]; simpl; [constructor|by apply inserir_sorted].
Qed.

Lemma antes_trans : Transitive (antes (A:=A)).
Proof. intros x y z Hxy Hyz. unfold antes in *. by eapply leb_trans. Qed.

Lemma sorted_reverse_strongly_sorted l : StronglySorted antes (sorted_reverse l).
Proof. apply Sorted_StronglySorted; [apply antes_trans|apply sorted_reverse_sorted]. Qed.

Lemma inserir_estavel r x l :
  filter (com_chave r) (inserir x l) = filter (com_chave r) (x :: l).
Proof.
  induction l as [|y l IH]; simpl; [done|].
  destruct (leb y.1 x.1) eqn:Hyx; [done|].
  rewrite !filter_cons in *.
  destruct (decide (com_chave r x)) as [Hx|Hx].
  - destruct (decide (com_chave r y)) as [Hy|Hy]; [|by rewrite IH].
    unfold com_chave, eqb in Hx, Hy.
    apply andb_true_iff in Hx as [Hx1 Hx2], Hy as [Hy1 Hy2].
    rewrite (leb_trans _ _ _ Hy1 Hx2) in Hyx. done.
  - by rewrite IH.
Qed.

Lemma sorted_reverse_estavel r l :
  filter (com_chave r) (sorted_reverse l) = filter (com_chave r) l.
Proof.
  induction l as [|x l IH]; simpl; [done|].
  rewrite inserir_estavel, !filter_cons, IH. done.
Qed.
End ordenacao.

Section laco.
Context {F : Type} `{!Pontuacao F}.
Implicit Types (σ : heap F) (a : loc) (d : dict F) (l artigos : list loc).

Lemma atribuir_None sims i σ l a :
  σ !! a = None → atribuir sims i σ l !! a = None.
Proof.
  revert i σ. induction l as [|b l IH]; intros i σ Ha; simpl; [done|].
  apply IH. unfold setitem. rewrite lookup_alter. case_decide; [subst|done].
  by rewrite Ha.
Qed.

(** What the loop changes: only the [relevancia] entry of the articles
    of the list. *)
Lemma atribuir_Some sims i σ l a d :
  σ !! a = Some d →
  ∃ d', atribuir sims i σ l !! a = Some d'
        ∧ (∀ k, k ≠ "relevancia" → d' !! k = d !! k)
        ∧ (a ∈ l → ∃ r, d' !! "relevancia" = Some (VNum r))
        ∧ (a ∉ l → d' = d).
Proof.
  revert i σ d. induction l as [|b l IH]; intros i σ d Ha; simpl.
  - exists d. split_and!; [done|done|by intros ?%elem_of_nil|done].
  - set (v := VNum (similaridade_ou_zero sims i)).
    destruct (decide (b = a)) as [->|Hba].
    + destruct (IH (S i) (setitem σ a "relevancia" v) (<["relevancia" := v]> d))
        as (d' & Hd' & Hframe & Hin & Hout).
      { unfold setitem. rewrite lookup_alter, decide_True by done. by rewrite Ha. }
      exists d'. split_and!; [done| | |].
      * intros k Hk. rewrite Hframe by done. by rewrite lookup_insert_ne.
      * intros _. destruct (decide (a ∈ l)) as [Hl|Hl]; [by apply Hin|].
        rewrite (Hout Hl). exists (similaridade_ou_zero sims i).
        by rewrite lookup_insert_eq.
      * intros []. left.
    + destruct (IH (S i) (setitem σ b "relevancia" v) d)
        as (d' & Hd' & Hframe & Hin & Hout).
      { unfold setitem. by rewrite lookup_alter, decide_False. }
      exists d'. split_and!; [done|done| |].
      * intros [?|?]%elem_of_cons; [congruence|by apply Hin].
      * intros Hn. apply Hout. intros ?. apply Hn. by right.
Qed.

(** With no article listed twice, the article at position [j] receives
    the value computed for index [i + j]. *)
Lemma atribuir_lookup sims i σ l j a d :
  NoDup l → l !! j = Some a → σ !! a = Some d →
  atribuir sims i σ l !! a
  = Some (<["relevancia" := VNum (similaridade_ou_zero sims (i + j))]> d).
Proof.
  revert i σ j d. induction l as [|b l IH]; intros i σ j d Hnd Hj Ha; [done|].
  apply NoDup_cons in Hnd as [Hb Hnd]. simpl.
  destruct j as [|j]; simpl in Hj.
  - injection Hj as ->.
    destruct (atribuir_Some sims (S i)
                (setitem σ a "relevancia" (VNum (similaridade_ou_zero sims i))) l a
                (<["relevancia" := VNum (similaridade_ou_zero sims i)]> d))
      as (d' & Hd' & _ & _ & Hout).
    { unfold setitem. rewrite lookup_alter, decide_True by done. by rewrite Ha. }
    rewrite Hd', (Hout Hb). by rewrite Nat.add_0_r.
  - assert (b ≠ a) as Hba.
    { intros ->. apply Hb. by eapply list_elem_of_lookup_2. }
    rewrite (IH (S i) _ j d); [|done|done|].
    + do 4 f_equal. lia.
    + unfold setitem. by rewrite lookup_alter, decide_False.
Qed.
End laco.

Section fatos_pontuacao.
Context {F : Type} `{!Pontuacao F, !Bibliotecas F}.
Implicit Types (σ : heap F) (a : loc) (d : dict F) (l artigos : list loc).

Lemma getitem_Ok σ a k v :
  getitem σ a k = Ok v ↔ ∃ d, σ !! a = Some d ∧ d !! k = Some v.
Proof.
  unfold getitem. destruct (σ !! a) as [d|]; [|split; [done|by intros (?&?&?)]].
  destruct (d !! k) as [w|] eqn:Hk.
  - split; [intros [= ->]; eauto|]. intros (? & [= <-] & ?). congruence.
  - split; [done|]. intros (? & [= <-] & ?). congruence.
Qed.

Lemma similaridades_de_resumos sw σ artigos termo sims :
  similaridades_de sw σ artigos termo = Ok sims →
  ∃ resumos, mapM (λ a, getitem σ a "resumo") artigos = Ok resumos.
Proof.
  unfold similaridades_de, textos_de.
  intros (textos & (resumos & ? & _)%bind_Ok & _)%bind_Ok. eauto.
Qed.

Lemma mapM_Ok_elem {A B} (f : A → result B) (l : list A) (k : list B) x :
  mapM f l = Ok k → x ∈ l → ∃ y, f x = Ok y.
Proof.
  intros H%mapM_Ok Hx. revert Hx. induction H; intros Hx.
  - by apply elem_of_nil in Hx.
  - apply elem_of_cons in Hx as [->|?]; eauto.
Qed.

Lemma similaridades_de_vivos sw σ artigos termo sims a :
  similaridades_de sw σ artigos termo = Ok sims → a ∈ artigos → is_Some (σ !! a).
Proof.
  intros (resumos & H)%similaridades_de_resumos Ha.
  destruct (mapM_Ok_elem _ _ _ _ H Ha) as (v & (d & ? & _)%getitem_Ok). eauto.
Qed.

Lemma chave_atribuir sims i σ artigos a :
  is_Some (σ !! a) → a ∈ artigos →
  ∃ r, chave (atribuir sims i σ artigos) a = Ok r.
Proof.
  intros [d Hd] Ha.
  destruct (atribuir_Some sims i σ artigos a d Hd) as (d' & Hd' & _ & Hin & _).
  destruct (Hin Ha) as [r Hr]. exists r.
  unfold chave, getitem. by rewrite Hd', Hr.
Qed.

Lemma chave_relevancia_de σ a r : chave σ a = Ok r → relevancia_de σ a = r.
Proof. unfold relevancia_de. by intros ->. Qed.

Lemma zip_chaves σ artigos chaves :
  mapM (chave σ) artigos = Ok chaves →
  zip chaves artigos = (λ a, (relevancia_de σ a, a)) <$> artigos.
Proof.
  intros H%mapM_Ok. induction H as [|a k l ks Hk _ IH]; simpl; [done|].
  by rewrite IH, (chave_relevancia_de _ _ _ Hk).
Qed.

(** On articles that are all in the heap the loop and the sort never
    raise. *)
Lemma pontuar_e_ordenar_Ok sims σ artigos :
  (∀ a, a ∈ artigos → is_Some (σ !! a)) →
  pontuar_e_ordenar sims σ artigos
  = (atribuir sims 0 σ artigos,
     Ok (snd <$> sorted_reverse
           ((λ a, (relevancia_de (atribuir sims 0 σ artigos) a, a)) <$> artigos))).
Proof.
  intros Hv. unfold pontuar_e_ordenar. f_equal.
  set (σ' := atribuir sims 0 σ artigos).
  assert (mapM (chave σ') artigos = Ok (relevancia_de σ' <$> artigos)) as Hm.
  { apply mapM_Ok_total. intros a Ha.
    destruct (chave_atribuir sims 0 σ artigos a (Hv a Ha) Ha) as [r Hr].
    fold σ' in Hr. by rewrite Hr, (chave_relevancia_de _ _ _ Hr). }
  rewrite Hm. simpl. by rewrite (zip_chaves _ _ _ Hm).
Qed.

Lemma relevancia_com_inv sw σ artigos termo σ' ordenados :
  relevancia_com sw σ artigos termo = (σ', Ok ordenados) →
  ∃ sims, similaridades_de sw σ artigos termo = Ok sims
          ∧ σ' = atribuir sims 0 σ artigos
          ∧ ordenados = snd <$> sorted_reverse
                          ((λ a, (relevancia_de σ' a, a)) <$> artigos).
Proof.
  unfold relevancia_com. destruct (similaridades_de _ _ _ _) as [sims|e] eqn:Hs; [|done].
  rewrite pontuar_e_ordenar_Ok by eauto using similaridades_de_vivos.
  intros [= <- <-]. eauto.
Qed.

Lemma relevancia_com_Ok sw σ artigos termo sims :
  similaridades_de sw σ artigos termo = Ok sims →
  relevancia_com sw σ artigos termo
  = (atribuir sims 0 σ artigos,
     Ok (snd <$> sorted_reverse
           ((λ a, (relevancia_de (atribuir sims 0 σ artigos) a, a)) <$> artigos))).
Proof.
  intros Hs. unfold relevancia_com. rewrite Hs.
  apply pontuar_e_ordenar_Ok. eauto using similaridades_de_vivos.
Qed.

Lemma relevancia_com_Raise sw σ artigos termo e :
  similaridades_de sw σ artigos termo = Raise e →
  relevancia_com sw σ artigos termo = (σ, Raise e).
Proof. intros Hs. unfold relevancia_com. by rewrite Hs. Qed.
End fatos_pontuacao.

Section listas.
Context {A B : Type}.

Lemma filter_fmap (f : A → B) (P : B → Prop) `{!∀ y, Decision (P y)} (l : list A) :
  filter P (f <$> l) = f <$> filter (λ x, P (f x)) l.
Proof.
  induction l as [|x l IH]; [done|].
  rewrite fmap_cons, !filter_cons.
  destruct (decide (P (f x))); by rewrite ?fmap_cons, IH.
Qed.

Lemma filter_ext_elem (P Q : A → Prop) `{!∀ x, Decision (P x), !∀ x, Decision (Q x)}
    (l : list A) :
  (∀ x, x ∈ l → P x ↔ Q x) → filter P l = filter Q l.
Proof.
  induction l as [|x l IH]; intros HPQ; [done|].
  rewrite !filter_cons.
  assert (P x ↔ Q x) as Hx by (apply HPQ; left).
  rewrite IH by (intros y Hy; apply HPQ; by right).
  destruct (decide (P x)), (decide (Q x)); tauto.
Qed.

Lemma filter_decorar (g : A → B) (P : B * A → Prop) `{!∀ p, Decision (P p)}
    (l : list A) :
  snd <$> filter P ((λ a, (g a, a)) <$> l) = filter (λ a, P (g a, a)) l.
Proof.
  induction l as [|x l IH]; [done|].
  rewrite fmap_cons, !filter_cons.
  destruct (decide (P (g x, x))); by rewrite ?fmap_cons, IH.
Qed.

Lemma StronglySorted_lookup_lt (R : relation A) (l : list A) i j x y :
  StronglySorted R l → i < j → l !! i = Some x → l !! j = Some y → R x y.
Proof.
  intros Hl. revert i j. induction Hl as [|z l Hl IH Hz]; intros i j Hij Hi Hj; [done|].
  destruct j as [|j]; [lia|]. simpl in Hj. destruct i as [|i]; simpl in Hi.
  - injection Hi as ->. rewrite Forall_forall in Hz. apply Hz.
    by eapply list_elem_of_lookup_2.
  - apply (IH i j); [lia|done|done].
Qed.
End listas.

Section teoremas.
Context {F : Type} `{!Pontuacao F, !Bibliotecas F}.
Implicit Types (σ : heap F) (a : loc) (d : dict F) (l artigos : list loc).

Lemma decorados_chave sims σ artigos (p : F * loc) :
  (∀ a, a ∈ artigos → is_Some (σ !! a)) →
  p ∈ sorted_reverse ((λ a, (relevancia_de (atribuir sims 0 σ artigos) a, a)) <$> artigos) →
  p.2 ∈ artigos ∧ chave (atribuir sims 0 σ artigos) p.2 = Ok p.1.
Proof.
  intros Hv Hp. rewrite sorted_reverse_perm in Hp.
  apply list_elem_of_fmap in Hp as (a & -> & Ha). simpl. split; [done|].
  destruct (chave_atribuir sims 0 σ artigos a (Hv a Ha) Ha) as [r Hr].
  by rewrite (chave_relevancia_de _ _ _ Hr).
Qed.

(** C3.  Whenever [calcular_relevancia] returns, the relevance values
    of the returned list are non-increasing from first to last, and for
    every value [r] the articles whose relevance equals [r] appear in
    the returned list in the order they have in the input list. *)
Theorem calcular_relevancia_ordena σ artigos termo idioma σ' ordenados :
  calcular_relevancia σ artigos termo idioma = (σ', Ok ordenados) →
  (∀ i j x y, i < j → ordenados !! i = Some x → ordenados !! j = Some y →
     ∃ rx ry, chave σ' x = Ok rx ∧ chave σ' y = Ok ry ∧ leb ry rx = true)
  ∧ (∀ r, filter (com_relevancia σ' r) ordenados
          = filter (com_relevancia σ' r) artigos).
Proof.
  unfold calcular_relevancia. intros (sims & Hs & -> & ->)%relevancia_com_inv.
  set (σ' := atribuir sims 0 σ artigos).
  set (D := (λ a, (relevancia_de σ' a, a)) <$> artigos).
  assert (∀ a, a ∈ artigos → is_Some (σ !! a)) as Hv
    by eauto using similaridades_de_vivos.
  assert (∀ p, p ∈ sorted_reverse D → p.2 ∈ artigos ∧ chave σ' p.2 = Ok p.1) as HD
    by (intros p; by apply decorados_chave).
  split.
  - intros i j x y Hij Hi Hj.
    apply list_lookup_fmap_Some in Hi as (p & -> & Hp).
    apply list_lookup_fmap_Some in Hj as (q & -> & Hq).
    exists p.1, q.1. split_and!.
    + apply HD. by eapply list_elem_of_lookup_2.
    + apply HD. by eapply list_elem_of_lookup_2.
    + apply (StronglySorted_lookup_lt antes (sorted_reverse D) i j p q);
        [apply sorted_reverse_strongly_sorted|done..].
  - intros r.
    assert (∀ p, p ∈ sorted_reverse D →
                 com_relevancia σ' r p.2 ↔ com_chave r p) as Heq.
    { intros p Hp. destruct (HD p Hp) as [_ Hc]. unfold com_relevancia, com_chave.
      rewrite Hc. split; [intros (k & [= <-] & ?); done|eauto]. }
    rewrite filter_fmap.
    rewrite (filter_ext_elem _ (com_chave r) (sorted_reverse D)) by done.
    rewrite sorted_reverse_estavel.
    rewrite <-(filter_ext_elem (λ p, com_relevancia σ' r p.2) (com_chave r) D).
    + rewrite <-(filter_fmap snd (com_relevancia σ' r) D). unfold D.
      rewrite <-list_fmap_compose. simpl. f_equal. apply list_fmap_id.
    + intros p Hp. apply Heq. by rewrite sorted_reverse_perm.
Qed.

Lemma atribuir_dom sims i σ l : dom (atribuir sims i σ l) = dom σ.
Proof.
  apply set_eq. intros a. rewrite !elem_of_dom.
  destruct (σ !! a) as [d|] eqn:Ha.
  - destruct (atribuir_Some sims i σ l a d Ha) as (d' & -> & _). by split; eauto.
  - rewrite (atribuir_None sims i σ l a Ha). done.
Qed.

(** C10.  Whenever [calcular_relevancia] returns, the returned list is a
    permutation of the references passed in, no record is created or
    removed, every record of the list has gained a numeric [relevancia]
    entry in the heap itself, every other entry of these records
    ([titulo], [resumo], [link]) is as before, and records outside the
    list are untouched. *)
Theorem calcular_relevancia_no_lugar σ artigos termo idioma σ' ordenados :
  calcular_relevancia σ artigos termo idioma = (σ', Ok ordenados) →
  ordenados ≡ₚ artigos
  ∧ dom σ' = dom σ
  ∧ (∀ a, a ∈ artigos →
       ∃ d d' r, σ !! a = Some d ∧ σ' !! a = Some d'
                 ∧ d' !! "relevancia" = Some (VNum r)
                 ∧ ∀ k, k ≠ "relevancia" → d' !! k = d !! k)
  ∧ (∀ a, a ∉ artigos → σ' !! a = σ !! a).
Proof.
  unfold calcular_relevancia. intros (sims & Hs & -> & ->)%relevancia_com_inv.
  split_and!.
  - rewrite sorted_reverse_perm, <-list_fmap_compose. simpl.
    by rewrite list_fmap_id.
  - apply atribuir_dom.
  - intros a Ha.
    destruct (similaridades_de_vivos _ _ _ _ _ a Hs Ha) as [d Hd].
    destruct (atribuir_Some sims 0 σ artigos a d Hd) as (d' & Hd' & Hframe & Hin & _).
    destruct (Hin Ha) as [r Hr]. by exists d, d', r.
  - intros a Ha. destruct (σ !! a) as [d|] eqn:Hd.
    + destruct (atribuir_Some sims 0 σ artigos a d Hd) as (d' & -> & _ & _ & Hout).
      by rewrite (Hout Ha).
    + by apply atribuir_None.
Qed.

(** Every article of a list returned by [calcular_relevancia] has a
    numeric relevance. *)
Lemma calcular_relevancia_chaves σ artigos termo idioma σ' ordenados :
  calcular_relevancia σ artigos termo idioma = (σ', Ok ordenados) →
  ∀ a, a ∈ ordenados → ∃ r, chave σ' a = Ok r.
Proof.
  unfold calcular_relevancia. intros (sims & Hs & -> & ->)%relevancia_com_inv a Ha.
  apply list_elem_of_fmap in Ha as (p & -> & Hp).
  exists p.1. apply (decorados_chave sims σ artigos p); [|done].
  eauto using similaridades_de_vivos.
Qed.

(** C6.  On a ranked list (every article has a numeric [relevancia]) the
    export filter returns, and keeps exactly the articles whose
    relevance is strictly greater than 0, in their order; an article
    whose relevance is at most 0, so in particular equal to 0, is
    dropped.  The threshold is the constant [zero]. *)
Theorem artigos_relevantes_limiar σ artigos_ordenados :
  (∀ a, a ∈ artigos_ordenados → ∃ r, chave σ a = Ok r) →
  ∃ relevantes,
    artigos_relevantes σ artigos_ordenados = Ok relevantes
    ∧ relevantes = filter (λ a, ltb zero (relevancia_de σ a) = true) artigos_ordenados
    ∧ (∀ a, a ∈ relevantes ↔
            a ∈ artigos_ordenados ∧ ∃ r, chave σ a = Ok r ∧ ltb zero r = true)
    ∧ (∀ a r, chave σ a = Ok r → leb r zero = true → a ∉ relevantes).
Proof.
  intros Hk.
  assert (mapM (chave σ) artigos_ordenados = Ok (relevancia_de σ <$> artigos_ordenados))
    as Hm.
  { apply mapM_Ok_total. intros a [r Hr]%Hk.
    by rewrite Hr, (chave_relevancia_de _ _ _ Hr). }
  eexists. split; [|split; [reflexivity|]].
  - unfold artigos_relevantes. rewrite Hm. simpl. rewrite (zip_chaves _ _ _ Hm).
    f_equal. by rewrite (filter_decorar (relevancia_de σ) (λ p, ltb zero p.1 = true)).
  - split.
    + intros a. rewrite list_elem_of_filter. split.
      * intros [Hr Ha]. split; [done|]. destruct (Hk a Ha) as [r Hc].
        exists r. split; [done|]. by rewrite <-(chave_relevancia_de _ _ _ Hc).
      * intros (Ha & r & Hc & Hr). by rewrite (chave_relevancia_de _ _ _ Hc).
    + intros a r Hc Hr [Hgt _]%list_elem_of_filter.
      rewrite (chave_relevancia_de _ _ _ Hc) in Hgt. unfold ltb in Hgt.
      by rewrite Hr in Hgt.
Qed.

(** C9.  For every language tag other than ["pt"], supported or not,
    [preprocessar_texto] parses with the English pipeline and
    [calcular_relevancia] passes the built-in English stop-word list to
    the vectoriser; for ["pt"] they use the Portuguese pipeline and the
    Portuguese stop-word table. *)
Theorem recursos_por_idioma texto σ artigos termo idioma :
  idioma ≠ str_of "pt" →
  preprocessar_texto texto idioma = tokens_uteis (nlp_en texto)
  ∧ calcular_relevancia σ artigos termo idioma
    = relevancia_com (Nome (str_of "english")) σ artigos termo
  ∧ preprocessar_texto texto (str_of "pt") = tokens_uteis (nlp_pt texto)
  ∧ calcular_relevancia σ artigos termo (str_of "pt")
    = relevancia_com (Lista stop_words_pt) σ artigos termo.
Proof.
  intros Hi. unfold preprocessar_texto, calcular_relevancia, stop_words_para.
  rewrite !(decide_False (P := idioma = _)) by done.
  rewrite !(decide_True (P := str_of "pt" = _)) by done. done.
Qed.
End teoremas.

Lemma mapM_result_app {A B} (f : A → result B) (l1 l2 : list A) k1 k2 :
  mapM f l1 = Ok k1 → mapM f l2 = Ok k2 → mapM f (l1 ++ l2) = Ok (k1 ++ k2).
Proof.
  rewrite !mapM_Ok. apply Forall2_app.
Qed.

Section vetorizacao.
Context {F : Type} `{!Pontuacao F, !Bibliotecas F}.
Implicit Types (σ : heap F) (a : loc) (d : dict F) (l artigos : list loc).

Lemma linha_de_vazio vocabulario : Forall (λ c, c = 0) (linha_de vocabulario []).
Proof. unfold linha_de. apply Forall_fmap, Forall_forall. done. Qed.

Lemma remove_dups_nil {A} `{EqDecision A} (l : list A) :
  remove_dups l = [] ↔ l = [].
Proof.
  split; [|by intros ->]. destruct l as [|x l]; [done|]. intros H.
  assert (x ∈ remove_dups (x :: l)) as Hx by (apply elem_of_remove_dups; left).
  rewrite H in Hx. by apply elem_of_nil in Hx.
Qed.

Lemma concat_nil {A} (ls : list (list A)) :
  concat ls = [] ↔ Forall (λ k, k = []) ls.
Proof.
  induction ls as [|k ls IH]; simpl; [by split; [constructor|]|].
  split.
  - intros [-> ?]%app_eq_nil. constructor; [done|by apply IH].
  - inversion 1; subst. simpl. by apply IH.
Qed.

Lemma linha_final_snoc n df rows q :
  linha_final {| n_documentos := n; frequencias := df; linhas := rows ++ [q] |}
  = Ok {| n_documentos := n; frequencias := df; linhas := [q] |}.
Proof. unfold linha_final. simpl. by rewrite last_snoc. Qed.

Lemma sem_linha_final_snoc n df rows q :
  sem_linha_final {| n_documentos := n; frequencias := df; linhas := rows ++ [q] |}
  = {| n_documentos := n; frequencias := df; linhas := rows |}.
Proof.
  unfold sem_linha_final. simpl. f_equal.
  rewrite length_app. simpl.
  replace (length rows + 1 - 1) with (length rows) by lia.
  apply take_app_length.
Qed.

Lemma cosine_similarity_linha n df q rows :
  flatten <$> cosine_similarity
    {| n_documentos := n; frequencias := df; linhas := [q] |}
    {| n_documentos := n; frequencias := df; linhas := rows |}
  = if decide (rows = []) then Raise (ValueError no_samples)
    else Ok (cosseno n df q <$> rows).
Proof.
  unfold cosine_similarity. simpl. destruct (decide (rows = [])) as [->|Hr].
  - by rewrite decide_True by auto.
  - rewrite decide_False by (by intros [|]). simpl. unfold flatten. simpl.
    by rewrite app_nil_r.
Qed.

(** [calcular_relevancia] up to [similaridades], in closed form: [ts] are
    the abstracts that are not the sentinel. *)
Lemma similaridades_de_forma sw σ artigos termo textos ts :
  textos_de σ artigos = Ok textos →
  mapM como_str textos = Ok ts →
  let tokens := build_analyzer sw <$> (ts ++ [termo]) in
  let vocabulario := remove_dups (concat tokens) in
  similaridades_de sw σ artigos termo =
    if decide (vocabulario = []) then Raise (ValueError empty_vocabulary)
    else if decide (ts = []) then Raise (ValueError no_samples)
    else Ok (cosseno (S (length ts))
               ((λ t, frequencia_documental t tokens) <$> vocabulario)
               (linha_de vocabulario (build_analyzer sw termo))
             <$> (linha_de vocabulario <$> (build_analyzer sw <$> ts))).
Proof.
  intros Hr Hts tokens vocabulario. unfold similaridades_de. rewrite Hr. simpl.
  unfold fit_transform.
  rewrite (mapM_result_app como_str _ [VStr termo] ts [termo] Hts eq_refl). simpl.
  fold tokens. fold vocabulario.
  destruct (decide (vocabulario = [])) as [|Hv]; [done|]. simpl.
  assert (linha_de vocabulario <$> tokens
          = (linha_de vocabulario <$> (build_analyzer sw <$> ts))
              ++ [linha_de vocabulario (build_analyzer sw termo)]) as ->.
  { unfold tokens. by rewrite !fmap_app. }
  rewrite linha_final_snoc. simpl. rewrite sem_linha_final_snoc.
  rewrite cosine_similarity_linha.
  rewrite length_app. simpl. replace (length ts + 1) with (S (length ts)) by lia.
  destruct (decide (ts = [])) as [->|Hts']; [done|].
  rewrite decide_False; [done|].
  intros H. apply fmap_nil_inv, fmap_nil_inv in H. done.
Qed.

Lemma vocabulario_vazio sw (docs : list str) :
  remove_dups (concat (build_analyzer sw <$> docs)) = []
  ↔ ∀ t, t ∈ docs → build_analyzer sw t = [].
Proof.
  rewrite remove_dups_nil, concat_nil, Forall_fmap, Forall_forall. done.
Qed.
End vetorizacao.

Section degenerados.
Context {F : Type} `{!Pontuacao F, !Bibliotecas F}.
Implicit Types (σ : heap F) (a : loc) (d : dict F) (artigos : list loc).

Lemma mapM_como_str_Ok (textos : list (value F)) (P : str → Prop) :
  Forall (λ v, ∃ t, v = VStr t ∧ P t) textos →
  ∃ ts, mapM como_str textos = Ok ts ∧ Forall P ts.
Proof.
  induction 1 as [|v textos (t & -> & Ht) _ (ts & Hts & HP)].
  - by exists [].
  - exists (t :: ts). simpl. rewrite Hts. split; [done|by constructor].
Qed.

(** C2, as the code has it.  When every abstract that is not the
    sentinel and the query are empty after stop-word removal, the
    vectoriser's [ValueError] leaves [calcular_relevancia]: no relevance
    is assigned and the heap is as before the call. *)
Theorem calcular_relevancia_vocabulario_vazio σ artigos termo idioma textos :
  textos_de σ artigos = Ok textos →
  Forall (λ v, ∃ t, v = VStr t ∧ build_analyzer (stop_words_para idioma) t = [])
    textos →
  build_analyzer (stop_words_para idioma) termo = [] →
  calcular_relevancia σ artigos termo idioma
  = (σ, Raise (ValueError empty_vocabulary)).
Proof.
  intros Ht Hv Hq. destruct (mapM_como_str_Ok _ _ Hv) as (ts & Hts & Hts').
  unfold calcular_relevancia. apply relevancia_com_Raise.
  rewrite (similaridades_de_forma _ _ _ _ _ _ Ht Hts).
  rewrite decide_True; [done|]. apply vocabulario_vazio.
  intros t [Hin| ->%list_elem_of_singleton]%elem_of_app; [|done].
  rewrite Forall_forall in Hts'. by apply Hts'.
Qed.

Lemma similaridade_ou_zero_nulas (sims : list F) i :
  Forall (λ s, s = zero) sims → similaridade_ou_zero sims i = zero.
Proof.
  intros Hs. unfold similaridade_ou_zero. case_decide; [|done].
  destruct (sims !! i) as [s|] eqn:Hi; [|done]. simpl.
  rewrite Forall_forall in Hs. apply Hs. by eapply list_elem_of_lookup_2.
Qed.

Lemma atribuir_nulas sims i σ artigos a :
  Forall (λ s, s = zero) sims → is_Some (σ !! a) → a ∈ artigos →
  chave (atribuir sims i σ artigos) a = Ok zero.
Proof.
  intros Hs. revert i σ. induction artigos as [|b artigos IH]; intros i σ [d Hd] Ha.
  - by apply elem_of_nil in Ha.
  - simpl. rewrite (similaridade_ou_zero_nulas _ _ Hs).
    destruct (decide (a ∈ artigos)) as [Hin|Hout].
    + apply IH; [|done]. unfold setitem. rewrite lookup_alter.
      case_decide; [subst; rewrite Hd|]; eauto.
    + apply elem_of_cons in Ha as [->|?]; [|done].
      destruct (atribuir_Some sims (S i) (setitem σ b "relevancia" (VNum zero))
                  artigos b (<["relevancia" := VNum zero]> d))
        as (d' & Hd' & _ & _ & Heq).
      { unfold setitem. rewrite lookup_alter, decide_True by done. by rewrite Hd. }
      unfold chave, getitem. rewrite Hd', (Heq Hout), lookup_insert_eq. done.
Qed.

(** C4, as the code has it.  On the empty list, and on any list without
    an abstract other than the sentinel, [calcular_relevancia] raises
    [ValueError] whatever the query.  When there is such an abstract and
    tokens survive on one side only (in the query, or in some abstract),
    it returns and every article has relevance 0. *)
Theorem calcular_relevancia_degenerada σ artigos termo idioma textos :
  textos_de σ artigos = Ok textos →
  (∃ msg, calcular_relevancia σ [] termo idioma = (σ, Raise (ValueError msg)))
  ∧ (textos = [] →
     ∃ msg, calcular_relevancia σ artigos termo idioma = (σ, Raise (ValueError msg)))
  ∧ (∀ ts, mapM como_str textos = Ok ts → ts ≠ [] →
       (build_analyzer (stop_words_para idioma) termo = []
        ∧ ∃ t, t ∈ ts ∧ build_analyzer (stop_words_para idioma) t ≠ [])
       ∨ (build_analyzer (stop_words_para idioma) termo ≠ []
          ∧ ∀ t, t ∈ ts → build_analyzer (stop_words_para idioma) t = []) →
       ∃ σ' ordenados,
         calcular_relevancia σ artigos termo idioma = (σ', Ok ordenados)
         ∧ ∀ a, a ∈ artigos → chave σ' a = Ok zero).
Proof.
  intros Ht.
  assert (∀ artigos', textos_de σ artigos' = Ok [] →
            ∃ msg, calcular_relevancia σ artigos' termo idioma
                   = (σ, Raise (ValueError msg))) as Hvazio.
  { intros artigos' Ht'. unfold calcular_relevancia.
    pose proof (similaridades_de_forma (stop_words_para idioma) σ artigos' termo
                  [] [] Ht' eq_refl) as Hs. simpl in Hs.
    case_decide.
    - exists empty_vocabulary. by apply relevancia_com_Raise.
    - exists no_samples. by apply relevancia_com_Raise. }
  split_and!.
  - by apply Hvazio.
  - intros ->. by apply Hvazio.
  - intros ts Hts Hne Hdeg. unfold calcular_relevancia.
    pose proof (similaridades_de_forma (stop_words_para idioma) σ artigos termo
                  textos ts Ht Hts) as Hs. simpl in Hs.
    rewrite decide_False in Hs; cycle 1.
    { rewrite vocabulario_vazio. intros Hall.
      destruct Hdeg as [(_ & t & Hin & Htok)|[Hq _]].
      - apply Htok, Hall, elem_of_app. by left.
      - apply Hq, Hall, elem_of_app. right. by apply list_elem_of_singleton. }
    rewrite decide_False in Hs by done.
    rewrite (relevancia_com_Ok _ _ _ _ _ Hs).
    eexists _, _. split; [done|]. intros a Ha.
    apply atribuir_nulas; [|by eapply similaridades_de_vivos|done].
    apply Forall_fmap, Forall_forall. intros x Hx. simpl.
    destruct Hdeg as [(Hq & _)|[_ Hall]].
    + apply cosseno_nulo_l. rewrite Hq. apply linha_de_vazio.
    + apply cosseno_nulo_r.
      apply list_elem_of_fmap in Hx as (toks & -> & Htoks).
      apply list_elem_of_fmap in Htoks as (t & -> & Hin).
      rewrite (Hall t Hin). apply linha_de_vazio.
Qed.

(** C1, at the failing shape.  Let [a1] have an abstract and receive
    relevance [s] when scored alone.  Scored after an article [a0] whose
    abstract is the sentinel, [a1] receives 0 and [a0] receives [s]: the
    similarities are indexed by position in the unfiltered list. *)
Theorem calcular_relevancia_desalinhada σ a0 a1 t termo idioma σ1 o1 s :
  a0 ≠ a1 →
  getitem σ a0 "resumo" = Ok (VStr resumo_nao_disponivel) →
  getitem σ a1 "resumo" = Ok (VStr t) →
  t ≠ resumo_nao_disponivel →
  calcular_relevancia σ [a1] termo idioma = (σ1, Ok o1) →
  chave σ1 a1 = Ok s →
  ∃ σ' o, calcular_relevancia σ [a0; a1] termo idioma = (σ', Ok o)
          ∧ chave σ' a0 = Ok s ∧ chave σ' a1 = Ok zero.
Proof.
  intros Hne H0 H1 Ht Hcalc Hs. unfold calcular_relevancia in *.
  apply relevancia_com_inv in Hcalc as (sims & Hsims & -> & _).
  assert (textos_de σ [a1] = Ok [VStr t]) as Ht1.
  { unfold textos_de. simpl. rewrite H1. simpl. rewrite filter_cons, decide_True; [done|].
    by intros [= ->]. }
  assert (textos_de σ [a0; a1] = Ok [VStr t]) as Ht01.
  { unfold textos_de. simpl. rewrite H0, H1. simpl.
    rewrite filter_cons, decide_False by (by intros []).
    rewrite filter_cons, decide_True; [done|]. by intros [= ->]. }
  pose proof (similaridades_de_forma (stop_words_para idioma) σ [a1] termo
                [VStr t] [t] Ht1 eq_refl) as Hf1.
  pose proof (similaridades_de_forma (stop_words_para idioma) σ [a0; a1] termo
                [VStr t] [t] Ht01 eq_refl) as Hf01.
  cbv zeta in Hf1, Hf01. rewrite <-Hf1, Hsims in Hf01.
  rewrite Hsims in Hf1.
  assert (length sims = 1) as Hlen.
  { repeat case_decide; try done. by injection Hf1 as ->. }
  apply getitem_Ok in H0 as (d0 & Hd0 & _), H1 as (d1 & Hd1 & _).
  rewrite (relevancia_com_Ok _ _ _ _ _ Hf01).
  eexists _, _. split; [done|].
  assert (NoDup [a0; a1]) as Hnd.
  { apply NoDup_cons. split; [by intros ?%list_elem_of_singleton|apply NoDup_singleton]. }
  unfold chave at 1 2, getitem.
  rewrite (atribuir_lookup sims 0 σ [a0; a1] 0 a0 d0 Hnd eq_refl Hd0).
  rewrite (atribuir_lookup sims 0 σ [a0; a1] 1 a1 d1 Hnd eq_refl Hd1).
  rewrite !lookup_insert_eq. simpl.
  unfold chave, getitem in Hs.
  rewrite (atribuir_lookup sims 0 σ [a1] 0 a1 d1 (NoDup_singleton _) eq_refl Hd1) in Hs.
  rewrite lookup_insert_eq in Hs. simpl in Hs. split; [done|].
  unfold similaridade_ou_zero. rewrite decide_False; [done|lia].
Qed.
End degenerados.

Section fatos_coleta.
Context {F : Type} `{!Internet F}.
Implicit Types (σ : heap F) (a : loc) (d : dict F) (artigos : list loc).

Lemma fatia_ate_length {A} (n : Z) (l : list A) :
  (0 ≤ n)%Z → length (fatia_ate n l) ≤ Z.to_nat n.
Proof.
  intros Hn. unfold fatia_ate.
  destruct (n <? 0)%Z eqn:Hneg; [lia|]. rewrite length_take. lia.
Qed.

Lemma registrado_mono σ σ' a : σ ⊆ σ' → registrado σ a → registrado σ' a.
Proof.
  intros Hsub (d & Hd & Hc). exists d. split; [|done].
  by eapply lookup_weaken.
Qed.

Lemma serpi_novo_artigo_campos (resultado : dict F) :
  tem_campos (SerpiAPI.novo_artigo resultado).
Proof.
  unfold tem_campos, SerpiAPI.novo_artigo.
  rewrite lookup_insert_eq, lookup_insert_ne, lookup_insert_eq by done.
  rewrite !lookup_insert_ne, lookup_insert_eq by done. eauto.
Qed.

Lemma bilingue_novo_artigo_campos (resultado : Publicacao F) :
  tem_campos (Bilingue.novo_artigo resultado).
Proof.
  unfold tem_campos, Bilingue.novo_artigo.
  rewrite lookup_insert_eq, lookup_insert_ne, lookup_insert_eq by done.
  rewrite !lookup_insert_ne, lookup_insert_eq by done. eauto.
Qed.

Lemma acrescentar_spec σ acc resultados σ' artigos :
  SerpiAPI.acrescentar σ acc resultados = (σ', artigos) →
  Forall (registrado σ) acc →
  σ ⊆ σ' ∧ length artigos = length acc + length resultados
  ∧ Forall (registrado σ') artigos.
Proof.
  revert σ acc. induction resultados as [|r rs IH]; intros σ acc; simpl.
  - intros [= <- <-] Hacc. split_and!; [done|lia|done].
  - set (a := fresh (dom σ)).
    assert (σ !! a = None) as Hfresh by apply not_elem_of_dom, is_fresh.
    intros Hrec Hacc.
    assert (σ ⊆ <[a := SerpiAPI.novo_artigo r]> σ) as Hsub by by apply insert_subseteq.
    apply IH in Hrec as (Hsub' & Hlen & Hall).
    + split_and!; [by trans (<[a := SerpiAPI.novo_artigo r]> σ)
                  |rewrite Hlen, length_app; simpl; lia|done].
    + apply Forall_app. split.
      * eapply Forall_impl; [done|]. intros b. by apply registrado_mono.
      * apply Forall_singleton. eexists. rewrite lookup_insert_eq.
        split; [done|apply serpi_novo_artigo_campos].
Qed.

Lemma percorrer_spec (max : Z) i σ acc g σ' artigos :
  Bilingue.percorrer max i σ acc g = (σ', Ok artigos) →
  Forall (registrado σ) acc → length acc = i → i ≤ Z.to_nat max →
  σ ⊆ σ' ∧ length artigos ≤ Z.to_nat max ∧ Forall (registrado σ') artigos.
Proof.
  revert i σ acc. induction g as [|r g IH|e]; intros i σ acc; simpl.
  - intros [= <- <-] Hacc Hlen Hi. split_and!; [done|lia|done].
  - destruct (Z.of_nat i >=? max)%Z eqn:Hge.
    + intros [= <- <-] Hacc Hlen Hi. split_and!; [done|lia|done].
    + set (a := fresh (dom σ)).
      assert (σ !! a = None) as Hfresh by apply not_elem_of_dom, is_fresh.
      intros Hrec Hacc Hlen Hi.
      assert (σ ⊆ <[a := Bilingue.novo_artigo r]> σ) as Hsub
        by by apply insert_subseteq.
      apply IH in Hrec as (Hsub' & Hlen' & Hall).
      * split_and!; [by trans (<[a := Bilingue.novo_artigo r]> σ)|done|done].
      * apply Forall_app. split.
        -- eapply Forall_impl; [done|]. intros b. by apply registrado_mono.
        -- apply Forall_singleton. eexists. rewrite lookup_insert_eq.
           split; [done|apply bilingue_novo_artigo_campos].
      * rewrite length_app. simpl. lia.
      * lia.
  - done.
Qed.

(** C5, as the code has it.  For a non-negative cap both variants of
    [coletar_artigos], when they return, return at most
    [max_resultados] references to records with the entries [titulo],
    [resumo] and [link]; the search-API variant returns the empty list on
    a response whose status is not 200; an exception of the remote call
    leaves either variant unchanged. *)
Theorem coletar_artigos_limite σ query (max_resultados : Z) api_key :
  (0 ≤ max_resultados)%Z →
  (∀ σ' artigos,
     SerpiAPI.coletar_artigos σ query max_resultados api_key = (σ', Ok artigos) →
     length artigos ≤ Z.to_nat max_resultados ∧ Forall (registrado σ') artigos)
  ∧ (∀ σ' artigos,
       Bilingue.coletar_artigos σ query max_resultados = (σ', Ok artigos) →
       length artigos ≤ Z.to_nat max_resultados ∧ Forall (registrado σ') artigos)
  ∧ (∀ params response,
       requests_get SerpiAPI.url params = Ok response →
       status_code response ≠ 200%Z →
       params = [("engine", inl (str_of "google_scholar")); ("q", inl query);
                 ("api_key", inl api_key); ("num", inr max_resultados)] →
       SerpiAPI.coletar_artigos σ query max_resultados api_key = (σ, Ok []))
  ∧ (∀ params e,
       requests_get SerpiAPI.url params = Raise e →
       params = [("engine", inl (str_of "google_scholar")); ("q", inl query);
                 ("api_key", inl api_key); ("num", inr max_resultados)] →
       SerpiAPI.coletar_artigos σ query max_resultados api_key = (σ, Raise e))
  ∧ (∀ e, search_pubs query = Raise e →
          Bilingue.coletar_artigos σ query max_resultados = (σ, Raise e)).
Proof.
  intros Hmax. split_and!.
  - intros σ' artigos. unfold SerpiAPI.coletar_artigos.
    destruct (requests_get _ _) as [response|e]; [|done].
    case_decide; [|intros [= <- <-]; split; [simpl; lia|constructor]].
    destruct (json response) as [corpo|e]; [|done].
    destruct (SerpiAPI.acrescentar _ _ _) as [σ1 arts] eqn:Hac.
    intros [= <- <-].
    apply acrescentar_spec in Hac as (_ & Hlen & Hall); [|constructor].
    split; [|done]. rewrite Hlen. simpl. by apply fatia_ate_length.
  - intros σ' artigos. unfold Bilingue.coletar_artigos.
    destruct (search_pubs query) as [g|e]; [|done].
    intros Hp. apply percorrer_spec in Hp as (_ & ? & ?); [done|constructor|done|lia].
  - intros params response Hget Hst ->. unfold SerpiAPI.coletar_artigos.
    rewrite Hget. by rewrite decide_False.
  - intros params e Hget ->. unfold SerpiAPI.coletar_artigos. by rewrite Hget.
  - intros e He. unfold Bilingue.coletar_artigos. by rewrite He.
Qed.
End fatos_coleta.

(** ** Facts about paths and directories *)

Section fatos_caminhos.
Implicit Types (p : str) (fs : Arquivos).

Lemma ate_ultima_barra_basename p : ate_ultima_barra p ++ os_path_basename p = p.
Proof.
  induction p as [|c p IH]; [done|]. simpl.
  destruct (decide (barra ∈ p)); [simpl; by rewrite IH|].
  by destruct (decide (c = barra)).
Qed.

Lemma rstrip_barras_prefix p : rstrip_barras p `prefix_of` p.
Proof.
  induction p as [|c p IH]; [done|]. simpl.
  case_decide; [apply prefix_nil|by apply prefix_cons].
Qed.

Lemma os_path_dirname_prefix p : os_path_dirname p `prefix_of` p.
Proof.
  unfold os_path_dirname. transitivity (ate_ultima_barra p).
  - case_decide; [done|apply rstrip_barras_prefix].
  - exists (os_path_basename p). by rewrite ate_ultima_barra_basename.
Qed.

Lemma os_path_dirname_length p :
  os_path_basename p ≠ [] → length (os_path_dirname p) < length p.
Proof.
  intros Hb. pose proof (ate_ultima_barra_basename p) as Hs.
  apply (f_equal length) in Hs. rewrite length_app in Hs.
  assert (length (os_path_dirname p) ≤ length (ate_ultima_barra p)).
  { unfold os_path_dirname. case_decide; [done|].
    apply prefix_length, rstrip_barras_prefix. }
  destruct (os_path_basename p); [done|]. simpl in Hs. lia.
Qed.

Lemma partes_sem_barra p : barra ∉ p → partes p = [p].
Proof.
  induction p as [|c p IH]; [done|]. intros Hp. simpl.
  rewrite decide_False by (intros ->; apply Hp; left).
  rewrite IH; [done|]. intros ?. apply Hp. by right.
Qed.

Lemma partes_com_barra p : barra ∈ p → ∃ x y ys, partes p = x :: y :: ys.
Proof.
  induction p as [|c p IH]; [by intros ?%elem_of_nil|]. intros Hp. simpl.
  destruct (decide (c = barra)) as [->|Hc].
  - destruct (decide (barra ∈ p)) as [Hin|Hout].
    + destruct (IH Hin) as (x & y & ys & ->). eauto.
    + rewrite partes_sem_barra by done. eauto.
  - apply elem_of_cons in Hp as [?|Hin]; [done|].
    destruct (IH Hin) as (x & y & ys & ->). eauto.
Qed.

Lemma partes_last p : last (partes p) = Some (os_path_basename p).
Proof.
  induction p as [|c p IH]; [done|]. simpl.
  destruct (decide (barra ∈ p)) as [Hin|Hout].
  - destruct (partes_com_barra p Hin) as (x & y & ys & Hp). rewrite Hp in *.
    by destruct (decide (c = barra)).
  - rewrite partes_sem_barra by done. by destruct (decide (c = barra)).
Qed.

Lemma canonico_basename p :
  canonico p = true → os_path_basename p ≠ [] ∧ os_path_basename p ≠ ponto.
Proof.
  unfold canonico. pose proof (partes_last p) as Hl. intros Hc.
  assert (nome (os_path_basename p) = true) as Hn; cycle 1.
  { apply bool_decide_eq_true in Hn. tauto. }
  destruct (partes p) as [|x [|y ys]] eqn:Hp; [done| |].
  - simpl in Hl. injection Hl as <-.
    assert (forallb nome [x] = true) as Hx by (by destruct x).
    simpl in Hx. by apply andb_true_iff in Hx as [? _].
  - assert (forallb nome (y :: ys) = true) as Hys.
    { destruct x; [done|]. change (forallb nome ((n :: x) :: y :: ys))
        with (nome (n :: x) && forallb nome (y :: ys)) in Hc.
      by apply andb_true_iff in Hc as [_ ?]. }
    change (last (x :: y :: ys)) with (last (y :: ys)) in Hl.
    rewrite forallb_forall in Hys. apply Hys, list_elem_of_In.
    by apply last_Some_elem_of.
Qed.

Lemma os_mkdir_Ok fs p fs1 :
  os_mkdir fs p = Ok fs1 →
  protegidos fs1 = protegidos fs ∧ arquivos fs1 = arquivos fs
  ∧ diretorios fs1 = {[p]} ∪ diretorios fs.
Proof.
  unfold os_mkdir. destruct (os_fsencode p); [|done].
  case_decide; [done|]. by intros [= <-].
Qed.

Lemma makedirs_S n fs name :
  makedirs (S n) fs name =
  if decide ((cabeca name).1 ≠ [] ∧ (cabeca name).2 ≠ []
             ∧ os_path_exists fs (cabeca name).1 = false) then
    match makedirs n fs (cabeca name).1 with
    | Raise e => Raise e
    | Ok fs1 => if decide ((cabeca name).2 = ponto) then Ok fs1 else os_mkdir fs1 name
    end
  else os_mkdir fs name.
Proof. simpl. by destruct (cabeca name). Qed.

Lemma makedirs_O fs name : makedirs 0 fs name = os_mkdir fs name.
Proof. simpl. by destruct (cabeca name). Qed.

Lemma cabeca_prefix name : (cabeca name).1 `prefix_of` name.
Proof.
  unfold cabeca, os_path_split. case_decide; simpl; [|apply os_path_dirname_prefix].
  etrans; apply os_path_dirname_prefix.
Qed.

Lemma cabeca_length name :
  (cabeca name).2 ≠ [] → length (cabeca name).1 < length name.
Proof.
  unfold cabeca, os_path_split. case_decide; simpl; [|apply os_path_dirname_length].
  intros Hb%os_path_dirname_length.
  pose proof (prefix_length _ _ (os_path_dirname_prefix name)). lia.
Qed.

(** The bound [length name] is enough: a larger one changes nothing. *)
Lemma makedirs_combustivel n m fs name :
  length name ≤ n → length name ≤ m → makedirs n fs name = makedirs m fs name.
Proof.
  revert m fs name. induction n as [|n IH]; intros m fs name Hn Hm.
  - destruct name; [|simpl in Hn; lia]. destruct m; [done|].
    rewrite makedirs_S, makedirs_O. by rewrite decide_False by (intros [? _]; done).
  - destruct m as [|m].
    + destruct name; [|simpl in Hm; lia].
      rewrite makedirs_S, makedirs_O. by rewrite decide_False by (intros [? _]; done).
    + rewrite !makedirs_S. case_decide as Hc; [|done].
      destruct Hc as (_ & Ht%cabeca_length & _).
      rewrite (IH m) by lia. done.
Qed.

(** [os.makedirs] creates directories only, each of them a prefix of
    [name] as a string, and keeps what exists. *)
Lemma makedirs_forma n fs name fs1 :
  makedirs n fs name = Ok fs1 →
  protegidos fs1 = protegidos fs ∧ arquivos fs1 = arquivos fs
  ∧ diretorios fs ⊆ diretorios fs1
  ∧ ∀ d, d ∈ diretorios fs1 → d ∈ diretorios fs ∨ d `prefix_of` name.
Proof.
  revert fs name fs1. induction n as [|n IH]; intros fs name fs1.
  - rewrite makedirs_O. intros (Hp & Ha & Hd)%os_mkdir_Ok.
    split_and!; [done|done|rewrite Hd; apply union_subseteq_r|].
    intros d. rewrite Hd. intros [->%elem_of_singleton|?]%elem_of_union; auto.
  - rewrite makedirs_S. case_decide as Hc; cycle 1.
    { intros (Hp & Ha & Hd)%os_mkdir_Ok.
      split_and!; [done|done|rewrite Hd; apply union_subseteq_r|].
      intros d. rewrite Hd. intros [->%elem_of_singleton|?]%elem_of_union; auto. }
    destruct (makedirs n fs (cabeca name).1) as [fs0|e] eqn:Hm; [|done].
    apply IH in Hm as (Hp0 & Ha0 & Hd0 & Hn0).
    assert (∀ d, d ∈ diretorios fs0 → d ∈ diretorios fs ∨ d `prefix_of` name) as Hn1.
    { intros d [?|Hd]%Hn0; [by left|right]. etrans; [done|apply cabeca_prefix]. }
    case_decide.
    + intros [= <-]. done.
    + intros (Hp & Ha & Hd)%os_mkdir_Ok.
      split_and!; [congruence|congruence| |].
      { rewrite Hd. etrans; [exact Hd0|apply union_subseteq_r]. }
      intros d. rewrite Hd. intros [->%elem_of_singleton|?]%elem_of_union; auto.
Qed.

(** Of a canonical path, [os.makedirs] creates the directory itself. *)
Lemma os_makedirs_canonico fs name fs1 :
  canonico name = true → os_makedirs fs name = Ok fs1 → name ∈ diretorios fs1.
Proof.
  intros [Hb Hp]%canonico_basename. unfold os_makedirs.
  assert (∀ fs0, os_mkdir fs0 name = Ok fs1 → name ∈ diretorios fs1) as Hmk.
  { intros fs0 (_ & _ & ->)%os_mkdir_Ok. by apply elem_of_union_l, elem_of_singleton. }
  destruct (length name) as [|n]; [rewrite makedirs_O; apply Hmk|].
  rewrite makedirs_S. unfold cabeca, os_path_split.
  rewrite (decide_False (P := _ = [])) by done.
  simpl. case_decide; [|apply Hmk].
  destruct (makedirs n fs _) as [fs0|e]; [|done].
  rewrite decide_False by done. apply Hmk.
Qed.

Lemma os_path_isdir_exists fs p : os_path_isdir fs p = true → os_path_exists fs p = true.
Proof.
  unfold os_path_isdir, os_path_exists. rewrite !bool_decide_eq_true. tauto.
Qed.

Lemma os_path_exists_diretorio fs p : p ∈ diretorios fs → os_path_exists fs p = true.
Proof. unfold os_path_exists. rewrite bool_decide_eq_true. tauto. Qed.


(** The directory step of [baixar_pdf]. *)
Lemma preparar_pasta fs pasta fs1 :
  (if os_path_exists fs pasta then Ok fs else os_makedirs fs pasta) = Ok fs1 →
  protegidos fs1 = protegidos fs ∧ arquivos fs1 = arquivos fs
  ∧ diretorios fs ⊆ diretorios fs1
  ∧ (∀ d, d ∈ diretorios fs1 → d ∈ diretorios fs ∨ d `prefix_of` pasta)
  ∧ (os_path_exists fs pasta = true → fs1 = fs)
  ∧ (canonico pasta = true → os_path_exists fs1 pasta = true).
Proof.
  destruct (os_path_exists fs pasta) eqn:He.
  - intros [= <-]. split_and!; auto.
  - intros Hm. pose proof Hm as (Hp & Ha & Hd & Hn)%makedirs_forma.
    split_and!; try done.
    intros Hc. by eapply os_path_exists_diretorio, os_makedirs_canonico.
Qed.

(** The directory [pdfs] is created in one step. *)
Lemma os_makedirs_pdfs fs : pdfs ∈ protegidos fs → os_makedirs fs pdfs = Raise OSError.
Proof.
  intros Hp. change (os_makedirs fs pdfs) with (os_mkdir fs pdfs).
  unfold os_mkdir. change (os_fsencode pdfs) with (Ok ()). by rewrite decide_True by auto.
Qed.

Lemma abrir_Ok vazio fs p fs' :
  abrir vazio fs p = Ok fs' →
  diretorios fs' = diretorios fs ∧ protegidos fs' = protegidos fs
  ∧ arquivos fs' = <[p := vazio]> (arquivos fs).
Proof.
  unfold abrir. destruct (os_fsencode p); [|done].
  case_decide; [done|]. by intros [= <-].
Qed.

End fatos_caminhos.

Section fatos_download.
Context {F : Type} `{!Pontuacao F, !Internet F}.
Implicit Types (fs : Arquivos) (artigo : dict F).

Lemma gravar_Ok fs p chunks fs' u :
  gravar fs p chunks = (fs', Ok u) →
  ∃ cs, chunks = Ok <$> cs
        ∧ arquivos fs' !! p = anexar (concat cs) <$> arquivos fs !! p
        ∧ diretorios fs' = diretorios fs.
Proof.
  revert fs. induction chunks as [|[c|e] chunks IH]; intros fs; simpl.
  - intros [= <- _]. exists []. simpl. split_and!; [done| |done].
    destruct (arquivos fs !! p) as [[b|t]|]; simpl; by rewrite ?app_nil_r.
  - intros (cs & -> & Hp & Hd)%IH. exists (c :: cs). split_and!; [done| |done].
    rewrite Hp. simpl. rewrite lookup_alter_eq.
    destruct (arquivos fs !! p) as [[b|t]|]; simpl; by rewrite <-?app_assoc.
  - done.
Qed.

Lemma gravar_preserva fs p chunks fs' r :
  gravar fs p chunks = (fs', r) →
  diretorios fs' = diretorios fs ∧ dom (arquivos fs') = dom (arquivos fs).
Proof.
  revert fs. induction chunks as [|[c|e] chunks IH]; intros fs; simpl.
  - by intros [= <- _].
  - intros [-> ->]%IH. simpl. split; [done|]. apply dom_alter_L.
  - by intros [= <- _].
Qed.

Lemma open_wb_Ok fs p fs' :
  open_wb fs p = Ok fs' →
  diretorios fs' = diretorios fs ∧ arquivos fs' = <[p := Binario []]> (arquivos fs).
Proof. by intros (? & _ & ?)%abrir_Ok. Qed.


(** What the [try] block does to the file system, and what a [return
    True] from it means. *)
Local Ltac resolver := try done; try (intros; simplify_eq; congruence).

Lemma tentar_baixar_spec fs artigo link pasta fs' r :
  tentar_baixar fs artigo link pasta = (fs', r) →
  diretorios fs ⊆ diretorios fs' ∧ dom (arquivos fs) ⊆ dom (arquivos fs')
  ∧ (∀ url e, link = VStr url → requests_get url [] = Raise e → r = Raise e)
  ∧ (∀ url response, link = VStr url → requests_get url [] = Ok response →
                     status_code response ≠ 200%Z → r = Ok false)
  ∧ (r = Ok true →
     ∃ url response titulo chunks,
       link = VStr url
       ∧ requests_get url [] = Ok response ∧ status_code response = 200%Z
       ∧ artigo !! "titulo" = Some (VStr titulo)
       ∧ iter_content response = Ok <$> chunks
       ∧ arquivos fs' !! os_path_join pasta (take 50 titulo ++ ponto_pdf)
         = Some (Binario (concat chunks))).
Proof.
  unfold tentar_baixar. destruct link as [url|x|]; simpl; try by intros [= <- <-].
  destruct (requests_get url []) as [response|e] eqn:Hreq; cycle 1.
  { intros [= <- <-]. split_and!; resolver. }
  case_decide as Hst; cycle 1.
  { intros [= <- <-]. split_and!; resolver. }
  destruct (artigo !! "titulo") as [[titulo|x|]|] eqn:Htit; simpl;
    try (intros [= <- <-]; split_and!; resolver).
  set (arquivo_pdf := os_path_join pasta (take 50 titulo ++ ponto_pdf)).
  destruct (open_wb fs arquivo_pdf) as [fs2|e] eqn:Hopen; cycle 1.
  { intros [= <- <-]. split_and!; resolver. }
  apply open_wb_Ok in Hopen as [Hd2 Ha2].
  destruct (gravar fs2 arquivo_pdf (iter_content response)) as [fs3 [u|e]] eqn:Hg;
    intros [= <- <-];
    destruct (gravar_preserva _ _ _ _ _ Hg) as [Hd3 Ha3].
  - split_and!.
    + by rewrite Hd3, Hd2.
    + rewrite Ha3, Ha2, dom_insert_L. apply union_subseteq_r.
    + resolver.
    + resolver.
    + intros _. apply gravar_Ok in Hg as (cs & Hcs & Hp3 & _).
      exists url, response, titulo, cs. split_and!; try done.
      fold arquivo_pdf. by rewrite Hp3, Ha2, lookup_insert_eq.
  - split_and!;
      [by rewrite Hd3, Hd2
      |rewrite Ha3, Ha2, dom_insert_L; apply union_subseteq_r
      |resolver..].
Qed.


End fatos_download.

(** ** Facts about the JSON text and the round trip *)

Section fatos_json.
Local Open Scope N_scope.

Lemma valor_hex_digito n : n < 16 → valor_hex (hex_digito n) = Some n.
Proof.
  intros Hn. destruct n as [|p]; [done|].
  do 4 (destruct p as [p|p|]; try done); lia.
Qed.

Lemma scanstring_escapar c s rest t fim :
  scanstring (s ++ rest) = Some (t, fim) →
  scanstring (escapar c ++ s ++ rest) = Some (c :: t, fim).
Proof.
  intros Hs. unfold escapar.
  destruct (c =? 34) eqn:H34; [apply N.eqb_eq in H34 as ->; simpl; by rewrite Hs|].
  destruct (c =? 92) eqn:H92; [apply N.eqb_eq in H92 as ->; simpl; by rewrite Hs|].
  destruct (c =? 10) eqn:H10; [apply N.eqb_eq in H10 as ->; simpl; by rewrite Hs|].
  destruct (c =? 13) eqn:H13; [apply N.eqb_eq in H13 as ->; simpl; by rewrite Hs|].
  destruct (c =? 9) eqn:H9; [apply N.eqb_eq in H9 as ->; simpl; by rewrite Hs|].
  destruct (c =? 8) eqn:H8; [apply N.eqb_eq in H8 as ->; simpl; by rewrite Hs|].
  destruct (c =? 12) eqn:H12; [apply N.eqb_eq in H12 as ->; simpl; by rewrite Hs|].
  destruct (c <? 32) eqn:Hctl.
  - apply N.ltb_lt in Hctl.
    change (scanstring ([92; 117; 48; 48; hex_digito (c / 16); hex_digito (c mod 16)]
                          ++ s ++ rest))
      with (v1 ← valor_hex 48; v2 ← valor_hex 48;
            v3 ← valor_hex (hex_digito (c / 16));
            v4 ← valor_hex (hex_digito (c mod 16));
            '(t, fim) ← scanstring (s ++ rest);
            Some ((((v1 * 16 + v2) * 16 + v3) * 16 + v4) :: t, fim)).
    rewrite !valor_hex_digito.
    + simpl. rewrite Hs. simpl. f_equal. f_equal.
      pose proof (N.div_mod c 16 ltac:(done)) as Hd. f_equal. lia.
    + apply N.Div0.div_lt_upper_bound. lia.
    + apply N.mod_lt. done.
  - simpl. rewrite H34, H92, Hctl, Hs. done.
Qed.

Lemma scanstring_encode s rest :
  scanstring (concat (escapar <$> s) ++ [aspas] ++ rest) = Some (s, rest).
Proof.
  induction s as [|c s IH]; [done|].
  rewrite fmap_cons. simpl concat. rewrite <-app_assoc.
  by apply scanstring_escapar.
Qed.

(** Characters that need no escape are written as they are; in
    particular every character outside ASCII. *)
Lemma escapar_literal c : 32 ≤ c → c ≠ 34 → c ≠ 92 → escapar c = [c].
Proof.
  intros Hc H34 H92. unfold escapar.
  repeat (destruct (c =? _) eqn:E; [apply N.eqb_eq in E; lia|clear E]).
  destruct (c <? 32) eqn:E; [apply N.ltb_lt in E; lia|done].
Qed.

Lemma string_de_str_of (k : string) : string_de (str_of k) = Some k.
Proof.
  unfold string_de, str_of.
  assert (forallb (λ c, c <? 256) (N_of_ascii <$> String.list_ascii_of_string k) = true)
    as ->.
  { apply forallb_forall. intros c (a & -> & _)%list_elem_of_In%list_elem_of_fmap.
    apply N.ltb_lt, N_ascii_bounded. }
  f_equal. rewrite <-list_fmap_compose.
  rewrite (list_fmap_ext _ id (String.list_ascii_of_string k)).
  - rewrite list_fmap_id. apply String.string_of_list_ascii_of_string.
  - intros i a _. apply ascii_N_embedding.
Qed.

Lemma numero_app n rest :
  Forall (λ c, numerico c = true) n → nao_numerico rest → numero (n ++ rest) = (n, rest).
Proof.
  intros Hn Hr. induction Hn as [|c n Hc _ IH]; simpl.
  - destruct rest as [|c r]; [done|]. simpl in *. by rewrite Hr.
  - by rewrite Hc, IH.
Qed.

Lemma espacos_app ws s :
  Forall (λ c, branco c = true) ws → espacos (ws ++ s) = espacos s.
Proof. induction 1 as [|c ws Hc _ IH]; simpl; [done|]. by rewrite Hc. Qed.

Lemma espacos_nao_branco s : nao_branco s → espacos s = s.
Proof. destruct s as [|c s]; simpl; [done|]. by intros ->. Qed.

Lemma numerico_nao_branco c : numerico c = true → branco c = false.
Proof.
  unfold numerico, branco. intros H.
  destruct (c =? 32) eqn:E1; [apply N.eqb_eq in E1 as ->; done|].
  destruct (c =? 10) eqn:E2; [apply N.eqb_eq in E2 as ->; done|].
  destruct (c =? 13) eqn:E3; [apply N.eqb_eq in E3 as ->; done|].
  destruct (c =? 9) eqn:E4; [apply N.eqb_eq in E4 as ->; done|]. done.
Qed.

(** [dict(pares)] of pairs with distinct keys. *)
Lemma pares_lookup {V} (pares : list (string * V)) (k : string) :
  NoDup pares.*1 →
  foldl (λ d kv, <[kv.1 := kv.2]> d) (∅ : gmap string V) pares !! k
  = (list_to_map pares : gmap string V) !! k.
Proof.
  induction pares as [|[k' v'] pares IH] using rev_ind; intros Hnd; [done|].
  rewrite foldl_app. simpl.
  rewrite fmap_app in Hnd. apply NoDup_app in Hnd as (Hnd & Hdisj & _).
  destruct (decide (k' = k)) as [->|Hk].
  - rewrite lookup_insert_eq. symmetry.
    apply elem_of_list_to_map_1'.
    + intros v Hin. apply elem_of_app in Hin as [Hin|Hin%list_elem_of_singleton].
      * exfalso. eapply (Hdisj k); [|simpl; left].
        apply list_elem_of_fmap. by exists (k, v).
      * by injection Hin.
    + apply elem_of_app. right. left.
  - rewrite lookup_insert_ne by done. rewrite IH by done.
    destruct (list_to_map pares !! k) as [v|] eqn:Hl.
    + symmetry. apply elem_of_list_to_map_1'.
      * intros v2 Hin. apply elem_of_app in Hin as [Hin|Hin%list_elem_of_singleton].
        -- apply elem_of_list_to_map_1 in Hin; [congruence|done].
        -- by injection Hin.
      * apply elem_of_app. left. by apply elem_of_list_to_map_2.
    + symmetry. apply not_elem_of_list_to_map_1.
      rewrite fmap_app. intros [Hin|Hin%list_elem_of_singleton]%elem_of_app; [|done].
      by apply not_elem_of_list_to_map_2 in Hl.
Qed.

Section json_fatos.
Context {F : Type} `{!Escrita F}.
Implicit Types (v : value F) (d : dict F) (ms pares : list (string * value F)).

Lemma repr_cons (x : F) :
  ∃ c cs, repr x = c :: cs ∧ numerico c = true
          ∧ Forall (λ c, numerico c = true) (c :: cs).
Proof.
  destruct (repr_numerico x) as [Hne Hall].
  destruct (repr x) as [|c cs]; [done|]. exists c, cs.
  split_and!; [done| |done]. by inversion Hall.
Qed.

Lemma dump_valor_nao_branco v s : nao_branco (dump_valor v ++ s).
Proof.
  destruct v as [t|x|]; try done. simpl.
  destruct (repr_cons x) as (c & cs & -> & Hc & _). simpl.
  by apply numerico_nao_branco.
Qed.

Lemma ler_valor_dump v rest :
  nao_numerico rest → ler_valor (dump_valor v ++ rest) = Some (v, rest).
Proof.
  intros Hr. destruct v as [t|x|].
  - simpl. rewrite <-app_assoc. rewrite scanstring_encode. done.
  - simpl. destruct (repr_cons x) as (c & cs & Hx & Hc & Hall).
    assert ((c =? 34) = false) as H34.
    { destruct (c =? 34) eqn:E; [apply N.eqb_eq in E as ->; done|done]. }
    assert ((c =? 110) = false) as H110.
    { destruct (c =? 110) eqn:E; [apply N.eqb_eq in E as ->; done|done]. }
    pose proof (numero_app _ _ Hall Hr) as Hnum.
    unfold ler_valor. rewrite Hx. cbn [app]. rewrite H34, H110.
    change (c :: cs ++ rest) with ((c :: cs) ++ rest).
    rewrite Hnum, <-Hx, float_de_repr. done.
  - done.
Qed.

Lemma ler_membros_espacos n ws s pares :
  Forall (λ c, branco c = true) ws →
  ler_membros n (ws ++ s) pares = ler_membros n s pares.
Proof. intros Hws. destruct n; simpl; [done|]. by rewrite espacos_app. Qed.

Lemma dump_membro_forma k v s :
  dump_membro (k, v) ++ s
  = 34 :: (concat (escapar <$> str_of k) ++ [aspas]
           ++ 58 :: 32 :: (dump_valor v ++ s)).
Proof.
  unfold dump_membro, encode_basestring. simpl.
  rewrite <-!app_assoc. done.
Qed.

Lemma ler_membros_um n kv s pares :
  nao_numerico s →
  ler_membros (S n) (dump_membro kv ++ s) pares =
  match espacos s with
  | c4 :: r5 =>
      if c4 =? 44 then ler_membros n r5 (pares ++ [kv])
      else if c4 =? 125 then Some (pares ++ [kv], r5)
      else None
  | [] => None
  end.
Proof.
  intros Hs. destruct kv as [k v]. rewrite dump_membro_forma.
  cbn [ler_membros].
  change (espacos (34 :: ?x)) with (34 :: x).
  cbn [N.eqb Pos.eqb negb]. rewrite scanstring_encode. cbn [mbind option_bind].
  rewrite string_de_str_of. cbn [mbind option_bind].
  change (espacos (58 :: 32 :: ?x)) with (58 :: 32 :: x).
  cbn [N.eqb Pos.eqb negb].
  change (espacos (32 :: ?x)) with (espacos x).
  rewrite (espacos_nao_branco _ (dump_valor_nao_branco v s)).
  rewrite (ler_valor_dump v s Hs). cbn [mbind option_bind]. done.
Qed.
Lemma ler_membros_juntar ms n pares rest :
  ms ≠ [] → (length ms ≤ n)%nat →
  ler_membros n (juntar sep_membros (dump_membro <$> ms) ++ fecho_objeto ++ rest) pares
  = Some (pares ++ ms, rest).
Proof.
  revert n pares. induction ms as [|m ms IH]; intros n pares Hne Hn; [done|].
  destruct n as [|n]; [simpl in Hn; lia|].
  destruct ms as [|m2 ms].
  - simpl juntar. rewrite ler_membros_um by done. done.
  - change (juntar sep_membros (dump_membro <$> m :: m2 :: ms))
      with (dump_membro m ++ sep_membros ++ juntar sep_membros (dump_membro <$> m2 :: ms)).
    rewrite <-!app_assoc. rewrite ler_membros_um by done.
    change (espacos (sep_membros ++ ?x)) with (44 :: (nl ++ ind8) ++ x).
    cbn [N.eqb Pos.eqb].
    rewrite ler_membros_espacos by (by repeat constructor).
    rewrite IH; [|done|simpl in *; lia].
    by rewrite <-app_assoc.
Qed.

Lemma dict_de_map_to_list d : dict_de (map_to_list d) = d.
Proof.
  apply map_eq. intros k. unfold dict_de.
  rewrite pares_lookup by apply NoDup_fst_map_to_list.
  by rewrite list_to_map_to_list.
Qed.
Lemma ler_objeto_espacos n ws s :
  Forall (λ c, branco c = true) ws → ler_objeto n (ws ++ s) = ler_objeto n s.
Proof. intros Hws. unfold ler_objeto. by rewrite espacos_app. Qed.

Lemma dump_objeto_forma d s :
  dump_objeto d ++ s = 123 :: 125 :: s ∧ d = ∅
  ∨ ∃ m ms, map_to_list d = m :: ms
            ∧ dump_objeto d ++ s
              = 123 :: (nl ++ ind8)
                  ++ (juntar sep_membros (dump_membro <$> m :: ms)
                      ++ fecho_objeto ++ s).
Proof.
  unfold dump_objeto. destruct (map_to_list d) as [|m ms] eqn:Hd.
  - left. split; [done|]. by apply map_to_list_empty_iff.
  - right. exists m, ms. split; [done|]. by rewrite <-!app_assoc.
Qed.

Lemma juntar_membros_aspas m ms s :
  ∃ t, juntar sep_membros (dump_membro <$> m :: ms) ++ s = 34 :: t.
Proof.
  destruct m as [k v]. destruct ms as [|m2 ms].
  - simpl juntar. rewrite dump_membro_forma. eauto.
  - change (juntar sep_membros (dump_membro <$> (k, v) :: m2 :: ms))
      with (dump_membro (k, v) ++ sep_membros
              ++ juntar sep_membros (dump_membro <$> m2 :: ms)).
    rewrite <-app_assoc, dump_membro_forma. eauto.
Qed.

Lemma ler_objeto_dump n d rest :
  (length (map_to_list d) ≤ n)%nat →
  ler_objeto n (dump_objeto d ++ rest) = Some (d, rest).
Proof.
  intros Hn. destruct (dump_objeto_forma d rest) as [[-> ->]|(m & ms & Hd & ->)]; [done|].
  rewrite Hd in Hn. unfold ler_objeto.
  change (espacos (123 :: ?x)) with (123 :: x).
  cbn [N.eqb Pos.eqb negb].
  rewrite espacos_app by (by repeat constructor).
  rewrite ler_membros_espacos by (by repeat constructor).
  rewrite ler_membros_juntar by done. cbn [mbind option_bind app].
  destruct (juntar_membros_aspas m ms (fecho_objeto ++ rest)) as [t ->].
  change (espacos (34 :: t)) with (34 :: t). cbn [N.eqb Pos.eqb].
  by rewrite <-Hd, dict_de_map_to_list.
Qed.

Lemma dump_objeto_chave d s : ∃ t, dump_objeto d ++ s = 123 :: t.
Proof.
  destruct (dump_objeto_forma d s) as [[-> ->]|(m & ms & Hd & ->)]; simpl; eauto.
Qed.

Lemma ler_objetos_juntar (ds : list (dict F)) m n acc rest :
  ds ≠ [] → (length ds ≤ n)%nat →
  Forall (λ d, (length (map_to_list d) ≤ m)%nat) ds →
  ler_objetos m n (juntar sep_objetos (dump_objeto <$> ds) ++ fecho_lista ++ rest) acc
  = Some (acc ++ ds, rest).
Proof.
  revert n acc. induction ds as [|d ds IH]; intros n acc Hne Hn Hm; [done|].
  destruct n as [|n]; [simpl in Hn; lia|].
  apply Forall_cons in Hm as [Hd Hm].
  destruct ds as [|d2 ds].
  - simpl juntar. cbn [ler_objetos]. rewrite ler_objeto_dump by done.
    cbn [mbind option_bind]. done.
  - change (juntar sep_objetos (dump_objeto <$> d :: d2 :: ds))
      with (dump_objeto d ++ sep_objetos ++ juntar sep_objetos (dump_objeto <$> d2 :: ds)).
    rewrite <-!app_assoc. cbn [ler_objetos]. rewrite ler_objeto_dump by done.
    cbn [mbind option_bind].
    change (espacos (sep_objetos ++ ?x)) with (44 :: (nl ++ ind4) ++ x).
    cbn [N.eqb Pos.eqb].
    destruct n as [|n]; [simpl in Hn; lia|]. cbn [ler_objetos].
    rewrite ler_objeto_espacos by (by repeat constructor).
    change (ler_objeto m ?x ≫= ?f) with (ler_objetos m (S n) x (acc ++ [d])).
    rewrite IH; [|done|simpl in *; lia|done].
    by rewrite <-app_assoc.
Qed.

Lemma juntar_length (sep : str) (ps : list str) :
  (sum_list (length <$> ps) ≤ length (juntar sep ps))%nat.
Proof.
  induction ps as [|p [|p2 ps] IH]; simpl in *; [lia|lia|].
  rewrite !length_app. lia.
Qed.

Lemma soma_comprimentos {A} (f : A → str) (g : A → nat) (l : list A) :
  (∀ x, 1 ≤ length (f x) ∧ g x ≤ length (f x))%nat →
  (length l ≤ sum_list (length <$> (f <$> l))
   ∧ Forall (λ x, g x ≤ sum_list (length <$> (f <$> l))) l)%nat.
Proof.
  intros Hf. induction l as [|x l [IH1 IH2]]; [split; [simpl; lia|done]|].
  destruct (Hf x) as [H1 H2]. rewrite !fmap_cons.
  change (sum_list (?a :: ?k)) with (a + sum_list k)%nat. cbn [length].
  split; [lia|]. constructor; [lia|].
  eapply Forall_impl; [done|]. simpl. intros; lia.
Qed.

Lemma dump_membro_length kv : (1 ≤ length (dump_membro kv))%nat.
Proof. destruct kv. unfold dump_membro, encode_basestring. simpl. lia. Qed.

Lemma dump_objeto_length d :
  (1 ≤ length (dump_objeto d) ∧ length (map_to_list d) ≤ length (dump_objeto d))%nat.
Proof.
  rewrite <-(app_nil_r (dump_objeto d)).
  destruct (dump_objeto_forma d []) as [[-> ->]|(m & ms & Hd & ->)].
  - rewrite map_to_list_empty. simpl. lia.
  - rewrite Hd. cbn [length]. rewrite !length_app.
    pose proof (juntar_length sep_membros (dump_membro <$> m :: ms)) as Hj.
    destruct (soma_comprimentos dump_membro (λ _, 0%nat) (m :: ms)) as [Hs _].
    { intros kv. pose proof (dump_membro_length kv). lia. }
    cbn [length] in *. lia.
Qed.

Lemma json_dumps_length (ds : list (dict F)) :
  (length ds ≤ length (json_dumps ds))%nat
  ∧ Forall (λ d, (length (map_to_list d) ≤ length (json_dumps ds))%nat) ds.
Proof.
  destruct ds as [|d ds]; [split; [simpl; lia|done]|].
  unfold json_dumps. cbn [length]. rewrite !length_app.
  pose proof (juntar_length sep_objetos (dump_objeto <$> d :: ds)) as Hj.
  destruct (soma_comprimentos dump_objeto (λ d, length (map_to_list d)) (d :: ds))
    as [H1 H2]; [apply dump_objeto_length|].
  cbn [length] in *.
  split; [lia|]. eapply Forall_impl; [done|]. cbn beta. intros; lia.
Qed.

(** Reading what [json_dumps] wrote gives back the same records. *)
Lemma json_loads_dumps (ds : list (dict F)) : json_loads (json_dumps ds) = Some ds.
Proof.
  destruct (json_dumps_length ds) as [Hn Hm].
  unfold json_loads, ler_lista.
  set (n := length (json_dumps ds)) in *.
  destruct ds as [|d ds]; [done|].
  unfold json_dumps.
  change (espacos ([91] ++ ?x)) with (91 :: x). cbn [N.eqb Pos.eqb negb].
  assert (ler_objetos n n (nl ++ ind4 ++ juntar sep_objetos (dump_objeto <$> d :: ds)
                             ++ fecho_lista) []
          = Some (d :: ds, [])) as ->.
  { destruct n as [|n']; [simpl in Hn; lia|]. cbn [ler_objetos].
    rewrite (app_assoc nl ind4), ler_objeto_espacos by (by repeat constructor).
    change (ler_objeto (S n') ?x ≫= ?f) with (ler_objetos (S n') (S n') x []).
    pose proof (ler_objetos_juntar (d :: ds) (S n') (S n') [] []) as H.
    rewrite app_nil_r in H. rewrite H; done. }
  rewrite (app_assoc nl ind4), espacos_app by (by repeat constructor).
  assert (∃ t, juntar sep_objetos (dump_objeto <$> d :: ds) ++ fecho_lista = 123 :: t)
    as [t ->].
  { destruct ds as [|d2 ds].
    - simpl juntar. apply dump_objeto_chave.
    - change (juntar sep_objetos (dump_objeto <$> d :: d2 :: ds))
        with (dump_objeto d ++ sep_objetos ++ juntar sep_objetos (dump_objeto <$> d2 :: ds)).
      rewrite <-app_assoc. apply dump_objeto_chave. }
  done.
Qed.
End json_fatos.

End fatos_json.

(** ** Facts about records with sequences *)

Section fatos_aninhado.
Local Open Scope N_scope.
Context {F : Type} `{!Escrita F}.
Implicit Types (o : objeto F) (itens : list (objeto F)) (d : gmap string (objeto F)).

(** Induction on a value, with the property of every item of a sequence
    at hand. *)
Lemma objeto_ind (P : objeto F → Prop) :
  (∀ s, P (OStr s)) → (∀ x, P (ONum x)) → P ONone →
  (∀ itens, Forall P itens → P (OLista itens)) →
  (∀ itens, Forall P itens → P (OTupla itens)) →
  ∀ o, P o.
Proof.
  intros Hs Hn H0 Hl Ht. fix IH 1.
  intros [s|x| |itens|itens]; [apply Hs|apply Hn|apply H0| |].
  - apply Hl. induction itens as [|o itens IHl]; constructor; [apply IH|apply IHl].
  - apply Ht. induction itens as [|o itens IHl]; constructor; [apply IH|apply IHl].
Qed.

Lemma como_lido_sem_tuplas o : sem_tuplas o = true → como_lido o = o.
Proof.
  induction o as [s|x| |itens IH|itens IH] using objeto_ind; try done.
  simpl. intros Hs. f_equal.
  induction IH as [|o itens Ho _ IHl]; [done|]. simpl in Hs.
  apply andb_true_iff in Hs as [H1 H2]. rewrite fmap_cons, Ho, IHl; done.
Qed.

(** The text of a value starts with a quote, the first character of a
    number, [n] or an opening bracket. *)
Lemma aninhado_dump_inicio nivel o s :
  ∃ c t, Aninhado.dump nivel o ++ s = c :: t
         ∧ branco c = false ∧ (c =? 93) = false.
Proof.
  destruct o as [t|x| |itens|itens]; simpl.
  - by eexists _, _.
  - destruct (repr_cons x) as (c & cs & -> & Hc & _). exists c, (cs ++ s).
    split_and!; [done|by apply numerico_nao_branco|].
    destruct (c =? 93) eqn:E; [apply N.eqb_eq in E as ->; done|done].
  - by eexists _, _.
  - destruct (Aninhado.dump (S nivel) <$> itens); by eexists _, _.
  - destruct (Aninhado.dump (S nivel) <$> itens); by eexists _, _.
Qed.

Lemma aninhado_dump_nao_branco nivel o s : nao_branco (Aninhado.dump nivel o ++ s).
Proof. by destruct (aninhado_dump_inicio nivel o s) as (c & t & -> & Hc & _). Qed.

Lemma aninhado_juntar_inicio sep nivel o itens s :
  ∃ c t, juntar sep (Aninhado.dump nivel <$> o :: itens) ++ s = c :: t
         ∧ branco c = false ∧ (c =? 93) = false.
Proof.
  destruct itens as [|o2 itens].
  - simpl juntar. apply aninhado_dump_inicio.
  - change (juntar sep (Aninhado.dump nivel <$> o :: o2 :: itens))
      with (Aninhado.dump nivel o ++ sep
              ++ juntar sep (Aninhado.dump nivel <$> o2 :: itens)).
    rewrite <-app_assoc. apply aninhado_dump_inicio.
Qed.

Lemma branco_nao_numerico c : branco c = true → numerico c = false.
Proof.
  intros Hb. destruct (numerico c) eqn:Hn; [|done].
  apply numerico_nao_branco in Hn. congruence.
Qed.

Lemma nao_numerico_fecho fecho rest :
  Forall (λ c, branco c = true) fecho → nao_numerico (fecho ++ [93] ++ rest).
Proof. destruct 1 as [|c fecho Hc _]; [done|]. simpl. by apply branco_nao_numerico. Qed.

Lemma ind_branco nivel : Forall (λ c, branco c = true) (Aninhado.ind nivel).
Proof. unfold Aninhado.ind. by apply Forall_replicate. Qed.

Lemma nl_ind_branco nivel : Forall (λ c, branco c = true) (nl ++ Aninhado.ind nivel).
Proof. apply Forall_app. split; [by repeat constructor|apply ind_branco]. Qed.

(** The items of an array, given that each of them reads back. *)
Lemma aninhado_ler_itens itens :
  Forall (λ o, ∀ nivel n rest, (custo o ≤ n)%nat → nao_numerico rest →
               Aninhado.ler n (Aninhado.dump nivel o ++ rest) = Some (como_lido o, rest))
    itens →
  itens ≠ [] →
  ∀ nivel n acc fecho rest,
    (sum_list (custo <$> itens) + length itens ≤ n)%nat →
    Forall (λ c, branco c = true) fecho →
    Aninhado.ler_itens n
      (juntar ([44] ++ nl ++ Aninhado.ind nivel) (Aninhado.dump nivel <$> itens)
         ++ fecho ++ [93] ++ rest) acc
    = Some (acc ++ (como_lido <$> itens), rest).
Proof.
  induction 1 as [|o itens Ho _ IH]; [done|]. intros _ nivel n acc fecho rest Hn Hf.
  destruct n as [|n]; [simpl in Hn; lia|].
  destruct itens as [|o2 itens]; simpl in Hn.
  - simpl juntar. cbn [Aninhado.ler_itens].
    rewrite Ho; [|lia|by apply nao_numerico_fecho].
    cbn [mbind option_bind]. rewrite espacos_app by done.
    change (espacos ([93] ++ rest)) with (93 :: rest). done.
  - change (juntar ?sep (Aninhado.dump nivel <$> o :: o2 :: itens))
      with (Aninhado.dump nivel o ++ sep
              ++ juntar sep (Aninhado.dump nivel <$> o2 :: itens)).
    rewrite <-!app_assoc. cbn [Aninhado.ler_itens].
    rewrite Ho; [|lia|done]. cbn [mbind option_bind].
    change (espacos ([44] ++ ?x)) with (44 :: x). cbn [N.eqb Pos.eqb].
    rewrite (app_assoc nl), espacos_app by apply nl_ind_branco.
    destruct (aninhado_juntar_inicio ([44] ++ nl ++ Aninhado.ind nivel) nivel o2 itens
                (fecho ++ [93] ++ rest)) as (c & t & Hj & Hc & _).
    rewrite espacos_nao_branco by (rewrite Hj; exact Hc).
    rewrite IH; [|done|simpl; lia|done].
    by rewrite <-app_assoc.
Qed.

(** An array. *)
Lemma aninhado_ler_lista itens nivel n rest :
  Forall (λ o, ∀ nivel n rest, (custo o ≤ n)%nat → nao_numerico rest →
               Aninhado.ler n (Aninhado.dump nivel o ++ rest) = Some (como_lido o, rest))
    itens →
  (S (sum_list (custo <$> itens) + length itens) ≤ n)%nat →
  Aninhado.ler n (Aninhado.escrever_lista nivel (Aninhado.dump (S nivel) <$> itens) ++ rest)
  = Some (OLista (como_lido <$> itens), rest).
Proof.
  intros HP Hn. destruct n as [|n]; [lia|].
  destruct itens as [|o itens]; [done|].
  unfold Aninhado.escrever_lista. rewrite fmap_cons.
  rewrite <-fmap_cons. rewrite <-!app_assoc.
  change (Aninhado.ler (S n) ([91] ++ ?x))
    with (match espacos x with
          | c' :: r' =>
              if c' =? 93 then Some (OLista [], r')
              else '(l, fim) ← Aninhado.ler_itens n (c' :: r') []; Some (OLista l, fim)
          | [] => None
          end).
  rewrite (app_assoc nl), espacos_app by apply nl_ind_branco.
  destruct (aninhado_juntar_inicio ([44] ++ nl ++ Aninhado.ind (S nivel)) (S nivel) o itens
              (nl ++ Aninhado.ind nivel ++ [93] ++ rest)) as (c & t & Hj & Hc & H93).
  rewrite espacos_nao_branco by (rewrite Hj; exact Hc).
  rewrite Hj, H93, <-Hj.
  rewrite (app_assoc nl (Aninhado.ind nivel)).
  rewrite aninhado_ler_itens; [done|done|done|lia|apply nl_ind_branco].
Qed.

(** Reading the text of a value gives the value, its tuples as lists. *)
Lemma aninhado_ler_dump o :
  ∀ nivel n rest, (custo o ≤ n)%nat → nao_numerico rest →
    Aninhado.ler n (Aninhado.dump nivel o ++ rest) = Some (como_lido o, rest).
Proof.
  induction o as [t|x| |itens IH|itens IH] using objeto_ind; intros nivel n rest Hn Hr.
  - destruct n as [|n]; [simpl in Hn; lia|].
    simpl. rewrite <-app_assoc. rewrite scanstring_encode. done.
  - destruct n as [|n]; [simpl in Hn; lia|].
    cbn [Aninhado.dump como_lido].
    destruct (repr_cons x) as (c & cs & Hx & Hc & Hall).
    assert ((c =? 34) = false) as H34.
    { destruct (c =? 34) eqn:E; [apply N.eqb_eq in E as ->; done|done]. }
    assert ((c =? 110) = false) as H110.
    { destruct (c =? 110) eqn:E; [apply N.eqb_eq in E as ->; done|done]. }
    assert ((c =? 91) = false) as H91.
    { destruct (c =? 91) eqn:E; [apply N.eqb_eq in E as ->; done|done]. }
    pose proof (numero_app _ _ Hall Hr) as Hnum.
    rewrite Hx. cbn [app Aninhado.ler]. rewrite H34, H110, H91.
    change (c :: cs ++ rest) with ((c :: cs) ++ rest).
    rewrite Hnum, <-Hx, float_de_repr. done.
  - destruct n as [|n]; [simpl in Hn; lia|]. done.
  - cbn [Aninhado.dump como_lido]. by apply aninhado_ler_lista.
  - cbn [Aninhado.dump como_lido]. by apply aninhado_ler_lista.
Qed.

(** The separators of [juntar] count: one character at least between two
    parts. *)
Lemma juntar_length_sep (sep : str) (ps : list str) :
  (1 ≤ length sep)%nat →
  (sum_list (length <$> ps) + length ps ≤ length (juntar sep ps) + 1)%nat.
Proof.
  intros Hs. induction ps as [|p [|p2 ps] IH]; simpl in *; [lia|lia|].
  rewrite !length_app. lia.
Qed.

(** The bound on the calls of the reader: the text of a value is at least
    as long as the value is large. *)
Lemma aninhado_custo_length o :
  ∀ nivel, (custo o ≤ length (Aninhado.dump nivel o))%nat.
Proof.
  assert (∀ itens nivel,
            Forall (λ o, ∀ nivel, (custo o ≤ length (Aninhado.dump nivel o))%nat) itens →
            (S (sum_list (custo <$> itens) + length itens)
             ≤ length (Aninhado.escrever_lista nivel (Aninhado.dump (S nivel) <$> itens)))%nat)
    as Hl.
  { intros itens nivel HP.
    assert (sum_list (custo <$> itens)
            ≤ sum_list (length <$> (Aninhado.dump (S nivel) <$> itens)))%nat as Hs.
    { induction HP as [|o1 l Ho _ IH]; [done|].
      rewrite !fmap_cons. specialize (Ho (S nivel)).
      change (sum_list (?a :: ?k)) with (a + sum_list k)%nat.
      change (sum_list (?a :: ?k)) with (a + sum_list k)%nat in IH. lia. }
    pose proof (juntar_length_sep ([44] ++ nl ++ Aninhado.ind (S nivel))
                  (Aninhado.dump (S nivel) <$> itens) ltac:(simpl; lia)) as Hj.
    rewrite length_fmap in Hj.
    destruct itens as [|o1 itens]; [simpl; lia|].
    change (Aninhado.escrever_lista nivel (Aninhado.dump (S nivel) <$> o1 :: itens))
      with ([91] ++ nl ++ Aninhado.ind (S nivel)
              ++ juntar ([44] ++ nl ++ Aninhado.ind (S nivel))
                   (Aninhado.dump (S nivel) <$> o1 :: itens)
              ++ nl ++ Aninhado.ind nivel ++ [93]).
    rewrite !length_app. cbn [length] in *. lia. }
  induction o as [t|x| |itens IH|itens IH] using objeto_ind; intros nivel.
  - unfold Aninhado.dump, encode_basestring. rewrite !length_app. simpl. lia.
  - cbn [Aninhado.dump custo]. destruct (repr_cons x) as (c & cs & -> & _). simpl. lia.
  - simpl. lia.
  - cbn [Aninhado.dump custo]. by apply Hl.
  - cbn [Aninhado.dump custo]. by apply Hl.
Qed.

Lemma aninhado_ler_membros_espacos m n ws s pares :
  Forall (λ c, branco c = true) ws →
  Aninhado.ler_membros (F := F) m n (ws ++ s) pares = Aninhado.ler_membros m n s pares.
Proof. intros Hws. destruct n; simpl; [done|]. by rewrite espacos_app. Qed.

Lemma aninhado_dump_membro_forma k o s :
  Aninhado.dump_membro (k, o) ++ s
  = 34 :: (concat (escapar <$> str_of k) ++ [aspas]
           ++ 58 :: 32 :: (Aninhado.dump 2 o ++ s)).
Proof.
  unfold Aninhado.dump_membro, encode_basestring. cbn [fst snd].
  rewrite <-!app_assoc. done.
Qed.

Lemma aninhado_ler_membros_um m n (kv : string * objeto F) s pares :
  (custo kv.2 ≤ m)%nat → nao_numerico s →
  Aninhado.ler_membros m (S n) (Aninhado.dump_membro kv ++ s) pares =
  match espacos s with
  | c4 :: r5 =>
      if c4 =? 44 then Aninhado.ler_membros m n r5 (pares ++ [(kv.1, como_lido kv.2)])
      else if c4 =? 125 then Some (pares ++ [(kv.1, como_lido kv.2)], r5)
      else None
  | [] => None
  end.
Proof.
  intros Hm Hs. destruct kv as [k o]. rewrite aninhado_dump_membro_forma.
  cbn [Aninhado.ler_membros fst snd].
  change (espacos (34 :: ?x)) with (34 :: x).
  cbn [N.eqb Pos.eqb negb]. rewrite scanstring_encode. cbn [mbind option_bind].
  rewrite string_de_str_of. cbn [mbind option_bind].
  change (espacos (58 :: 32 :: ?x)) with (58 :: 32 :: x).
  cbn [N.eqb Pos.eqb negb].
  change (espacos (32 :: ?x)) with (espacos x).
  rewrite (espacos_nao_branco _ (aninhado_dump_nao_branco 2 o s)).
  rewrite (aninhado_ler_dump o 2%nat m s Hm Hs). cbn [mbind option_bind]. done.
Qed.

Lemma aninhado_ler_membros_juntar (ms : list (string * objeto F)) m n pares rest :
  ms ≠ [] → (length ms ≤ n)%nat → Forall (λ kv, (custo kv.2 ≤ m)%nat) ms →
  Aninhado.ler_membros m n
    (juntar sep_membros (Aninhado.dump_membro <$> ms) ++ fecho_objeto ++ rest) pares
  = Some (pares ++ (prod_map id como_lido <$> ms), rest).
Proof.
  revert n pares. induction ms as [|kv ms IH]; intros n pares Hne Hn Hm; [done|].
  destruct n as [|n]; [simpl in Hn; lia|].
  apply Forall_cons in Hm as [Hkv Hm].
  destruct ms as [|kv2 ms].
  - simpl juntar. rewrite aninhado_ler_membros_um by done. by destruct kv.
  - change (juntar sep_membros (Aninhado.dump_membro <$> kv :: kv2 :: ms))
      with (Aninhado.dump_membro kv ++ sep_membros
              ++ juntar sep_membros (Aninhado.dump_membro <$> kv2 :: ms)).
    rewrite <-!app_assoc. rewrite aninhado_ler_membros_um by done.
    change (espacos (sep_membros ++ ?x)) with (44 :: (nl ++ ind8) ++ x).
    cbn [N.eqb Pos.eqb].
    rewrite aninhado_ler_membros_espacos by (by repeat constructor).
    rewrite IH; [|done|simpl in *; lia|done].
    rewrite <-app_assoc. by destruct kv.
Qed.

Lemma aninhado_dict_de d :
  Aninhado.dict_de (prod_map id como_lido <$> map_to_list d) = registro_lido d.
Proof.
  apply map_eq. intros k. unfold Aninhado.dict_de, registro_lido. rewrite pares_lookup.
  - by rewrite list_to_map_fmap, list_to_map_to_list.
  - rewrite <-list_fmap_compose.
    rewrite (list_fmap_ext _ fst (map_to_list d)) by (by intros i [??]).
    apply NoDup_fst_map_to_list.
Qed.

Lemma aninhado_ler_objeto_espacos n ws s :
  Forall (λ c, branco c = true) ws →
  Aninhado.ler_objeto (F := F) n (ws ++ s) = Aninhado.ler_objeto n s.
Proof. intros Hws. unfold Aninhado.ler_objeto. by rewrite espacos_app. Qed.

Lemma aninhado_dump_objeto_forma d s :
  Aninhado.dump_objeto d ++ s = 123 :: 125 :: s ∧ d = ∅
  ∨ ∃ kv ms, map_to_list d = kv :: ms
             ∧ Aninhado.dump_objeto d ++ s
               = 123 :: (nl ++ ind8)
                   ++ (juntar sep_membros (Aninhado.dump_membro <$> kv :: ms)
                       ++ fecho_objeto ++ s).
Proof.
  unfold Aninhado.dump_objeto. destruct (map_to_list d) as [|kv ms] eqn:Hd.
  - left. split; [done|]. by apply map_to_list_empty_iff.
  - right. exists kv, ms. split; [done|]. by rewrite <-!app_assoc.
Qed.

Lemma aninhado_juntar_membros_aspas (kv : string * objeto F) ms s :
  ∃ t, juntar sep_membros (Aninhado.dump_membro <$> kv :: ms) ++ s = 34 :: t.
Proof.
  destruct kv as [k o]. destruct ms as [|kv2 ms].
  - simpl juntar. rewrite aninhado_dump_membro_forma. eauto.
  - change (juntar sep_membros (Aninhado.dump_membro <$> (k, o) :: kv2 :: ms))
      with (Aninhado.dump_membro (k, o) ++ sep_membros
              ++ juntar sep_membros (Aninhado.dump_membro <$> kv2 :: ms)).
    rewrite <-app_assoc, aninhado_dump_membro_forma. eauto.
Qed.

Lemma aninhado_ler_objeto_dump n d rest :
  (length (map_to_list d) ≤ n)%nat →
  map_Forall (λ _ o, (custo o ≤ n)%nat) d →
  Aninhado.ler_objeto n (Aninhado.dump_objeto d ++ rest) = Some (registro_lido d, rest).
Proof.
  intros Hn Hm.
  destruct (aninhado_dump_objeto_forma d rest) as [[-> ->]|(kv & ms & Hd & ->)].
  { unfold registro_lido. by rewrite fmap_empty. }
  rewrite Hd in Hn. unfold Aninhado.ler_objeto.
  change (espacos (123 :: ?x)) with (123 :: x).
  cbn [N.eqb Pos.eqb negb].
  rewrite espacos_app by (by repeat constructor).
  rewrite aninhado_ler_membros_espacos by (by repeat constructor).
  rewrite aninhado_ler_membros_juntar; [|done|done|]; cycle 1.
  { rewrite <-Hd. apply Forall_forall. intros [k o] Hin%elem_of_map_to_list.
    by apply (Hm k o). }
  cbn [mbind option_bind app].
  destruct (aninhado_juntar_membros_aspas kv ms (fecho_objeto ++ rest)) as [t ->].
  change (espacos (34 :: t)) with (34 :: t). cbn [N.eqb Pos.eqb].
  by rewrite <-Hd, aninhado_dict_de.
Qed.

Lemma aninhado_dump_objeto_chave d s : ∃ t, Aninhado.dump_objeto d ++ s = 123 :: t.
Proof.
  destruct (aninhado_dump_objeto_forma d s) as [[-> ->]|(kv & ms & Hd & ->)];
    simpl; eauto.
Qed.

Lemma aninhado_ler_objetos_juntar (ds : list (gmap string (objeto F))) m n acc rest :
  ds ≠ [] → (length ds ≤ n)%nat →
  Forall (λ d, (length (map_to_list d) ≤ m)%nat
               ∧ map_Forall (λ _ o, (custo o ≤ m)%nat) d) ds →
  Aninhado.ler_objetos m n
    (juntar sep_objetos (Aninhado.dump_objeto <$> ds) ++ fecho_lista ++ rest) acc
  = Some (acc ++ (registro_lido <$> ds), rest).
Proof.
  revert n acc. induction ds as [|d ds IH]; intros n acc Hne Hn Hm; [done|].
  destruct n as [|n]; [simpl in Hn; lia|].
  apply Forall_cons in Hm as [[Hd1 Hd2] Hm].
  destruct ds as [|d2 ds].
  - simpl juntar. cbn [Aninhado.ler_objetos]. rewrite aninhado_ler_objeto_dump by done.
    cbn [mbind option_bind]. done.
  - change (juntar sep_objetos (Aninhado.dump_objeto <$> d :: d2 :: ds))
      with (Aninhado.dump_objeto d ++ sep_objetos
              ++ juntar sep_objetos (Aninhado.dump_objeto <$> d2 :: ds)).
    rewrite <-!app_assoc. cbn [Aninhado.ler_objetos].
    rewrite aninhado_ler_objeto_dump by done.
    cbn [mbind option_bind].
    change (espacos (sep_objetos ++ ?x)) with (44 :: (nl ++ ind4) ++ x).
    cbn [N.eqb Pos.eqb].
    destruct n as [|n]; [simpl in Hn; lia|]. cbn [Aninhado.ler_objetos].
    rewrite aninhado_ler_objeto_espacos by (by repeat constructor).
    change (Aninhado.ler_objeto m ?x ≫= ?f)
      with (Aninhado.ler_objetos m (S n) x (acc ++ [registro_lido d])).
    rewrite IH; [|done|simpl in *; lia|done].
    by rewrite <-app_assoc.
Qed.

Lemma aninhado_dump_membro_length (kv : string * objeto F) :
  (1 ≤ length (Aninhado.dump_membro kv)
   ∧ custo kv.2 ≤ length (Aninhado.dump_membro kv))%nat.
Proof.
  destruct kv as [k o]. unfold Aninhado.dump_membro, encode_basestring.
  cbn [fst snd]. rewrite !length_app.
  pose proof (aninhado_custo_length o 2). cbn [length]. lia.
Qed.

Lemma aninhado_dump_objeto_length d :
  (1 ≤ length (Aninhado.dump_objeto d)
   ∧ length (map_to_list d) ≤ length (Aninhado.dump_objeto d))%nat
  ∧ map_Forall (λ _ o, (custo o ≤ length (Aninhado.dump_objeto d))%nat) d.
Proof.
  rewrite <-(app_nil_r (Aninhado.dump_objeto d)).
  destruct (aninhado_dump_objeto_forma d []) as [[-> ->]|(kv & ms & Hd & ->)].
  - rewrite map_to_list_empty. split; [simpl; lia|]. apply map_Forall_empty.
  - pose proof (juntar_length sep_membros (Aninhado.dump_membro <$> kv :: ms)) as Hj.
    destruct (soma_comprimentos Aninhado.dump_membro (λ kv, custo kv.2) (kv :: ms))
      as [Hs1 Hs2]; [apply aninhado_dump_membro_length|].
    rewrite Hd. cbn [length]. rewrite !length_app. split; [cbn [length] in *; lia|].
    intros k o Hin%elem_of_map_to_list. rewrite Hd in Hin.
    rewrite Forall_forall in Hs2. specialize (Hs2 _ Hin). cbn [snd] in Hs2.
    cbn [length] in *. lia.
Qed.

Lemma aninhado_json_dumps_length (ds : list (gmap string (objeto F))) :
  (length ds ≤ length (Aninhado.json_dumps ds))%nat
  ∧ Forall (λ d, (length (map_to_list d) ≤ length (Aninhado.json_dumps ds))%nat
                 ∧ map_Forall (λ _ o, (custo o ≤ length (Aninhado.json_dumps ds))%nat) d)
      ds.
Proof.
  destruct ds as [|d ds]; [split; [simpl; lia|done]|].
  unfold Aninhado.json_dumps. cbn [length]. rewrite !length_app.
  pose proof (juntar_length sep_objetos (Aninhado.dump_objeto <$> d :: ds)) as Hj.
  destruct (soma_comprimentos Aninhado.dump_objeto
              (λ d, length (Aninhado.dump_objeto d)) (d :: ds)) as [H1 H2].
  { intros d'. destruct (aninhado_dump_objeto_length d') as [[? _] _]. lia. }
  cbn [length] in *.
  split; [lia|]. eapply Forall_impl; [done|]. cbn beta. intros d' Hd'.
  destruct (aninhado_dump_objeto_length d') as [[_ Hn] Hc]. split; [lia|].
  intros k o Hk. specialize (Hc k o Hk). cbn beta in Hc. lia.
Qed.

(** Reading what [json_dumps] wrote gives back the records, the tuples in
    them as lists. *)
Lemma aninhado_json_loads_dumps (ds : list (gmap string (objeto F))) :
  Aninhado.json_loads (Aninhado.json_dumps ds) = Some (registro_lido <$> ds).
Proof.
  destruct (aninhado_json_dumps_length ds) as [Hn Hm].
  unfold Aninhado.json_loads, Aninhado.ler_lista.
  set (n := length (Aninhado.json_dumps ds)) in *.
  destruct ds as [|d ds]; [done|].
  unfold Aninhado.json_dumps.
  change (espacos ([91] ++ ?x)) with (91 :: x). cbn [N.eqb Pos.eqb negb].
  assert (Aninhado.ler_objetos n n
            (nl ++ ind4 ++ juntar sep_objetos (Aninhado.dump_objeto <$> d :: ds)
               ++ fecho_lista) []
          = Some (registro_lido <$> d :: ds, [])) as ->.
  { destruct n as [|n']; [simpl in Hn; lia|]. cbn [Aninhado.ler_objetos].
    rewrite (app_assoc nl ind4), aninhado_ler_objeto_espacos by (by repeat constructor).
    change (Aninhado.ler_objeto (S n') ?x ≫= ?f)
      with (Aninhado.ler_objetos (S n') (S n') x []).
    pose proof (aninhado_ler_objetos_juntar (d :: ds) (S n') (S n') [] []) as H.
    rewrite app_nil_r in H. rewrite H; done. }
  rewrite (app_assoc nl ind4), espacos_app by (by repeat constructor).
  assert (∃ t, juntar sep_objetos (Aninhado.dump_objeto <$> d :: ds) ++ fecho_lista
               = 123 :: t) as [t ->].
  { destruct ds as [|d2 ds].
    - simpl juntar. apply aninhado_dump_objeto_chave.
    - change (juntar sep_objetos (Aninhado.dump_objeto <$> d :: d2 :: ds))
        with (Aninhado.dump_objeto d ++ sep_objetos
                ++ juntar sep_objetos (Aninhado.dump_objeto <$> d2 :: ds)).
      rewrite <-app_assoc. apply aninhado_dump_objeto_chave. }
  done.
Qed.
End fatos_aninhado.

Section fatos_persistencia.
Local Open Scope N_scope.
Context {F : Type} `{!Escrita F}.

(** On the records the scripts build, [Aninhado] writes the text that
    [json_dumps] writes, and [Aninhado.salvar_artigos] is
    [salvar_artigos]. *)
Lemma aninhado_dump_objeto_incluir (d : dict F) :
  Aninhado.dump_objeto (incluir_registro d) = dump_objeto d.
Proof.
  unfold Aninhado.dump_objeto, dump_objeto, incluir_registro.
  rewrite map_to_list_fmap. destruct (map_to_list d) as [|kv ms]; [done|].
  rewrite fmap_cons. cbn beta iota. rewrite <-fmap_cons, <-list_fmap_compose.
  rewrite (list_fmap_ext (Aninhado.dump_membro ∘ prod_map id incluir) dump_membro
             (kv :: ms)); [done|].
  intros i [k v] _. by destruct v.
Qed.

Lemma aninhado_json_dumps_incluir (ds : list (dict F)) :
  Aninhado.json_dumps (incluir_registro <$> ds) = json_dumps ds.
Proof.
  unfold Aninhado.json_dumps, json_dumps. destruct ds as [|d ds]; [done|].
  rewrite fmap_cons. cbn beta iota. rewrite <-fmap_cons, <-list_fmap_compose.
  rewrite (list_fmap_ext (Aninhado.dump_objeto ∘ incluir_registro) dump_objeto
             (d :: ds)); [done|].
  intros i d' _. apply aninhado_dump_objeto_incluir.
Qed.

Lemma salvar_artigos_aninhado fs (σ : heap F) artigos caminho :
  Aninhado.salvar_artigos fs (incluir_registro <$> σ) artigos caminho
  = salvar_artigos fs σ artigos caminho.
Proof.
  unfold Aninhado.salvar_artigos, salvar_artigos.
  destruct (open_w fs caminho) as [fs1|e]; [|done].
  assert (mapM (λ artigo, from_option Ok (Raise TypeError)
                            ((incluir_registro <$> σ) !! artigo)) artigos
          = match mapM (λ artigo, from_option Ok (Raise TypeError) (σ !! artigo)) artigos with
            | Ok ds => Ok (incluir_registro <$> ds)
            | Raise e => Raise e
            end) as ->.
  { induction artigos as [|a artigos IH]; [done|].
    change (mapM ?f (a :: artigos)) with (y ← f a; k ← mapM f artigos; mret (y :: k)).
    rewrite IH, lookup_fmap.
    change (mapM ?f (a :: artigos)) with (y ← f a; k ← mapM f artigos; mret (y :: k)).
    destruct (σ !! a) as [d|]; [|done]. simpl. clear IH.
    by destruct (mapM (λ artigo, from_option Ok (Raise TypeError) (σ !! artigo)) artigos). }
  destruct (mapM _ artigos) as [ds|e]; [|done].
  by rewrite aninhado_json_dumps_incluir.
Qed.

(** C8, as the code has it.  When [salvar_artigos] returns, the file at
    [caminho] holds the JSON text of the records of the list as they are
    in the store, and parsing that text back yields records with the same
    keys and the values that were written, except that a tuple comes back
    as a list: strings character for character, numbers as written (by
    the law [float_de_repr] of the number type, which is more than
    equality up to floating-point precision) and sequences item by item.
    Records without tuples come back as they were.  Characters outside
    ASCII are written unescaped. *)
Theorem salvar_artigos_ida_e_volta fs (σ : gmap loc (gmap string (objeto F)))
    artigos caminho fs' :
  Aninhado.salvar_artigos fs σ artigos caminho = (fs', Ok ()) →
  ∃ registros,
    Forall2 (λ artigo d, σ !! artigo = Some d) artigos registros
    ∧ arquivos fs' !! caminho = Some (Texto (Aninhado.json_dumps registros))
    ∧ Aninhado.carregar_artigos fs' caminho = Ok (registro_lido <$> registros)
    ∧ (Forall (map_Forall (λ _ o, sem_tuplas o = true)) registros →
       Aninhado.carregar_artigos fs' caminho = Ok registros)
    ∧ ∀ c, 128 ≤ c → escapar c = [c].
Proof.
  unfold Aninhado.salvar_artigos.
  destruct (open_w fs caminho) as [fs1|e] eqn:Ho; [|done].
  destruct (mapM _ artigos) as [registros|e] eqn:Hm; [|done].
  destruct (write_texto fs1 caminho _) as [fs2|e] eqn:Hw; [|done].
  intros [= <-]. exists registros.
  assert (arquivos fs2 !! caminho = Some (Texto (Aninhado.json_dumps registros))) as Hf.
  { apply abrir_Ok in Ho as (_ & _ & Ho).
    unfold write_texto in Hw. destruct (forallb _ _); [|done]. injection Hw as <-.
    simpl. by rewrite lookup_alter_eq, Ho, lookup_insert_eq. }
  assert (Aninhado.carregar_artigos fs2 caminho = Ok (registro_lido <$> registros)) as Hl.
  { unfold Aninhado.carregar_artigos. by rewrite Hf, aninhado_json_loads_dumps. }
  split_and!.
  - clear -Hm. revert registros Hm.
    induction artigos as [|a artigos IH]; intros registros; simpl.
    + intros [= <-]. constructor.
    + destruct (σ !! a) as [d|] eqn:Ha; [|done]. simpl.
      destruct (mapM _ artigos) as [ds|e]; [|done]. simpl. intros [= <-].
      constructor; [done|]. by apply IH.
  - done.
  - done.
  - intros Hs. rewrite Hl. f_equal. clear -Hs.
    induction Hs as [|d ds Hd _ IH]; [done|]. rewrite fmap_cons, IH. f_equal.
    apply map_eq. intros k. unfold registro_lido. rewrite lookup_fmap.
    destruct (d !! k) as [o|] eqn:Hk; [|done]. simpl. f_equal.
    apply como_lido_sem_tuplas. by apply (Hd k o).
  - intros c Hc. apply escapar_literal; lia.
Qed.
End fatos_persistencia.

(** ** Beyond the claims: errors, frames and the scripts *)

(** *** Exceptions of the scorer *)

Lemma mapM_Raise {A B} (f : A → result B) (l : list A) e :
  mapM f l = Raise e → ∃ x, x ∈ l ∧ f x = Raise e.
Proof.
  induction l as [|x l IH]; simpl; [done|].
  destruct (f x) as [y|e'] eqn:Hx; simpl.
  - destruct (mapM f l) as [k|e'']; simpl; [done|].
    intros [= ->]. destruct IH as (x' & ? & ?); [done|].
    exists x'. split; [by right|done].
  - intros [= ->]. exists x. split; [by left|done].
Qed.

Lemma mapM_Raise_app {A B} (f : A → result B) (l1 l2 : list A) e :
  mapM f l1 = Raise e → mapM f (l1 ++ l2) = Raise e.
Proof.
  induction l1 as [|x l1 IH]; simpl; [done|].
  destruct (f x) as [y|e']; simpl; [|done].
  destruct (mapM f l1) as [k|e'']; simpl; [done|].
  intros [= ->]. by rewrite IH.
Qed.

Section fatos_excecao.
Context {F : Type} `{!Pontuacao F, !Bibliotecas F}.

Lemma similaridades_de_Raise sw (σ : heap F) artigos termo e :
  similaridades_de sw σ artigos termo = Raise e →
  e = KeyError "resumo" ∨ e = TypeError ∨ e = AttributeError
  ∨ e = ValueError empty_vocabulary ∨ e = ValueError no_samples.
Proof.
  intros H. destruct (textos_de σ artigos) as [textos|e'] eqn:Ht.
  - destruct (mapM como_str textos) as [ts|e''] eqn:Hs.
    + pose proof (similaridades_de_forma sw σ artigos termo textos ts Ht Hs) as Hf.
      cbv zeta in Hf. rewrite Hf in H.
      repeat case_decide; simplify_eq; auto.
    + unfold similaridades_de in H. rewrite Ht in H. simpl in H.
      unfold fit_transform in H.
      rewrite (mapM_Raise_app _ _ [VStr termo] _ Hs) in H. simpl in H.
      injection H as <-. apply mapM_Raise in Hs as (v & _ & Hv).
      destruct v; simplify_eq/=; auto.
  - unfold similaridades_de in H. rewrite Ht in H. simpl in H. injection H as <-.
    unfold textos_de in Ht.
    destruct (mapM (λ a, getitem σ a "resumo") artigos) as [rs|e''] eqn:Hm;
      simplify_eq/=.
    apply mapM_Raise in Hm as (a & _ & Ha). unfold getitem in Ha.
    destruct (σ !! a) as [d|]; [|simplify_eq; auto].
    destruct (d !! "resumo"); simplify_eq; auto.
Qed.

(** X1.  [calcular_relevancia] changes nothing when it fails: if it raises,
    the heap is the one it was called on, so no record has received a
    [relevancia], and the exception is the [KeyError] of a record without
    [resumo], the [AttributeError] of an abstract that is not a string,
    one of the two [ValueError]s of the libraries (empty vocabulary, no
    sample), or the [TypeError] of a reference to no record. *)
Theorem calcular_relevancia_excecao_intacta (σ : heap F) artigos termo idioma σ' e :
  calcular_relevancia σ artigos termo idioma = (σ', Raise e) →
  σ' = σ
  ∧ (e = KeyError "resumo" ∨ e = TypeError ∨ e = AttributeError
     ∨ e = ValueError empty_vocabulary ∨ e = ValueError no_samples).
Proof.
  unfold calcular_relevancia, relevancia_com.
  destruct (similaridades_de _ σ artigos termo) as [sims|e'] eqn:Hs.
  - rewrite pontuar_e_ordenar_Ok; [done|].
    intros a Ha. by eapply similaridades_de_vivos.
  - intros [= <- <-]. split; [done|]. by eapply similaridades_de_Raise.
Qed.

Lemma resumos_sem_chave (σ : heap F) artigos :
  (∀ a, a ∈ artigos → is_Some (σ !! a)) →
  (∃ a d, a ∈ artigos ∧ σ !! a = Some d ∧ d !! "resumo" = None) →
  mapM (λ a, getitem σ a "resumo") artigos = Raise (KeyError "resumo").
Proof.
  induction artigos as [|x l IH]; intros Hv (a & d & Ha & Hd & Hk).
  - by apply elem_of_nil in Ha.
  - destruct (Hv x) as [dx Hx]; [by left|].
    change (mapM ?f (x :: l)) with (y ← f x; k ← mapM f l; mret (y :: k)).
    destruct (getitem σ x "resumo") as [v|e] eqn:Hg; simpl.
    + rewrite IH; [done| |].
      * intros b Hb. apply Hv. by right.
      * apply elem_of_cons in Ha as [->|Ha]; [|by eauto].
        unfold getitem in Hg. rewrite Hd, Hk in Hg. done.
    + unfold getitem in Hg. rewrite Hx in Hg.
      destruct (dx !! "resumo"); by simplify_eq.
Qed.

(** X2.  On a list of records of which one has no [resumo] entry,
    [calcular_relevancia] raises [KeyError('resumo')] and leaves the heap
    as it was, whatever the other records, the query and the language. *)
Theorem calcular_relevancia_sem_resumo (σ : heap F) artigos termo idioma :
  (∀ a, a ∈ artigos → is_Some (σ !! a)) →
  (∃ a d, a ∈ artigos ∧ σ !! a = Some d ∧ d !! "resumo" = None) →
  calcular_relevancia σ artigos termo idioma = (σ, Raise (KeyError "resumo")).
Proof.
  intros Hv Hk. unfold calcular_relevancia. apply relevancia_com_Raise.
  unfold similaridades_de, textos_de. by rewrite resumos_sem_chave.
Qed.
End fatos_excecao.

(** *** The assignment by position *)

Section fatos_alinhamento.
Context {F : Type} `{!Pontuacao F, !Bibliotecas F}.

Lemma mapM_como_str_length (textos : list (value F)) ts :
  mapM como_str textos = Ok ts → length ts = length textos.
Proof. intros H%mapM_Ok. symmetry. by eapply Forall2_length. Qed.

(** What a normal return of the similarity computation tells. *)
Lemma similaridades_de_Ok_inv sw (σ : heap F) artigos termo textos sims :
  textos_de σ artigos = Ok textos →
  similaridades_de sw σ artigos termo = Ok sims →
  ∃ ts, mapM como_str textos = Ok ts ∧ ts ≠ []
        ∧ remove_dups (concat (build_analyzer sw <$> (ts ++ [termo]))) ≠ []
        ∧ sims = cosseno (S (length ts))
                   ((λ t, frequencia_documental t (build_analyzer sw <$> (ts ++ [termo])))
                      <$> remove_dups (concat (build_analyzer sw <$> (ts ++ [termo]))))
                   (linha_de (remove_dups (concat (build_analyzer sw <$> (ts ++ [termo]))))
                      (build_analyzer sw termo))
                 <$> (linha_de (remove_dups (concat (build_analyzer sw <$> (ts ++ [termo]))))
                        <$> (build_analyzer sw <$> ts)).
Proof.
  intros Ht H. destruct (mapM como_str textos) as [ts|e] eqn:Hs.
  - pose proof (similaridades_de_forma sw σ artigos termo textos ts Ht Hs) as Hf.
    cbv zeta in Hf. rewrite Hf in H. exists ts.
    repeat case_decide; simplify_eq. done.
  - unfold similaridades_de in H. rewrite Ht in H. simpl in H.
    unfold fit_transform in H.
    by rewrite (mapM_Raise_app _ _ [VStr termo] _ Hs) in H.
Qed.

Lemma chave_atribuir_posicao sims (σ : heap F) artigos j a :
  NoDup artigos → artigos !! j = Some a → is_Some (σ !! a) →
  chave (atribuir sims 0 σ artigos) a = Ok (similaridade_ou_zero sims j).
Proof.
  intros Hnd Hj [d Hd]. unfold chave, getitem.
  rewrite (atribuir_lookup sims 0 σ artigos j a d Hnd Hj Hd).
  by rewrite lookup_insert_eq.
Qed.

(** X3.  The assignment loop goes by position.  When no record is listed
    twice and [calcular_relevancia] returns, there is one similarity for
    each abstract that is not the sentinel, the article at position [j]
    has received the similarity at position [j] of that filtered list, and
    the articles at the positions from its length on have received 0. *)
Theorem calcular_relevancia_por_posicao (σ : heap F) artigos termo idioma textos
    σ' ordenados :
  NoDup artigos →
  textos_de σ artigos = Ok textos →
  calcular_relevancia σ artigos termo idioma = (σ', Ok ordenados) →
  ∃ sims,
    similaridades_de (stop_words_para idioma) σ artigos termo = Ok sims
    ∧ length sims = length textos
    ∧ (∀ j a s, artigos !! j = Some a → sims !! j = Some s → chave σ' a = Ok s)
    ∧ (∀ j a, artigos !! j = Some a → length textos ≤ j → chave σ' a = Ok zero).
Proof.
  intros Hnd Ht H. apply relevancia_com_inv in H as (sims & Hs & -> & _).
  exists sims. split; [done|].
  destruct (similaridades_de_Ok_inv _ _ _ _ _ _ Ht Hs) as (ts & Hts & _ & _ & Hf).
  assert (length sims = length textos) as Hl.
  { rewrite Hf, !length_fmap. by apply mapM_como_str_length. }
  split; [done|]. split.
  - intros j a s Hj Hsj.
    rewrite (chave_atribuir_posicao sims σ artigos j a Hnd Hj).
    + unfold similaridade_ou_zero. apply lookup_lt_Some in Hsj as Hlt.
      rewrite decide_True by done. by rewrite Hsj.
    + eapply similaridades_de_vivos; [done|]. by eapply list_elem_of_lookup_2.
  - intros j a Hj Hle.
    rewrite (chave_atribuir_posicao sims σ artigos j a Hnd Hj).
    + unfold similaridade_ou_zero. rewrite decide_False by lia. done.
    + eapply similaridades_de_vivos; [done|]. by eapply list_elem_of_lookup_2.
Qed.

Lemma textos_de_sem_sentinela (σ : heap F) artigos ts :
  Forall2 (λ a t, getitem σ a "resumo" = Ok (VStr t) ∧ t ≠ resumo_nao_disponivel)
    artigos ts →
  textos_de σ artigos = Ok (VStr <$> ts).
Proof.
  intros H. unfold textos_de.
  assert (mapM (λ a, getitem σ a "resumo") artigos = Ok (VStr <$> ts)) as ->.
  { apply mapM_Ok. induction H as [|a t l k [Ha _] _ IH]; constructor; done. }
  simpl. f_equal. unfold mret, result_ret. f_equal.
  induction H as [|a t l k [_ Ht] _ IH]; [done|].
  rewrite fmap_cons, filter_cons_True by congruence. by rewrite IH.
Qed.

(** X4.  When no abstract is the sentinel and no record is listed twice,
    the positions agree: every article receives the cosine between the
    row of the query and the row of its own abstract, over the vocabulary
    and the document frequencies of the abstracts and the query. *)
Theorem calcular_relevancia_alinhada (σ : heap F) artigos termo idioma ts σ' ordenados :
  NoDup artigos →
  Forall2 (λ a t, getitem σ a "resumo" = Ok (VStr t) ∧ t ≠ resumo_nao_disponivel)
    artigos ts →
  calcular_relevancia σ artigos termo idioma = (σ', Ok ordenados) →
  let analisar := build_analyzer (stop_words_para idioma) in
  let tokens := analisar <$> (ts ++ [termo]) in
  let vocabulario := remove_dups (concat tokens) in
  ∀ j a t, artigos !! j = Some a → ts !! j = Some t →
    chave σ' a
    = Ok (cosseno (S (length ts))
            ((λ p, frequencia_documental p tokens) <$> vocabulario)
            (linha_de vocabulario (analisar termo))
            (linha_de vocabulario (analisar t))).
Proof.
  intros Hnd Hts H analisar tokens vocabulario j a t Hj Htj.
  pose proof (textos_de_sem_sentinela _ _ _ Hts) as Ht.
  apply relevancia_com_inv in H as (sims & Hs & -> & _).
  destruct (similaridades_de_Ok_inv _ _ _ _ _ _ Ht Hs) as (ts' & Hts' & _ & _ & Hf).
  assert (ts' = ts) as ->.
  { assert (mapM como_str (VStr (F:=F) <$> ts) = Ok ts) as Hm.
    { clear. induction ts as [|t ts IH]; [done|].
      rewrite fmap_cons. simpl. by rewrite IH. }
    congruence. }
  rewrite (chave_atribuir_posicao sims σ artigos j a Hnd Hj).
  - f_equal. unfold similaridade_ou_zero.
    assert (sims !! j = Some (cosseno (S (length ts))
            ((λ p, frequencia_documental p tokens) <$> vocabulario)
            (linha_de vocabulario (analisar termo))
            (linha_de vocabulario (analisar t)))) as Hsj.
    { rewrite Hf, !list_lookup_fmap, Htj. done. }
    apply lookup_lt_Some in Hsj as Hlt. rewrite decide_True by done.
    by rewrite Hsj.
  - eapply similaridades_de_vivos; [done|]. by eapply list_elem_of_lookup_2.
Qed.

(** X5.  When every record has a string as [resumo],
    [calcular_relevancia] returns exactly when some abstract is not the
    sentinel and the analyser keeps a token of one of those abstracts or of
    the query; otherwise it raises. *)
Theorem calcular_relevancia_retorna_sse (σ : heap F) artigos termo idioma textos ts :
  textos_de σ artigos = Ok textos →
  mapM como_str textos = Ok ts →
  (∃ σ' ordenados, calcular_relevancia σ artigos termo idioma = (σ', Ok ordenados))
  ↔ ts ≠ [] ∧ ∃ t, t ∈ ts ++ [termo] ∧ build_analyzer (stop_words_para idioma) t ≠ [].
Proof.
  intros Ht Hs. unfold calcular_relevancia.
  pose proof (similaridades_de_forma (stop_words_para idioma) σ artigos termo
                textos ts Ht Hs) as Hf. cbv zeta in Hf.
  pose proof (vocabulario_vazio (stop_words_para idioma) (ts ++ [termo])) as Hv.
  split.
  - intros (σ' & o & H). apply relevancia_com_inv in H as (sims & Hsims & _).
    rewrite Hf in Hsims. repeat case_decide; simplify_eq. split; [done|].
    destruct (decide (Forall (λ t, build_analyzer (stop_words_para idioma) t = [])
                        (ts ++ [termo]))) as [Hall|Hex].
    + exfalso. apply H. apply Hv. intros t Hin.
      by eapply (proj1 (Forall_forall _ _) Hall).
    + apply not_Forall_Exists in Hex; [|intros t; apply _].
      apply Exists_exists in Hex as (t & ? & ?). eauto.
  - intros (Hne & t & Hin & Htok).
    assert (remove_dups (concat (build_analyzer (stop_words_para idioma)
                                   <$> (ts ++ [termo]))) ≠ []) as Hvoc.
    { intros Hnil. apply Htok. by apply Hv. }
    rewrite decide_False, decide_False in Hf by done.
    rewrite (relevancia_com_Ok _ _ _ _ _ Hf). eauto.
Qed.
End fatos_alinhamento.

(** *** The export filter after the ranking *)

Section fatos_filtro.
Context {F : Type} `{!Pontuacao F, !Bibliotecas F}.

(** In a descending list the elements with a key above zero come first. *)
Lemma filter_prefixo {A} (l : list (F * A)) :
  StronglySorted antes l →
  ∃ resto, l = filter (λ p, ltb zero p.1 = true) l ++ resto
           ∧ Forall (λ p, leb p.1 zero = true) resto.
Proof.
  induction 1 as [|x l Hs IH Hx].
  - by exists [].
  - destruct IH as (resto & Hl & Hr).
    destruct (ltb zero x.1) eqn:Hz.
    + exists resto. rewrite filter_cons_True by done. simpl. by rewrite <-Hl.
    + assert (leb x.1 zero = true) as Hle.
      { unfold ltb in Hz. by apply negb_false_iff in Hz. }
      assert (Forall (λ p : F * A, leb p.1 zero = true) l) as Hall.
      { eapply Forall_impl; [exact Hx|]. intros y Hy. simpl.
        unfold antes in Hy. by eapply leb_trans. }
      exists (x :: l). rewrite filter_cons_False by (rewrite Hz; done).
      assert (filter (λ p : F * A, ltb zero p.1 = true) l = []) as ->.
      { clear -Hall. induction Hall as [|y l Hy _ IH]; [done|].
        rewrite filter_cons_False; [done|].
        unfold ltb. rewrite Hy. simpl. done. }
      split; [done|]. by constructor.
Qed.

Lemma artigos_relevantes_decorados (σ : heap F) ordenados :
  (∀ a, a ∈ ordenados → ∃ r, chave σ a = Ok r) →
  artigos_relevantes σ ordenados
  = Ok (snd <$> filter (λ p, ltb zero p.1 = true)
                  ((λ a, (relevancia_de σ a, a)) <$> ordenados)).
Proof.
  intros Hk. unfold artigos_relevantes.
  assert (mapM (chave σ) ordenados = Ok (relevancia_de σ <$> ordenados)) as Hm.
  { apply mapM_Ok_total. intros a Ha. destruct (Hk a Ha) as [r Hr].
    by rewrite (chave_relevancia_de _ _ _ Hr). }
  rewrite Hm. simpl. by rewrite (zip_chaves _ _ _ Hm).
Qed.

(** X6.  After [calcular_relevancia] the export filter does not raise and
    cuts the ranked list in two: the articles it keeps are an initial
    segment of the list, all with a relevance above zero, and the ones it
    drops are the rest, all with a relevance of at most zero. *)
Theorem artigos_relevantes_prefixo (σ : heap F) artigos termo idioma σ' ordenados :
  calcular_relevancia σ artigos termo idioma = (σ', Ok ordenados) →
  ∃ relevantes resto,
    artigos_relevantes σ' ordenados = Ok relevantes
    ∧ ordenados = relevantes ++ resto
    ∧ (∀ a, a ∈ relevantes → ∃ r, chave σ' a = Ok r ∧ ltb zero r = true)
    ∧ (∀ a, a ∈ resto → ∃ r, chave σ' a = Ok r ∧ leb r zero = true).
Proof.
  intros H. pose proof (calcular_relevancia_chaves _ _ _ _ _ _ H) as Hk.
  rewrite (artigos_relevantes_decorados _ _ Hk).
  apply relevancia_com_inv in H as (sims & Hs & Hσ & Ho).
  set (D := sorted_reverse ((λ a, (relevancia_de σ' a, a)) <$> artigos)) in *.
  assert ((λ a, (relevancia_de σ' a, a)) <$> ordenados = D) as HD.
  { rewrite Ho, <-list_fmap_compose.
    rewrite <-(list_fmap_id D) at 2. apply list_fmap_ext.
    intros i [r a] Hi. simpl.
    assert ((r, a) ∈ D) as Hin by (by eapply list_elem_of_lookup_2).
    unfold D in Hin. rewrite Hσ in Hin.
    apply decorados_chave in Hin as [_ Hc].
    - simpl in Hc. rewrite <-Hσ in Hc. by rewrite (chave_relevancia_de _ _ _ Hc).
    - intros b Hb. by eapply similaridades_de_vivos. }
  rewrite HD.
  destruct (filter_prefixo D) as (resto & HDl & Hr).
  { apply sorted_reverse_strongly_sorted. }
  exists (snd <$> filter (λ p, ltb zero p.1 = true) D), (snd <$> resto).
  split; [done|]. split.
  { rewrite <-fmap_app, <-HDl. done. }
  assert (∀ p, p ∈ D → chave σ' p.2 = Ok p.1) as HDk.
  { intros p Hp. unfold D in Hp. rewrite Hσ in Hp.
    apply decorados_chave in Hp as [_ Hc]; [by rewrite Hσ|].
    intros b Hb. by eapply similaridades_de_vivos. }
  split.
  - intros a (p & -> & Hp)%list_elem_of_fmap.
    apply list_elem_of_filter in Hp as [Hpos Hp]. exists p.1. split; [|done].
    by apply HDk.
  - intros a (p & -> & Hp)%list_elem_of_fmap. exists p.1. split.
    + apply HDk. rewrite HDl. apply elem_of_app. by right.
    + by eapply (proj1 (Forall_forall _ _) Hr).
Qed.

Lemma chaves_sem_relevancia (σ : heap F) l :
  (∀ a, a ∈ l → ∃ d, σ !! a = Some d
                     ∧ (d !! "relevancia" = None
                        ∨ ∃ r, d !! "relevancia" = Some (VNum r))) →
  (∃ a d, a ∈ l ∧ σ !! a = Some d ∧ d !! "relevancia" = None) →
  mapM (chave σ) l = Raise (KeyError "relevancia").
Proof.
  induction l as [|x l IH]; intros Hv (a & d & Ha & Hd & Hk).
  - by apply elem_of_nil in Ha.
  - change (mapM ?f (x :: l)) with (y ← f x; k ← mapM f l; mret (y :: k)).
    destruct (Hv x) as (dx & Hx & Hrx); [by left|].
    destruct (chave σ x) as [v|e] eqn:Hg; simpl.
    + rewrite IH; [done| |].
      * intros b Hb. apply Hv. by right.
      * apply elem_of_cons in Ha as [->|Ha]; [|by eauto].
        unfold chave, getitem in Hg. by rewrite Hd, Hk in Hg.
    + unfold chave, getitem in Hg. rewrite Hx in Hg.
      destruct Hrx as [Hn|[r Hr]]; [rewrite Hn in Hg|rewrite Hr in Hg];
        by simplify_eq/=.
Qed.

(** X7.  The export filter on a list that holds a record without
    [relevancia] (an article that was not scored) raises
    [KeyError('relevancia')], when the other records have a numeric one. *)
Theorem artigos_relevantes_sem_relevancia (σ : heap F) l :
  (∀ a, a ∈ l → ∃ d, σ !! a = Some d
                     ∧ (d !! "relevancia" = None
                        ∨ ∃ r, d !! "relevancia" = Some (VNum r))) →
  (∃ a d, a ∈ l ∧ σ !! a = Some d ∧ d !! "relevancia" = None) →
  artigos_relevantes σ l = Raise (KeyError "relevancia").
Proof.
  intros Hv Hk. unfold artigos_relevantes. by rewrite chaves_sem_relevancia.
Qed.
End fatos_filtro.

(** *** The records of a collection *)

Section fatos_registros.
Context {F : Type} `{!Internet F}.
Implicit Types (σ : heap F).

Lemma acrescidos_nil {A} (novo : A → dict F) σ : acrescidos novo σ σ [] [].
Proof.
  split; [constructor|]. split; [constructor|]. split; [|done].
  by intros a ?%elem_of_nil.
Qed.

Lemma acrescidos_cons {A} (novo : A → dict F) σ σ' novos r fontes :
  acrescidos novo (alocar σ (novo r)).1 σ' novos fontes →
  acrescidos novo σ σ' ((alocar σ (novo r)).2 :: novos) (r :: fontes).
Proof.
  unfold alocar. simpl. set (a := fresh (dom σ)).
  assert (σ !! a = None) as Ha by apply not_elem_of_dom, is_fresh.
  intros (Hf & Hnd & Hfr & Hout).
  assert (a ∉ novos) as Hnin.
  { intros Hin. apply Hfr in Hin. by rewrite lookup_insert_eq in Hin. }
  split; [|split; [|split]].
  - constructor; [|done]. rewrite Hout by done. by rewrite lookup_insert_eq.
  - by constructor.
  - intros b [->|Hb]%elem_of_cons; [done|].
    apply Hfr in Hb as Hb'. destruct (decide (b = a)) as [->|Hne]; [done|].
    by rewrite lookup_insert_ne in Hb'.
  - intros b Hb. apply not_elem_of_cons in Hb as [Hne Hb].
    rewrite Hout by done. by rewrite lookup_insert_ne.
Qed.

Lemma acrescentar_registros σ acc resultados :
  ∃ σ' novos,
    SerpiAPI.acrescentar σ acc resultados = (σ', acc ++ novos)
    ∧ acrescidos SerpiAPI.novo_artigo σ σ' novos resultados.
Proof.
  revert σ acc. induction resultados as [|r rs IH]; intros σ acc.
  - exists σ, []. rewrite app_nil_r. split; [done|]. apply acrescidos_nil.
  - simpl.
    destruct (IH (alocar σ (SerpiAPI.novo_artigo r)).1
                 (acc ++ [(alocar σ (SerpiAPI.novo_artigo r)).2]))
      as (σ' & novos & Heq & Hac).
    exists σ', ((alocar σ (SerpiAPI.novo_artigo r)).2 :: novos).
    split; [|by apply acrescidos_cons].
    unfold alocar in *. simpl in *. rewrite Heq. by rewrite <-app_assoc.
Qed.

Lemma percorrer_itens (max : Z) i σ acc ps fim :
  ∃ σ1 novos,
    acrescidos Bilingue.novo_artigo σ σ1 novos (take (Z.to_nat (max - Z.of_nat i)) ps)
    ∧ Bilingue.percorrer max i σ acc (foldr Item fim ps)
      = if decide (Z.to_nat (max - Z.of_nat i) < length ps)
        then (σ1, Ok (acc ++ novos))
        else Bilingue.percorrer max (i + length ps) σ1 (acc ++ novos) fim.
Proof.
  revert i σ acc. induction ps as [|p ps IH]; intros i σ acc.
  - exists σ, []. split; [rewrite take_nil; apply acrescidos_nil|].
    rewrite decide_False by (simpl; lia).
    by rewrite app_nil_r, Nat.add_0_r.
  - simpl. destruct (Z.of_nat i >=? max)%Z eqn:Hi.
    + exists σ, []. apply Z.geb_le in Hi.
      replace (Z.to_nat (max - Z.of_nat i)) with 0 by lia.
      split; [apply acrescidos_nil|].
      rewrite decide_True by lia. by rewrite app_nil_r.
    + rewrite Z.geb_leb in Hi. apply Z.leb_gt in Hi.
      destruct (IH (S i) (alocar σ (Bilingue.novo_artigo p)).1
                   (acc ++ [(alocar σ (Bilingue.novo_artigo p)).2]))
        as (σ1 & novos & Hac & Heq).
      exists σ1, ((alocar σ (Bilingue.novo_artigo p)).2 :: novos).
      replace (Z.to_nat (max - Z.of_nat i))
        with (S (Z.to_nat (max - Z.of_nat (S i)))) by lia.
      split; [by apply acrescidos_cons|].
      unfold alocar in *. simpl in *. rewrite Heq, <-app_assoc. simpl.
      replace (i + S (length ps)) with (S (i + length ps)) by lia.
      repeat case_decide; try done; lia.
Qed.

Lemma acrescidos_length {A} (novo : A → dict F) σ σ' novos (fontes : list A) :
  acrescidos novo σ σ' novos fontes → length novos = length fontes.
Proof. intros [H _]. by eapply Forall2_length. Qed.

(** X8.  [coletar_artigos] of [Filtro_SerpiAPI.py], on a response of status
    200 whose body is JSON: the list returned holds one new record for
    each of the first [max_resultados] entries of [organic_results] (none
    when the key is absent), in their order, built with the three fields
    and their defaults; the references are pairwise distinct and were not
    in use, and the heap is otherwise unchanged. *)
Theorem serpi_coletar_artigos_registros σ query (max_resultados : Z) api_key
    response corpo :
  requests_get SerpiAPI.url
    [("engine", inl (str_of "google_scholar")); ("q", inl query);
     ("api_key", inl api_key); ("num", inr max_resultados)] = Ok response →
  status_code response = 200%Z →
  json response = Ok corpo →
  ∃ σ' artigos,
    SerpiAPI.coletar_artigos σ query max_resultados api_key = (σ', Ok artigos)
    ∧ Forall2 (λ a r, σ' !! a = Some (SerpiAPI.novo_artigo r)) artigos
        (fatia_ate max_resultados (default [] (corpo !! "organic_results")))
    ∧ NoDup artigos
    ∧ (∀ a, a ∈ artigos → σ !! a = None)
    ∧ (∀ a, a ∉ artigos → σ' !! a = σ !! a).
Proof.
  intros Hreq Hst Hj. unfold SerpiAPI.coletar_artigos.
  rewrite Hreq, decide_True, Hj by done.
  destruct (acrescentar_registros σ []
              (fatia_ate max_resultados (default [] (corpo !! "organic_results"))))
    as (σ' & novos & Heq & Hac).
  rewrite Heq. simpl. exists σ', novos. split; [done|]. exact Hac.
Qed.

(** X9.  A negative [max_resultados] is not an empty result in
    [Filtro_SerpiAPI.py]: the slice [resultados[:max_resultados]] drops
    that many results from the end, so the call returns the number of
    results plus [max_resultados] articles, or none when that is negative. *)
Theorem serpi_coletar_artigos_limite_negativo σ query (max_resultados : Z) api_key
    response corpo :
  (max_resultados < 0)%Z →
  requests_get SerpiAPI.url
    [("engine", inl (str_of "google_scholar")); ("q", inl query);
     ("api_key", inl api_key); ("num", inr max_resultados)] = Ok response →
  status_code response = 200%Z →
  json response = Ok corpo →
  ∃ σ' artigos,
    SerpiAPI.coletar_artigos σ query max_resultados api_key = (σ', Ok artigos)
    ∧ Z.of_nat (length artigos)
      = (0 `max` (Z.of_nat (length (default [] (corpo !! "organic_results")))
                  + max_resultados))%Z.
Proof.
  intros Hneg Hreq Hst Hj. unfold SerpiAPI.coletar_artigos.
  rewrite Hreq, decide_True, Hj by done.
  destruct (acrescentar_registros σ []
              (fatia_ate max_resultados (default [] (corpo !! "organic_results"))))
    as (σ' & novos & Heq & Hac).
  rewrite Heq. simpl. exists σ', novos. split; [done|].
  rewrite (acrescidos_length _ _ _ _ _ Hac). unfold fatia_ate.
  rewrite (proj2 (Z.ltb_lt _ _) Hneg), length_take. lia.
Qed.

(** X10.  [coletar_artigos] of [Filtro_bilingue.py], on a search whose
    generator ends without failing: the list returned holds one new record
    for each of the first [max_resultados] publications, in their order;
    the references are pairwise distinct and were not in use, and the heap
    is otherwise unchanged.  For a cap of zero or less the list is empty. *)
Theorem bilingue_coletar_artigos_registros σ query (max_resultados : Z) ps :
  search_pubs query = Ok (foldr Item Fim ps) →
  ∃ σ' artigos,
    Bilingue.coletar_artigos σ query max_resultados = (σ', Ok artigos)
    ∧ Forall2 (λ a p, σ' !! a = Some (Bilingue.novo_artigo p)) artigos
        (take (Z.to_nat max_resultados) ps)
    ∧ NoDup artigos
    ∧ (∀ a, a ∈ artigos → σ !! a = None)
    ∧ (∀ a, a ∉ artigos → σ' !! a = σ !! a).
Proof.
  intros Hs. unfold Bilingue.coletar_artigos. rewrite Hs.
  destruct (percorrer_itens max_resultados 0 σ [] ps Fim) as (σ1 & novos & Hac & Heq).
  rewrite Heq. replace (max_resultados - Z.of_nat 0)%Z with max_resultados in * by lia.
  exists σ1, novos. split; [by case_decide|]. exact Hac.
Qed.

(** X11.  The loop of [Filtro_bilingue.py] asks the generator for the next
    publication before it tests the bound.  When the generator yields the
    publications [ps] and then fails, the call raises that failure if
    [ps] has at most [max_resultados] elements, also when it has exactly
    that many and the list is complete; it returns [max_resultados]
    articles if [ps] has more. *)
Theorem bilingue_coletar_artigos_falha_tardia σ query (max_resultados : Z) ps e :
  search_pubs query = Ok (foldr Item (Falha e) ps) →
  (length ps ≤ Z.to_nat max_resultados →
   (Bilingue.coletar_artigos σ query max_resultados).2 = Raise e)
  ∧ (Z.to_nat max_resultados < length ps →
     ∃ σ' artigos,
       Bilingue.coletar_artigos σ query max_resultados = (σ', Ok artigos)
       ∧ length artigos = Z.to_nat max_resultados).
Proof.
  intros Hs. unfold Bilingue.coletar_artigos. rewrite Hs.
  destruct (percorrer_itens max_resultados 0 σ [] ps (Falha e))
    as (σ1 & novos & Hac & Heq).
  rewrite Heq. replace (max_resultados - Z.of_nat 0)%Z with max_resultados in * by lia.
  split; intros Hl.
  - by rewrite decide_False by lia.
  - rewrite decide_True by done. exists σ1, novos. split; [done|].
    rewrite (acrescidos_length _ _ _ _ _ Hac), length_take. lia.
Qed.
End fatos_registros.

(** *** The files of a download *)

Section fatos_arquivos.
Context {F : Type} `{!Pontuacao F, !Internet F}.
Implicit Types (fs : Arquivos) (artigo : dict F).

(** Writing the chunks changes the file [p] only. *)
Lemma gravar_outros fs p chunks fs' r :
  gravar fs p chunks = (fs', r) →
  protegidos fs' = protegidos fs
  ∧ ∀ q, q ≠ p → arquivos fs' !! q = arquivos fs !! q.
Proof.
  revert fs. induction chunks as [|[c|e] chunks IH]; intros fs; simpl.
  - by intros [= <- _].
  - intros [-> Hq]%IH. simpl. split; [done|].
    intros q Hne. rewrite Hq by done. simpl. by rewrite lookup_alter_ne.
  - by intros [= <- _].
Qed.

(** The chunks received before a failure in transit stay in the file. *)
Lemma gravar_parcial fs p cs e resto :
  ∃ fs', gravar fs p ((Ok <$> cs) ++ Raise e :: resto) = (fs', Raise e)
         ∧ arquivos fs' !! p = anexar (concat cs) <$> arquivos fs !! p.
Proof.
  revert fs. induction cs as [|c cs IH]; intros fs; simpl.
  - exists fs. split; [done|].
    destruct (arquivos fs !! p) as [[b|t]|]; simpl; by rewrite ?app_nil_r.
  - destruct (IH (write fs p c)) as (fs' & Hg & Hp). exists fs'. split; [done|].
    rewrite Hp. simpl. rewrite lookup_alter_eq.
    destruct (arquivos fs !! p) as [[b|t]|]; simpl; by rewrite <-?app_assoc.
Qed.

Lemma tentar_baixar_outros fs artigo link pasta fs' r :
  tentar_baixar fs artigo link pasta = (fs', r) →
  protegidos fs' = protegidos fs
  ∧ diretorios fs' = diretorios fs
  ∧ (∀ p, ¬ alvo artigo pasta p → arquivos fs' !! p = arquivos fs !! p).
Proof.
  unfold tentar_baixar.
  destruct (como_str link ≫= λ url, requests_get url []) as [response|e];
    [|by intros [= <- <-]].
  case_decide as Hst; [|by intros [= <- <-]].
  destruct (artigo !! "titulo") as [[titulo|x|]|] eqn:Htit; simpl;
    try by intros [= <- <-].
  set (arquivo_pdf := os_path_join pasta (take 50 titulo ++ ponto_pdf)).
  destruct (open_wb fs arquivo_pdf) as [fs2|e] eqn:Hopen; [|by intros [= <- <-]].
  pose proof (abrir_Ok _ _ _ _ Hopen) as (_ & Hp2 & _).
  apply open_wb_Ok in Hopen as [Hd2 Ha2].
  destruct (gravar fs2 arquivo_pdf (iter_content response)) as [fs3 r3] eqn:Hg.
  destruct (gravar_preserva _ _ _ _ _ Hg) as [Hd3 _].
  destruct (gravar_outros _ _ _ _ _ Hg) as [Hp3 Ha3].
  intros H. assert (fs' = fs3) as -> by (destruct r3; by simplify_eq).
  split; [congruence|]. split; [congruence|].
  intros p Hp. assert (p ≠ arquivo_pdf) as Hne.
  { intros ->. apply Hp. by exists titulo. }
  rewrite Ha3, Ha2 by done. by rewrite lookup_insert_ne.
Qed.

Lemma tentar_baixar_sem_download fs artigo link pasta fs' r :
  tentar_baixar fs artigo link pasta = (fs', r) →
  sem_download artigo link →
  fs' = fs ∧ r ≠ Ok true.
Proof.
  unfold tentar_baixar, sem_download. intros H Hc.
  destruct link as [url|x|]; simpl in H; try by simplify_eq.
  destruct (requests_get url []) as [response|e] eqn:Hreq; [|by simplify_eq].
  case_decide as Hst; [|by simplify_eq].
  destruct (artigo !! "titulo") as [[titulo|x|]|] eqn:Htit; simpl in H;
    try by simplify_eq.
  exfalso. destruct Hc as [Hc|[(u & e & ? & ?)|[(u & resp & ? & ? & ?)|Hc]]].
  - by apply (Hc url).
  - simplify_eq. congruence.
  - simplify_eq. congruence.
  - by apply (Hc titulo).
Qed.

Lemma baixar_pdf_outros fs artigo pasta fs' r :
  baixar_pdf fs artigo pasta = (fs', r) →
  protegidos fs' = protegidos fs
  ∧ diretorios fs ⊆ diretorios fs'
  ∧ (∀ d, d ∈ diretorios fs' → d ∈ diretorios fs ∨ d `prefix_of` pasta)
  ∧ (os_path_exists fs pasta = true → diretorios fs' = diretorios fs)
  ∧ (∀ p, ¬ alvo artigo pasta p → arquivos fs' !! p = arquivos fs !! p).
Proof.
  unfold baixar_pdf.
  destruct (if os_path_exists fs pasta then Ok fs else os_makedirs fs pasta)
    as [fs1|e] eqn:H1; [|intros [= <- <-]; split_and!; auto].
  apply preparar_pasta in H1 as (Hp1 & Ha1 & Hd1 & Hn1 & He1 & _).
  destruct (truthy (get artigo "link" VNone)).
  - destruct (tentar_baixar fs1 artigo (get artigo "link" VNone) pasta)
      as [fs2 r2] eqn:Ht.
    apply tentar_baixar_outros in Ht as (Hp2 & Hd2 & Ha2).
    intros H. assert (fs' = fs2) as -> by (destruct r2 as [[|]|]; by simplify_eq).
    rewrite Hd2. split_and!; [congruence|done|done| |].
    + intros Hex. by rewrite (He1 Hex).
    + intros p Hp. by rewrite Ha2, Ha1.
  - intros [= <- <-]. split_and!; [done|done|done| |].
    + intros Hex. by rewrite (He1 Hex).
    + intros p _. by rewrite Ha1.
Qed.

(** X12.  [baixar_pdf], however it ends, writes to one file at most, the
    target [pasta_destino/titulo[:50].pdf].  With the destination
    directory and the target given as canonical paths, every other file
    holds what it held (no file at all changes when the title is not a
    string), no directory is removed, a directory that is added is
    [pasta_destino] or one that [os.makedirs] creates above it, whose path
    is an initial part of [pasta_destino], none is added when
    [pasta_destino] exists, and the protected paths are as before. *)
Theorem baixar_pdf_so_o_alvo fs artigo pasta_destino fs' r :
  baixar_pdf fs artigo pasta_destino = (fs', r) →
  canonico pasta_destino = true →
  (∀ titulo, artigo !! "titulo" = Some (VStr titulo) →
             canonico (os_path_join pasta_destino (take 50 titulo ++ ponto_pdf)) = true) →
  protegidos fs' = protegidos fs
  ∧ diretorios fs ⊆ diretorios fs'
  ∧ (∀ d, d ∈ diretorios fs' → d ∈ diretorios fs ∨ d `prefix_of` pasta_destino)
  ∧ (os_path_exists fs pasta_destino = true → diretorios fs' = diretorios fs)
  ∧ ∀ p, canonico p = true →
         (∀ titulo, artigo !! "titulo" = Some (VStr titulo) →
                    p ≠ os_path_join pasta_destino (take 50 titulo ++ ponto_pdf)) →
         arquivos fs' !! p = arquivos fs !! p.
Proof.
  intros (Hp & Hd & Hn & He & Ha)%baixar_pdf_outros _ _. split_and!; try done.
  intros p _ Hne. apply Ha. intros (titulo & Ht & ->). by eapply Hne.
Qed.

(** X13.  [baixar_pdf] opens no file before it has a response of status
    200 and a title that is a string: on a missing, empty or non-string
    link, on an exception of the request, on another status and on a
    missing or non-string title the files are exactly as before, and the
    result is not [True]. *)
Theorem baixar_pdf_sem_arquivo fs artigo pasta_destino fs' r :
  baixar_pdf fs artigo pasta_destino = (fs', r) →
  truthy (get artigo "link" VNone) = false
  ∨ (∀ url, artigo !! "link" ≠ Some (VStr url))
  ∨ (∃ url e, artigo !! "link" = Some (VStr url) ∧ requests_get url [] = Raise e)
  ∨ (∃ url response, artigo !! "link" = Some (VStr url)
                     ∧ requests_get url [] = Ok response
                     ∧ status_code response ≠ 200%Z)
  ∨ (∀ titulo, artigo !! "titulo" ≠ Some (VStr titulo)) →
  arquivos fs' = arquivos fs ∧ r ≠ Ok true.
Proof.
  unfold baixar_pdf.
  destruct (if os_path_exists fs pasta_destino then Ok fs
            else os_makedirs fs pasta_destino) as [fs1|e] eqn:H1;
    [|by intros [= <- <-]].
  apply preparar_pasta in H1 as (Hp1 & Ha1 & _).
  destruct (truthy (get artigo "link" VNone)) eqn:Hl; [|by intros [= <- <-]].
  destruct (tentar_baixar fs1 artigo (get artigo "link" VNone) pasta_destino)
    as [fs2 r2] eqn:Ht.
  intros H Hc.
  assert (sem_download artigo (get artigo "link" VNone)) as Hs.
  { unfold sem_download, get in *.
    destruct Hc as [?|[Hc|[(u & e & Hu & ?)|[(u & resp & Hu & ? & ?)|Hc]]]].
    - congruence.
    - left. intros url Hu. destruct (artigo !! "link") as [v|]; simplify_eq/=.
      by eapply Hc.
    - right; left. exists u, e. by rewrite Hu.
    - right; right; left. exists u, resp. by rewrite Hu.
    - by right; right; right. }
  destruct (tentar_baixar_sem_download _ _ _ _ _ _ Ht Hs) as [-> Hr].
  destruct r2 as [[|]|]; by simplify_eq.
Qed.

(** X14.  A failure in the middle of the transfer leaves a truncated
    file.  When the directory exists, the request answers 200, the file
    can be opened and the body fails after the chunks [cs], [baixar_pdf]
    returns [False] and the target file holds the concatenation of [cs]. *)
Theorem baixar_pdf_parcial fs artigo pasta_destino url response titulo fs0 cs e resto :
  os_path_exists fs pasta_destino = true →
  artigo !! "link" = Some (VStr url) → url ≠ [] →
  requests_get url [] = Ok response →
  status_code response = 200%Z →
  artigo !! "titulo" = Some (VStr titulo) →
  open_wb fs (os_path_join pasta_destino (take 50 titulo ++ ponto_pdf)) = Ok fs0 →
  iter_content response = (Ok <$> cs) ++ Raise e :: resto →
  ∃ fs', baixar_pdf fs artigo pasta_destino = (fs', Ok false)
         ∧ arquivos fs' !! os_path_join pasta_destino (take 50 titulo ++ ponto_pdf)
           = Some (Binario (concat cs)).
Proof.
  intros Hex Hl Hu Hreq Hst Ht Hopen Hit. unfold baixar_pdf, get.
  rewrite Hex, Hl. simpl. rewrite bool_decide_eq_true_2 by done.
  unfold tentar_baixar. simpl. rewrite Hreq, decide_True, Ht by done. simpl.
  rewrite Hopen, Hit.
  destruct (gravar_parcial fs0 (os_path_join pasta_destino (take 50 titulo ++ ponto_pdf))
              cs e resto) as (fs' & Hg & Hp).
  rewrite Hg. exists fs'. split; [done|]. rewrite Hp.
  apply open_wb_Ok in Hopen as [_ ->]. by rewrite lookup_insert_eq.
Qed.

(** X15.  A title that starts with a slash takes the download out of the
    destination directory: when [baixar_pdf] returns [True] for such an
    article, the chunks of the response to its link, concatenated, are
    the content of the file at the absolute path [titulo[:50].pdf],
    whatever [pasta_destino] is. *)
Theorem baixar_pdf_titulo_absoluto fs artigo pasta_destino fs' t :
  baixar_pdf fs artigo pasta_destino = (fs', Ok true) →
  artigo !! "titulo" = Some (VStr (barra :: t)) →
  ∃ url response chunks,
    artigo !! "link" = Some (VStr url)
    ∧ requests_get url [] = Ok response
    ∧ iter_content response = Ok <$> chunks
    ∧ arquivos fs' !! (barra :: take 49 t ++ ponto_pdf)
      = Some (Binario (concat chunks)).
Proof.
  unfold baixar_pdf.
  destruct (if os_path_exists fs pasta_destino then Ok fs
            else os_makedirs fs pasta_destino) as [fs1|e]; [|done].
  destruct (truthy (get artigo "link" VNone)); [|done].
  destruct (tentar_baixar fs1 artigo (get artigo "link" VNone) pasta_destino)
    as [fs2 r2] eqn:Ht.
  apply tentar_baixar_spec in Ht as (_ & _ & _ & _ & Htrue).
  destruct r2 as [[|]|]; intros [= <-]; intros Ha.
  destruct (Htrue eq_refl) as (url & resp & titulo & cs & Hl & Hreq & _ & Ht & Hit & Hf).
  rewrite Ha in Ht. injection Ht as <-. exists url, resp, cs.
  split_and!; [|done|done|].
  - unfold get in Hl. destruct (artigo !! "link"); simpl in Hl; by subst.
  - simpl in Hf. unfold os_path_join in Hf. simpl in Hf. exact Hf.
Qed.

End fatos_arquivos.

(** *** The text that is saved *)

Section fatos_codificacao.
Local Open Scope N_scope.

Lemma forallb_Forall {A} (f : A → bool) (l : list A) :
  forallb f l = true ↔ Forall (λ x, f x = true) l.
Proof.
  induction l as [|x l IH]; simpl.
  - split; [constructor|done].
  - rewrite andb_true_iff, IH, Forall_cons. done.
Qed.

Lemma codificavel_baixo c : c < 55296 → codificavel c = true.
Proof. intros H. unfold codificavel. apply orb_true_iff. left. by apply N.ltb_lt. Qed.

Lemma escapar_codificavel c :
  codificavel c = true → Forall (λ x, codificavel x = true) (escapar c).
Proof.
  intros Hc. unfold escapar.
  repeat (case_match; [by repeat constructor|]).
  destruct (c <? 32) eqn:Hlt; [|by repeat constructor].
  apply N.ltb_lt in Hlt. repeat constructor.
  - apply codificavel_baixo. unfold hex_digito.
    assert (c / 16 < 16) by (apply N.Div0.div_lt_upper_bound; lia).
    case_match; lia.
  - apply codificavel_baixo. unfold hex_digito.
    assert (c mod 16 < 16) by (apply N.mod_lt; lia).
    case_match; lia.
Qed.

Lemma encode_basestring_codificavel s :
  Forall (λ x, codificavel x = true) s →
  Forall (λ x, codificavel x = true) (encode_basestring s).
Proof.
  intros Hs. unfold encode_basestring.
  apply Forall_app. split; [by repeat constructor|].
  apply Forall_app. split; [|by repeat constructor].
  apply Forall_concat, Forall_fmap.
  eapply Forall_impl; [exact Hs|]. intros c Hc. by apply escapar_codificavel.
Qed.

Lemma str_of_codificavel (k : string) : Forall (λ x, codificavel x = true) (str_of k).
Proof.
  unfold str_of. apply Forall_fmap, Forall_forall. intros a _. simpl.
  apply codificavel_baixo. pose proof (N_ascii_bounded a). lia.
Qed.

Lemma juntar_codificavel (sep : str) (ps : list str) :
  Forall (λ x, codificavel x = true) sep →
  Forall (Forall (λ x, codificavel x = true)) ps →
  Forall (λ x, codificavel x = true) (juntar sep ps).
Proof.
  intros Hsep. induction 1 as [|p ps Hp Hps IH]; [constructor|].
  destruct ps as [|q ps]; [done|].
  change (juntar sep (p :: q :: ps)) with (p ++ sep ++ juntar sep (q :: ps)).
  apply Forall_app. split; [done|]. apply Forall_app. by split.
Qed.

Lemma concat_elem {A} (ls : list (list A)) l x :
  l ∈ ls → x ∈ l → x ∈ concat ls.
Proof.
  intros Hl Hx. induction ls as [|k ls IH]; [by apply elem_of_nil in Hl|].
  simpl. apply elem_of_app. apply elem_of_cons in Hl as [->|Hl]; [by left|].
  right. by apply IH.
Qed.

Lemma juntar_elem (sep : str) (ps : list str) p x :
  p ∈ ps → x ∈ p → x ∈ juntar sep ps.
Proof.
  intros Hp Hx. induction ps as [|q ps IH]; [by apply elem_of_nil in Hp|].
  destruct ps as [|q' ps].
  - apply list_elem_of_singleton in Hp as ->. done.
  - change (juntar sep (q :: q' :: ps)) with (q ++ sep ++ juntar sep (q' :: ps)).
    apply elem_of_cons in Hp as [->|Hp].
    + apply elem_of_app. by left.
    + apply elem_of_app. right. apply elem_of_app. right. by apply IH.
Qed.

Section json_codificacao.
Context {F : Type} `{!Escrita F}.

Lemma dump_valor_codificavel (v : value F) :
  (∀ s, v = VStr s → forallb codificavel s = true) →
  Forall (λ x, codificavel x = true) (dump_valor v).
Proof.
  intros Hv. destruct v as [s|x|]; simpl.
  - apply encode_basestring_codificavel, forallb_Forall. by apply Hv.
  - destruct (repr_numerico x) as [_ Hn].
    eapply Forall_impl; [exact Hn|]. intros c Hc. simpl in Hc.
    apply codificavel_baixo. unfold numerico in Hc.
    repeat (apply orb_true_iff in Hc as [Hc|Hc]);
      try (apply andb_true_iff in Hc as [_ Hc]; apply N.leb_le in Hc; lia);
      apply N.eqb_eq in Hc; lia.
  - apply str_of_codificavel.
Qed.

Lemma dump_objeto_codificavel (d : dict F) :
  registro_codificavel d → Forall (λ x, codificavel x = true) (dump_objeto d).
Proof.
  intros Hd. unfold dump_objeto.
  destruct (map_to_list d) as [|m ms] eqn:Hl; [by repeat constructor|].
  rewrite <-Hl.
  apply Forall_app. split; [by repeat constructor|].
  apply Forall_app. split; [by repeat constructor|].
  apply Forall_app. split; [by repeat constructor|].
  apply Forall_app. split; [|by repeat constructor].
  apply juntar_codificavel; [by repeat constructor|].
  apply Forall_fmap, Forall_forall. intros [k v] Hkv. simpl.
  apply elem_of_map_to_list in Hkv. unfold dump_membro. cbn [fst snd].
  apply Forall_app. split; [apply encode_basestring_codificavel, str_of_codificavel|].
  apply Forall_app. split; [by repeat constructor|].
  apply dump_valor_codificavel. intros s ->. by eapply Hd.
Qed.

Lemma json_dumps_codificavel (ds : list (dict F)) :
  Forall registro_codificavel ds →
  forallb codificavel (json_dumps ds) = true.
Proof.
  intros Hds. apply forallb_Forall. unfold json_dumps.
  destruct ds as [|d ds]; [by repeat constructor|].
  apply Forall_app. split; [by repeat constructor|].
  apply Forall_app. split; [by repeat constructor|].
  apply Forall_app. split; [by repeat constructor|].
  apply Forall_app. split; [|by repeat constructor].
  apply juntar_codificavel; [by repeat constructor|].
  apply Forall_fmap. eapply Forall_impl; [exact Hds|].
  intros d' Hd'. by apply dump_objeto_codificavel.
Qed.

Lemma json_dumps_nao_codificavel (ds : list (dict F)) d k s :
  d ∈ ds → d !! k = Some (VStr s) → forallb codificavel s = false →
  forallb codificavel (json_dumps ds) = false.
Proof.
  intros Hd Hk Hs.
  assert (∃ c, c ∈ s ∧ codificavel c = false) as (c & Hc & Hn).
  { clear -Hs. induction s as [|c s IH]; [done|]. simpl in Hs.
    apply andb_false_iff in Hs as [Hs|Hs].
    - exists c. split; [by left|done].
    - destruct (IH Hs) as (c' & ? & ?). exists c'. split; [by right|done]. }
  assert (escapar c = [c]) as He.
  { apply escapar_literal; unfold codificavel in Hn;
      apply orb_false_iff in Hn as [Hn _]; apply N.ltb_ge in Hn; lia. }
  assert (c ∈ json_dumps ds) as Hin.
  { unfold json_dumps. destruct ds as [|d0 ds0] eqn:Hds; [by apply elem_of_nil in Hd|].
    rewrite <-Hds in *. clear Hds.
    do 3 (apply elem_of_app; right). apply elem_of_app. left.
    apply (juntar_elem _ _ (dump_objeto d)); [by apply list_elem_of_fmap_2|].
    unfold dump_objeto.
    assert ((k, VStr s) ∈ map_to_list d) as Hm by (by apply elem_of_map_to_list).
    destruct (map_to_list d) as [|m ms] eqn:Hl; [by apply elem_of_nil in Hm|].
    rewrite <-Hl in *. clear Hl.
    do 3 (apply elem_of_app; right). apply elem_of_app. left.
    apply (juntar_elem _ _ (dump_membro (k, VStr s))); [by apply list_elem_of_fmap_2|].
    unfold dump_membro. cbn [fst snd dump_valor]. apply elem_of_app. right.
    apply elem_of_app. right.
    unfold encode_basestring. apply elem_of_app. right. apply elem_of_app. left.
    apply (concat_elem _ (escapar c)); [by apply list_elem_of_fmap_2|].
    rewrite He. by left. }
  destruct (forallb codificavel (json_dumps ds)) eqn:Hf; [|done].
  rewrite forallb_forall in Hf. apply list_elem_of_In, Hf in Hin. congruence.
Qed.

Lemma registros_de (σ : heap F) artigos registros :
  Forall2 (λ artigo d, σ !! artigo = Some d) artigos registros →
  mapM (λ artigo, from_option Ok (Raise TypeError) (σ !! artigo)) artigos = Ok registros.
Proof.
  intros H. apply mapM_Ok. eapply Forall2_impl; [exact H|].
  intros a d Ha. simpl. by rewrite Ha.
Qed.


(** X17.  When the file can be opened and every reference has a record,
    [salvar_artigos] returns if no string of any record holds a surrogate
    code point, and raises [UnicodeEncodeError] if one does:
    [ensure_ascii=False] passes such a character on to the UTF-8 encoder
    of the file. *)
Theorem salvar_artigos_codificacao fs (σ : heap F) artigos caminho fs1 registros :
  open_w fs caminho = Ok fs1 →
  Forall2 (λ artigo d, σ !! artigo = Some d) artigos registros →
  ((∀ d k s, d ∈ registros → d !! k = Some (VStr s) → forallb codificavel s = true) →
   ∃ fs', salvar_artigos fs σ artigos caminho = (fs', Ok ()))
  ∧ (∀ d k s, d ∈ registros → d !! k = Some (VStr s) →
              forallb codificavel s = false →
              (salvar_artigos fs σ artigos caminho).2 = Raise UnicodeEncodeError).
Proof.
  intros Ho Hr. unfold salvar_artigos. rewrite Ho, (registros_de _ _ _ Hr).
  unfold write_texto. split.
  - intros Hc. rewrite json_dumps_codificavel; [by eexists|].
    apply Forall_forall. intros d Hd k s Hk. by eapply Hc.
  - intros d k s Hd Hk Hs. by rewrite (json_dumps_nao_codificavel _ _ _ _ Hd Hk Hs).
Qed.

End json_codificacao.
End fatos_codificacao.

(** *** The steps of the scripts *)

Section fatos_execucao.
Context {F : Type}.
Context `{!Pontuacao F, !Bibliotecas F, !Internet F, !Yake F, !Escrita F}.
Implicit Types (fs : Arquivos) (σ : heap F).

(** No download goes to the results file. *)
Lemma json_fora_de_pdfs (artigo : dict F) : ¬ alvo artigo pdfs artigos_relevantes_json.
Proof.
  intros (titulo & _ & Heq). unfold os_path_join in Heq.
  destruct (take 50 titulo ++ ponto_pdf) as [|c b] eqn:Hb.
  { by apply app_eq_nil in Hb as [_ ?]. }
  repeat case_decide; subst; apply (f_equal head) in Heq; vm_compute in Heq;
    congruence.
Qed.

Lemma exibir_artigo_outros fs σ idioma a fs' r :
  exibir_artigo fs σ idioma a = (fs', r) →
  protegidos fs' = protegidos fs
  ∧ arquivos fs' !! artigos_relevantes_json = arquivos fs !! artigos_relevantes_json.
Proof.
  unfold exibir_artigo. destruct (σ !! a) as [d|]; [|by intros [= <- <-]].
  destruct (_ ← getitem σ a "titulo"; _) as [ps|e]; [|by intros [= <- <-]].
  intros (Hp & _ & Ha)%baixar_pdf_outros. split; [done|].
  apply Ha, json_fora_de_pdfs.
Qed.

Lemma exibir_outros fs σ idioma l fs' r :
  exibir fs σ idioma l = (fs', r) →
  protegidos fs' = protegidos fs
  ∧ arquivos fs' !! artigos_relevantes_json = arquivos fs !! artigos_relevantes_json.
Proof.
  revert fs. induction l as [|a l IH]; intros fs; simpl.
  - by intros [= <- <-].
  - destruct (exibir_artigo fs σ idioma a) as [fs1 [b|e]] eqn:Ha;
      apply exibir_artigo_outros in Ha as [Hp1 Ha1].
    + intros [Hp Ha]%IH. split; congruence.
    + by intros [= <- <-].
Qed.

(** What a normal return of [calcular_relevancia] does to the heap. *)
Lemma calcular_relevancia_quadro σ artigos termo idioma σ' ordenados :
  calcular_relevancia σ artigos termo idioma = (σ', Ok ordenados) →
  ordenados ≡ₚ artigos
  ∧ (∀ a, a ∈ artigos →
       ∃ d r, σ' !! a = Some d ∧ d !! "relevancia" = Some (VNum r)
              ∧ relevancia_de σ' a = r)
  ∧ (∀ a, a ∉ artigos → σ' !! a = σ !! a).
Proof.
  unfold calcular_relevancia. intros (sims & Hs & -> & ->)%relevancia_com_inv.
  split_and!.
  - rewrite sorted_reverse_perm, <-list_fmap_compose. simpl.
    by rewrite list_fmap_id.
  - intros a Ha.
    destruct (similaridades_de_vivos _ _ _ _ _ a Hs Ha) as [d Hd].
    destruct (atribuir_Some sims 0 σ artigos a d Hd) as (d' & Hd' & _ & Hin & _).
    destruct (Hin Ha) as [r Hr]. exists d', r. split_and!; [done..|].
    unfold relevancia_de, chave, getitem. by rewrite Hd', Hr.
  - intros a Ha. destruct (σ !! a) as [d|] eqn:Hd.
    + destruct (atribuir_Some sims 0 σ artigos a d Hd) as (d' & -> & _ & _ & Hout).
      by rewrite (Hout Ha).
    + by apply atribuir_None.
Qed.

Lemma calcular_relevancia_nil σ termo idioma σ' r :
  calcular_relevancia σ [] termo idioma = (σ', r) → ∃ e, r = Raise e.
Proof.
  unfold calcular_relevancia, relevancia_com.
  pose proof (similaridades_de_forma (stop_words_para idioma) σ [] termo [] []
                eq_refl eq_refl) as Hf.
  cbv zeta in Hf. rewrite Hf. repeat case_decide; try done; intros [= _ <-]; eauto.
Qed.

Lemma artigos_relevantes_filtro σ ordenados :
  (∀ a, a ∈ ordenados → ∃ r, chave σ a = Ok r) →
  artigos_relevantes σ ordenados = Ok (relevantes_de σ ordenados).
Proof.
  intros Hk. rewrite (artigos_relevantes_decorados _ _ Hk). f_equal.
  by rewrite (filter_decorar (relevancia_de σ) (λ p, ltb zero p.1 = true)).
Qed.

Lemma pontuar_e_exibir_Ok σ fs artigos termo idioma σ' fs' relevantes :
  pontuar_e_exibir σ fs artigos termo idioma = (σ', fs', Ok relevantes) →
  ∃ ordenados,
    calcular_relevancia σ artigos termo idioma = (σ', Ok ordenados)
    ∧ relevantes = relevantes_de σ' ordenados
    ∧ protegidos fs' = protegidos fs
    ∧ arquivos fs' !! artigos_relevantes_json = arquivos fs !! artigos_relevantes_json
    ∧ (relevantes = [] → fs' = fs).
Proof.
  unfold pontuar_e_exibir.
  destruct (calcular_relevancia σ artigos termo idioma) as [σ1 [ordenados|e]] eqn:Hc;
    [|done].
  rewrite (artigos_relevantes_filtro σ1 ordenados)
    by (by eapply calcular_relevancia_chaves).
  destruct (exibir fs σ1 idioma _) as [fs1 [u|e]] eqn:He; [|done].
  intros [= <- <- <-]. exists ordenados.
  destruct (exibir_outros _ _ _ _ _ _ He) as [Hp Ha]. split_and!; try done.
  intros Hnil. rewrite Hnil in He. simpl in He. by injection He.
Qed.


Lemma relevantes_de_positivos σ artigos termo idioma σ' ordenados :
  calcular_relevancia σ artigos termo idioma = (σ', Ok ordenados) →
  ∀ a, a ∈ relevantes_de σ' ordenados →
       a ∈ artigos ∧ ∃ d, σ' !! a = Some d ∧ positivo d.
Proof.
  intros (Hperm & Hin & _)%calcular_relevancia_quadro.
  intros a [Hpos Ha]%list_elem_of_filter. rewrite Hperm in Ha.
  split; [done|]. destruct (Hin a Ha) as (d & r & Hd & Hr & Hrel).
  exists d. split; [done|]. exists r. by rewrite Hrel in Hpos.
Qed.

Lemma relevantes_de_NoDup σ artigos termo idioma σ' ordenados :
  calcular_relevancia σ artigos termo idioma = (σ', Ok ordenados) →
  NoDup artigos → NoDup (relevantes_de σ' ordenados).
Proof.
  intros (Hperm & _)%calcular_relevancia_quadro Hnd.
  apply NoDup_filter. by rewrite Hperm.
Qed.

Lemma positivos_Forall2 σ (relevantes : list loc) registros :
  (∀ a, a ∈ relevantes → ∃ d, σ !! a = Some d ∧ positivo d) →
  Forall2 (λ a d, σ !! a = Some d) relevantes registros →
  Forall positivo registros.
Proof.
  intros Hpos H. induction H as [|a d l k Ha _ IH]; [constructor|].
  constructor.
  - destruct (Hpos a) as (d' & Hd' & Hp); [by left|]. congruence.
  - apply IH. intros b Hb. apply Hpos. by right.
Qed.

Lemma calcular_relevancia_Raise_heap σ artigos termo idioma σ' e :
  calcular_relevancia σ artigos termo idioma = (σ', Raise e) → σ' = σ.
Proof.
  unfold calcular_relevancia, relevancia_com.
  destruct (similaridades_de _ σ artigos termo) as [sims|e'] eqn:Hs.
  - rewrite pontuar_e_ordenar_Ok; [done|].
    intros a Ha. by eapply similaridades_de_vivos.
  - by intros [= <- _].
Qed.

Lemma pontuar_e_exibir_quadro σ fs artigos termo idioma σ' fs' r :
  pontuar_e_exibir σ fs artigos termo idioma = (σ', fs', r) →
  ∀ a, a ∉ artigos → σ' !! a = σ !! a.
Proof.
  unfold pontuar_e_exibir.
  destruct (calcular_relevancia σ artigos termo idioma) as [σ1 [ordenados|e]] eqn:Hc.
  - apply calcular_relevancia_quadro in Hc as (_ & _ & Hout).
    destruct (artigos_relevantes σ1 ordenados) as [relevantes|e];
      [|by intros [= <- _ _]].
    destruct (exibir fs σ1 idioma relevantes) as [fs1 [u|e]]; by intros [= <- _ _].
  - apply calcular_relevancia_Raise_heap in Hc as ->. by intros [= <- _ _].
Qed.

Lemma salvar_artigos_casos fs σ artigos caminho fs' r :
  salvar_artigos fs σ artigos caminho = (fs', r) →
  (∀ a, a ∈ artigos → is_Some (σ !! a)) →
  ((∃ e, r = Raise e) ∧ fs' = fs)
  ∨ r = Raise UnicodeEncodeError
  ∨ (r = Ok ()
     ∧ ∃ registros, Forall2 (λ a d, σ !! a = Some d) artigos registros
                    ∧ carregar_artigos fs' caminho = Ok registros).
Proof.
  intros H Hv. unfold salvar_artigos in H.
  destruct (open_w fs caminho) as [fs1|e] eqn:Ho; cycle 1.
  { simplify_eq. left. split; [by eexists|done]. }
  assert (∃ registros, Forall2 (λ a d, σ !! a = Some d) artigos registros)
    as [registros Hr].
  { clear -Hv. induction artigos as [|a l IH]; [by exists []|].
    destruct (Hv a) as [d Hd]; [by left|].
    destruct IH as [ds Hds]; [intros b Hb; apply Hv; by right|].
    exists (d :: ds). by constructor. }
  rewrite (registros_de _ _ _ Hr) in H.
  unfold write_texto in H.
  destruct (forallb codificavel (json_dumps registros)); simplify_eq; [|by right; left].
  right; right. split; [done|]. exists registros. split; [done|].
  apply abrir_Ok in Ho as (_ & _ & Ho).
  unfold carregar_artigos. simpl.
  rewrite lookup_alter_eq, Ho, lookup_insert_eq. simpl. by rewrite json_loads_dumps.
Qed.
End fatos_execucao.

(** *** The scripts *)

Section fatos_bilingue.
Context {F : Type}.
Context `{!Pontuacao F, !Bibliotecas F, !Internet F, !Yake F, !Escrita F}.
Implicit Types (fs : Arquivos) (σ : heap F).

(** X19.  [Filtro_bilingue.py] run to its end.  When nothing was collected,
    no file was touched.  Otherwise [artigos_relevantes.json] holds, in
    ranking order, exactly the collected articles with a relevance above
    zero, as they are in the heap after scoring: it reads back as these
    records, each with a numeric [relevancia] above zero.  The file is
    written also when no article passes the filter. *)
Theorem bilingue_principal_salva σ fs tema idioma_lido numero_lido σ' fs' :
  Filtro_bilingue.principal σ fs tema idioma_lido numero_lido = (σ', fs', Ok ()) →
  ∃ σ1 artigos,
    Bilingue.coletar_artigos σ tema (numero_ou_padrao numero_lido) = (σ1, Ok artigos)
    ∧ (artigos = [] → σ' = σ1 ∧ fs' = fs)
    ∧ (artigos ≠ [] →
       ∃ ordenados registros,
         calcular_relevancia σ1 artigos tema (idioma_ou_padrao idioma_lido)
         = (σ', Ok ordenados)
         ∧ Forall2 (λ a d, σ' !! a = Some d)
             (filter (λ a, ltb zero (relevancia_de σ' a) = true) ordenados) registros
         ∧ carregar_artigos fs' artigos_relevantes_json = Ok registros
         ∧ Forall (λ d, ∃ r, d !! "relevancia" = Some (VNum r) ∧ ltb zero r = true)
             registros).
Proof.
  unfold Filtro_bilingue.principal.
  destruct (Bilingue.coletar_artigos σ tema _) as [σ1 [artigos|e]] eqn:Hc; [|done].
  case_decide as Hne; cycle 1.
  { intros [= <- <-]. exists σ1, artigos. split; [done|]. split; [done|].
    intros Hn. by destruct Hne. }
  destruct (pontuar_e_exibir σ1 fs artigos tema _) as [[σ2 fs1] [relevantes|e]] eqn:Hp;
    [|done].
  destruct (salvar_artigos fs1 σ2 relevantes artigos_relevantes_json) as [fs2 r] eqn:Hs.
  intros [= <- <- ->]. exists σ1, artigos. split; [done|]. split; [done|]. intros _.
  apply pontuar_e_exibir_Ok in Hp as (ordenados & Hcalc & -> & _).
  pose proof (relevantes_de_positivos _ _ _ _ _ _ Hcalc) as Hpos.
  apply salvar_artigos_casos in Hs as [[[? ?] _]|[?|(_ & registros & Hr & Hl)]];
    [done|done| |].
  - exists ordenados, registros. split_and!; try done.
    eapply positivos_Forall2; [|exact Hr]. intros a Ha. by apply Hpos.
  - intros a Ha. destruct (Hpos a Ha) as (_ & d & Hd & _). by exists d.
Qed.


(** X21.  [os.makedirs] is outside the [try] of [baixar_pdf] and the
    script calls [baixar_pdf] before it saves: when at least one article
    passes the filter and the directory [pdfs] is absent and cannot be
    created, the run of [Filtro_bilingue.py] ends with an exception, and
    the file system is as before: the ranking is lost. *)
Theorem bilingue_principal_pasta_protegida σ fs tema idioma_lido numero_lido
    σ1 artigos σ2 ordenados a resto :
  Bilingue.coletar_artigos σ tema (numero_ou_padrao numero_lido) = (σ1, Ok artigos) →
  calcular_relevancia σ1 artigos tema (idioma_ou_padrao idioma_lido)
  = (σ2, Ok ordenados) →
  artigos_relevantes σ2 ordenados = Ok (a :: resto) →
  os_path_exists fs pdfs = false →
  pdfs ∈ protegidos fs →
  ∃ e, Filtro_bilingue.principal σ fs tema idioma_lido numero_lido = (σ2, fs, Raise e).
Proof.
  intros Hc Hcalc Hrel Hex Hprot. unfold Filtro_bilingue.principal. rewrite Hc.
  rewrite decide_True; cycle 1.
  { intros ->. by apply calcular_relevancia_nil in Hcalc as [e ?]. }
  unfold pontuar_e_exibir. rewrite Hcalc, Hrel. simpl.
  unfold exibir_artigo. destruct (σ2 !! a) as [d|]; [|by eexists].
  destruct (_ ← getitem σ2 a "titulo"; _) as [ps|e]; [|by eexists].
  unfold baixar_pdf. rewrite Hex, (os_makedirs_pdfs fs Hprot). by eexists.
Qed.
End fatos_bilingue.

Section fatos_serpi.
Context {F : Type}.
Context `{!Pontuacao F, !Bibliotecas F, !Internet F, !Yake F, !Escrita F}.
Implicit Types (fs : Arquivos) (σ : heap F).

Lemma serpi_coletar_artigos_novos σ query (max : Z) chave_api σ1 novos :
  SerpiAPI.coletar_artigos σ query max chave_api = (σ1, Ok novos) →
  NoDup novos ∧ (∀ a, a ∈ novos → σ !! a = None) ∧ (∀ a, a ∉ novos → σ1 !! a = σ !! a).
Proof.
  unfold SerpiAPI.coletar_artigos.
  destruct (requests_get _ _) as [response|e]; [|done].
  case_decide; cycle 1.
  { intros [= <- <-]. split; [constructor|]. split; [|done].
    by intros a ?%elem_of_nil. }
  destruct (json response) as [corpo|e]; [|done].
  destruct (acrescentar_registros σ []
              (fatia_ate max (default [] (corpo !! "organic_results"))))
    as (σ' & novos' & Heq & _ & Hnd & Hfr & Hout).
  rewrite Heq. simpl. by intros [= <- <-].
Qed.

Lemma serpi_coletar_artigos_quadro σ query (max : Z) chave_api σ1 r :
  SerpiAPI.coletar_artigos σ query max chave_api = (σ1, r) →
  ∀ a, is_Some (σ !! a) → σ1 !! a = σ !! a.
Proof.
  intros H a [d Hd]. destruct r as [novos|e].
  - apply serpi_coletar_artigos_novos in H as (_ & Hfr & Hout). apply Hout.
    intros Ha. apply Hfr in Ha. congruence.
  - unfold SerpiAPI.coletar_artigos in H.
    destruct (requests_get _ _) as [response|e']; [|by simplify_eq].
    case_decide; [|done]. destruct (json response) as [corpo|e'']; [|by simplify_eq].
    by destruct (SerpiAPI.acrescentar _ _ _).
Qed.

(** What a round adds to the list, and what it leaves as it was. *)
Lemma rodada_Ok σ fs idioma artigos query novo_termo numero_lido σ' fs' artigos' query' :
  Filtro_SerpiAPI.rodada σ fs idioma artigos query novo_termo numero_lido
  = (σ', fs', Ok (artigos', query')) →
  query' = Filtro_SerpiAPI.acumular query novo_termo
  ∧ protegidos fs' = protegidos fs
  ∧ arquivos fs' !! artigos_relevantes_json = arquivos fs !! artigos_relevantes_json
  ∧ (∀ a, is_Some (σ !! a) → σ' !! a = σ !! a)
  ∧ ∃ relevantes,
      artigos' = artigos ++ relevantes
      ∧ NoDup relevantes
      ∧ (∀ a, a ∈ relevantes → σ !! a = None ∧ ∃ d, σ' !! a = Some d ∧ positivo d)
      ∧ (relevantes = [] → fs' = fs).
Proof.
  unfold Filtro_SerpiAPI.rodada.
  destruct (SerpiAPI.coletar_artigos σ _ _ _) as [σ1 [novos|e]] eqn:Hc; [|done].
  pose proof (serpi_coletar_artigos_quadro _ _ _ _ _ _ Hc) as Hq1.
  apply serpi_coletar_artigos_novos in Hc as (Hnd & Hfr & Hout).
  case_decide as Hne; cycle 1.
  { intros [= <- <- <- <-]. split_and!; try done.
    exists []. rewrite app_nil_r. split_and!; try done; [constructor|].
    by intros a ?%elem_of_nil. }
  destruct (pontuar_e_exibir σ1 fs novos _ idioma) as [[σ2 fs1] [relevantes|e]] eqn:Hp;
    [|done].
  intros [= <- <- <- <-].
  pose proof (pontuar_e_exibir_quadro _ _ _ _ _ _ _ _ Hp) as Hq2.
  apply pontuar_e_exibir_Ok in Hp as (ordenados & Hcalc & -> & Hprot & Hj & Hnil).
  split_and!; try done.
  - intros a Ha. rewrite Hq2; [by apply Hq1|].
    intros Hin. apply Hfr in Hin. destruct Ha. congruence.
  - exists (relevantes_de σ2 ordenados). split_and!; try done.
    + by eapply relevantes_de_NoDup.
    + intros a Ha.
      destruct (relevantes_de_positivos _ _ _ _ _ _ Hcalc a Ha) as [Hin Hd].
      split; [by apply Hfr|done].
Qed.


(** X22.  A round of the loop of [Filtro_SerpiAPI.py], however it ends,
    leaves every record that existed before it as it was: the relevance
    of an article is the one computed in the round that found it, against
    the query of that round, and later rounds do not update it. *)
Theorem serpi_rodada_preserva σ fs idioma artigos query novo_termo numero_lido
    σ' fs' r :
  Filtro_SerpiAPI.rodada σ fs idioma artigos query novo_termo numero_lido
  = (σ', fs', r) →
  ∀ a, is_Some (σ !! a) → σ' !! a = σ !! a.
Proof.
  unfold Filtro_SerpiAPI.rodada.
  destruct (SerpiAPI.coletar_artigos σ _ _ _) as [σ1 [novos|e]] eqn:Hc; cycle 1.
  { intros [= <- _ _]. by eapply serpi_coletar_artigos_quadro. }
  pose proof (serpi_coletar_artigos_quadro _ _ _ _ _ _ Hc) as Hq1.
  apply serpi_coletar_artigos_novos in Hc as (_ & Hfr & _).
  case_decide; [|by intros [= <- _ _]].
  destruct (pontuar_e_exibir σ1 fs novos _ idioma) as [[σ2 fs1] r2] eqn:Hp.
  pose proof (pontuar_e_exibir_quadro _ _ _ _ _ _ _ _ Hp) as Hq2.
  intros Heq a Ha. assert (σ' = σ2) as -> by (destruct r2; by simplify_eq).
  rewrite Hq2; [by apply Hq1|].
  intros Hin. apply Hfr in Hin. destruct Ha. congruence.
Qed.

Lemma laco_Ok σ fs idioma artigos query entradas σ' fs' artigos' query' :
  Filtro_SerpiAPI.laco σ fs idioma artigos query entradas
  = (σ', fs', Ok (artigos', query')) →
  reunidos σ artigos →
  reunidos σ' artigos'
  ∧ query' = foldl Filtro_SerpiAPI.acumular query entradas.*1
  ∧ arquivos fs' !! artigos_relevantes_json = arquivos fs !! artigos_relevantes_json
  ∧ (∀ a, is_Some (σ !! a) → σ' !! a = σ !! a)
  ∧ (∃ mais, artigos' = artigos ++ mais)
  ∧ (artigos' = [] → fs' = fs).
Proof.
  revert σ fs artigos query.
  induction entradas as [|[t n] resto IH]; intros σ fs artigos query; simpl.
  - intros [= <- <- <- <-] Hre. split_and!; try done. exists []. by rewrite app_nil_r.
  - destruct (Filtro_SerpiAPI.rodada σ fs idioma artigos query t n)
      as [[σ1 fs1] [[artigos1 query1]|e]] eqn:Hr; [|done].
    apply rodada_Ok in Hr
      as (-> & _ & Hj1 & Hq1 & relevantes & -> & Hnd & Hrel & Hnil).
    intros H [Hnda Hpos]. apply IH in H as (Hre & -> & Hj & Hq & [mais ->] & Hn);
      cycle 1.
    { split.
      - apply NoDup_app. split_and!; try done.
        intros a Ha Hin. destruct (Hpos a Ha) as (d & Hd & _).
        destruct (Hrel a Hin) as [Hnone _]. congruence.
      - intros a [Ha|Ha]%elem_of_app.
        + destruct (Hpos a Ha) as (d & Hd & Hp). exists d. split; [|done].
          rewrite Hq1; [done|by eexists].
        + by apply Hrel. }
    split_and!; try done.
    + congruence.
    + intros a Ha. rewrite Hq; [by apply Hq1|]. rewrite Hq1; done.
    + exists (relevantes ++ mais). by rewrite app_assoc.
    + intros Hnil'. rewrite (Hn Hnil'). apply Hnil.
      apply app_eq_nil in Hnil' as [Hnil' _]. by apply app_eq_nil in Hnil' as [_ ?].
Qed.


Lemma juntar_espaco (t : str) (ts : list str) :
  juntar [32%N] (t :: ts) = t ++ concat ((λ u, 32%N :: u) <$> ts).
Proof.
  revert t. induction ts as [|u ts IH]; intros t; [by rewrite app_nil_r|].
  change (juntar [32%N] (t :: u :: ts)) with (t ++ [32%N] ++ juntar [32%N] (u :: ts)).
  rewrite IH. done.
Qed.

Lemma acumular_foldl (q : str) (ts : list str) :
  q ≠ [] →
  foldl Filtro_SerpiAPI.acumular q ts = q ++ concat ((λ u, 32%N :: u) <$> ts).
Proof.
  revert q. induction ts as [|u ts IH]; intros q Hq; simpl; [by rewrite app_nil_r|].
  unfold Filtro_SerpiAPI.acumular at 2. rewrite decide_True by done.
  rewrite IH by (by destruct q). by rewrite <-app_assoc.
Qed.

(** X23.  The query of [Filtro_SerpiAPI.py] accumulates: after rounds
    whose first term is not empty, the query, which the last round has
    searched and scored against, is the terms typed so far joined by
    single spaces. *)
Theorem serpi_laco_consulta σ fs idioma entradas σ' fs' artigos query :
  Filtro_SerpiAPI.laco σ fs idioma [] [] entradas = (σ', fs', Ok (artigos, query)) →
  (∀ t n resto, entradas = (t, n) :: resto → t ≠ []) →
  query = juntar [32%N] entradas.*1.
Proof.
  intros H Hprimeiro. apply laco_Ok in H as (_ & -> & _).
  - destruct entradas as [|[t n] resto]; [done|].
    specialize (Hprimeiro t n resto eq_refl). rewrite fmap_cons. cbn [fst].
    change (foldl ?f ?q (?x :: ?l)) with (foldl f (f q x) l).
    assert (Filtro_SerpiAPI.acumular [] t = t) as ->.
    { unfold Filtro_SerpiAPI.acumular. by rewrite decide_False by (by intros []). }
    by rewrite acumular_foldl, juntar_espaco.
  - split; [constructor|]. by intros a ?%elem_of_nil.
Qed.

(** X24.  [Filtro_SerpiAPI.py] run to its end.  The articles gathered over
    the rounds are pairwise distinct records.  When there is none, no file
    was touched; otherwise [artigos_relevantes.json] reads back as their
    records, in the order of the rounds, each with a numeric [relevancia]
    above zero. *)
Theorem serpi_principal_salva σ fs idioma_lido entradas σ' fs' :
  Filtro_SerpiAPI.principal σ fs idioma_lido entradas = (σ', fs', Ok ()) →
  ∃ fs1 artigos query,
    Filtro_SerpiAPI.laco σ fs (idioma_ou_padrao idioma_lido) [] [] entradas
    = (σ', fs1, Ok (artigos, query))
    ∧ NoDup artigos
    ∧ (artigos = [] → fs' = fs)
    ∧ (artigos ≠ [] →
       ∃ registros,
         Forall2 (λ a d, σ' !! a = Some d) artigos registros
         ∧ carregar_artigos fs' artigos_relevantes_json = Ok registros
         ∧ Forall (λ d, ∃ r, d !! "relevancia" = Some (VNum r) ∧ ltb zero r = true)
             registros).
Proof.
  unfold Filtro_SerpiAPI.principal.
  destruct (Filtro_SerpiAPI.laco σ fs _ [] [] entradas)
    as [[σ1 fs1] [[artigos query]|e]] eqn:Hl; [|done].
  apply laco_Ok in Hl as Hinv; cycle 1.
  { split; [constructor|]. by intros a ?%elem_of_nil. }
  destruct Hinv as ([Hnd Hpos] & _ & _ & _ & _ & Hnil).
  case_decide as Hne; cycle 1.
  { intros [= <- <-]. exists fs1, artigos, query. by split_and!. }
  destruct (salvar_artigos fs1 σ1 artigos artigos_relevantes_json) as [fs2 r] eqn:Hs.
  intros [= <- <- ->]. exists fs1, artigos, query. split_and!; try done.
  intros _.
  apply salvar_artigos_casos in Hs as [[[? ?] _]|[?|(_ & registros & Hr & Hload)]];
    [done|done| |].
  - exists registros. split_and!; try done. by eapply positivos_Forall2.
  - intros a Ha. destruct (Hpos a Ha) as (d & Hd & _). by exists d.
Qed.

End fatos_serpi.

(** ** The theorems on the reference instance *)

Import Referencia.
Local Open Scope positive_scope.

(** The article without abstract, listed first, receives relevance 1 (a
    million millionths), the similarity of the other article's abstract;
    that article receives 0. *)
Lemma calcular_relevancia_desalinhada_exemplo :
  ∃ σ' o, calcular_relevancia acervo_sem_resumo [1; 2] consulta en = (σ', Ok o)
          ∧ chave σ' 1 = Ok 1000000%Z ∧ chave σ' 2 = Ok zero.
Proof.
  apply (calcular_relevancia_desalinhada acervo_sem_resumo 1 2
           (str_of "Graph neural networks") consulta en
           (calcular_relevancia acervo_sem_resumo [2] consulta en).1 [2] 1000000%Z).
  - done.
  - vm_compute. reflexivity.
  - vm_compute. reflexivity.
  - vm_compute. discriminate.
  - vm_compute. reflexivity.
  - vm_compute. reflexivity.
Defined.

(** An abstract and a query of stop words only. *)
Lemma calcular_relevancia_vocabulario_vazio_exemplo :
  calcular_relevancia acervo_vazio [1] (str_of "This is it") en
  = (acervo_vazio, Raise (ValueError empty_vocabulary)).
Proof.
  apply (calcular_relevancia_vocabulario_vazio acervo_vazio [1] (str_of "This is it")
           en [VStr (str_of "of the and")]).
  - vm_compute. reflexivity.
  - constructor; [|constructor]. exists (str_of "of the and"). split; [done|].
    vm_compute. reflexivity.
  - vm_compute. reflexivity.
Defined.

(** The three scored articles come out in the order 2, 3, 1. *)
Lemma calcular_relevancia_ordena_exemplo :
  (∀ i j x y, (i < j)%nat → [2; 3; 1] !! i = Some x → [2; 3; 1] !! j = Some y →
     ∃ rx ry, chave acervo_pontuado x = Ok rx ∧ chave acervo_pontuado y = Ok ry
              ∧ leb ry rx = true)
  ∧ (∀ r, filter (com_relevancia acervo_pontuado r) [2; 3; 1]
          = filter (com_relevancia acervo_pontuado r) [1; 2; 3]).
Proof.
  apply (calcular_relevancia_ordena acervo [1; 2; 3] consulta en).
  vm_compute. reflexivity.
Defined.

(** The same call, seen from the heap. *)
Lemma calcular_relevancia_no_lugar_exemplo :
  [2; 3; 1] ≡ₚ [1; 2; 3]
  ∧ dom acervo_pontuado = dom acervo
  ∧ (∀ a, a ∈ [1; 2; 3] →
       ∃ d d' r, acervo !! a = Some d ∧ acervo_pontuado !! a = Some d'
                 ∧ d' !! "relevancia" = Some (VNum r)
                 ∧ ∀ k, k ≠ "relevancia" → d' !! k = d !! k)
  ∧ (∀ a, a ∉ [1; 2; 3] → acervo_pontuado !! a = acervo !! a).
Proof.
  apply (calcular_relevancia_no_lugar acervo [1; 2; 3] consulta en).
  vm_compute. reflexivity.
Defined.

(** The export filter on the three scored articles. *)
Lemma artigos_relevantes_limiar_exemplo :
  ∃ relevantes,
    artigos_relevantes acervo_pontuado [2; 3; 1] = Ok relevantes
    ∧ relevantes = filter (λ a, ltb zero (relevancia_de acervo_pontuado a) = true) [2; 3; 1]
    ∧ (∀ a, a ∈ relevantes ↔
            a ∈ [2; 3; 1] ∧ ∃ r, chave acervo_pontuado a = Ok r ∧ ltb zero r = true)
    ∧ (∀ a r, chave acervo_pontuado a = Ok r → leb r zero = true → a ∉ relevantes).
Proof.
  apply (artigos_relevantes_limiar acervo_pontuado [2; 3; 1]).
  apply (calcular_relevancia_chaves acervo [1; 2; 3] consulta en).
  vm_compute. reflexivity.
Defined.

(** The unsupported tag ["fr"] next to ["pt"]. *)
Lemma recursos_por_idioma_exemplo :
  preprocessar_texto (str_of "The graphs, of networks.") (str_of "fr")
  = tokens_uteis (nlp_en (str_of "The graphs, of networks."))
  ∧ calcular_relevancia acervo [1; 2; 3] consulta (str_of "fr")
    = relevancia_com (Nome (str_of "english")) acervo [1; 2; 3] consulta
  ∧ preprocessar_texto (str_of "The graphs, of networks.") (str_of "pt")
    = tokens_uteis (nlp_pt (str_of "The graphs, of networks."))
  ∧ calcular_relevancia acervo [1; 2; 3] consulta (str_of "pt")
    = relevancia_com (Lista stop_words_pt) acervo [1; 2; 3] consulta.
Proof.
  apply (recursos_por_idioma (str_of "The graphs, of networks.") acervo [1; 2; 3]
           consulta (str_of "fr")).
  vm_compute. discriminate.
Defined.

(** An abstract of stop words only against a query with tokens. *)
Lemma calcular_relevancia_degenerada_exemplo :
  ∃ σ' ordenados,
    calcular_relevancia acervo_vazio [1] consulta en = (σ', Ok ordenados)
    ∧ ∀ a, a ∈ [1] → chave σ' a = Ok zero.
Proof.
  destruct (calcular_relevancia_degenerada acervo_vazio [1] consulta en
              [VStr (str_of "of the and")]) as (_ & _ & H).
  - vm_compute. reflexivity.
  - apply (H [str_of "of the and"]).
    + reflexivity.
    + discriminate.
    + right. split; [vm_compute; discriminate|].
      intros t ->%list_elem_of_singleton. vm_compute. reflexivity.
Defined.

(** A cap of one on a search that has two results. *)
Lemma coletar_artigos_limite_exemplo :
  ∃ σ' artigos,
    SerpiAPI.coletar_artigos (Internet0 := rede) ∅ consulta 1 chave_api = (σ', Ok artigos)
    ∧ (length artigos ≤ Z.to_nat 1)%nat ∧ Forall (registrado σ') artigos.
Proof.
  destruct (coletar_artigos_limite (Internet0 := rede) ∅ consulta 1 chave_api)
    as (H & _); [lia|].
  exists (SerpiAPI.coletar_artigos (Internet0 := rede) ∅ consulta 1 chave_api).1, [1].
  split; [vm_compute; reflexivity|]. apply H. vm_compute. reflexivity.
Defined.

(** C5 fails on the code: with the network down both variants of
    [coletar_artigos] raise instead of returning the empty list. *)
Lemma coletar_artigos_propaga :
  SerpiAPI.coletar_artigos (Internet0 := rede_fora_do_ar) ∅ consulta 10 chave_api
  = (∅, Raise RequestException)
  ∧ Bilingue.coletar_artigos (Internet0 := rede_fora_do_ar) ∅ consulta 10
    = (∅, Raise RequestException).
Proof. split; vm_compute; reflexivity. Qed.



(** C2 fails on the code: on an abstract and a query made of stop words
    [calcular_relevancia] raises and assigns no relevance. *)
Lemma calcular_relevancia_vocabulario_vazio_levanta :
  calcular_relevancia acervo_vazio [1] (str_of "the of") en
  = (acervo_vazio, Raise (ValueError empty_vocabulary)).
Proof. vm_compute. reflexivity. Qed.

(** C4 fails on the code: on the empty list [calcular_relevancia] raises
    instead of returning the empty list. *)
Lemma calcular_relevancia_lista_vazia_levanta :
  calcular_relevancia acervo [] consulta en = (acervo, Raise (ValueError no_samples)).
Proof. vm_compute. reflexivity. Qed.

(** A scored article with its keywords written to
    [artigos_relevantes.json] and read back. *)
Lemma salvar_artigos_ida_e_volta_exemplo :
  ∃ registros,
    Forall2 (λ artigo d, acervo_com_palavras !! artigo = Some d) [1] registros
    ∧ arquivos (Aninhado.salvar_artigos disco acervo_com_palavras [1]
                  artigos_relevantes_json).1
        !! artigos_relevantes_json
      = Some (Texto (Aninhado.json_dumps registros))
    ∧ Aninhado.carregar_artigos
        (Aninhado.salvar_artigos disco acervo_com_palavras [1] artigos_relevantes_json).1
        artigos_relevantes_json
      = Ok (registro_lido <$> registros)
    ∧ (Forall (map_Forall (λ _ o, sem_tuplas o = true)) registros →
       Aninhado.carregar_artigos
         (Aninhado.salvar_artigos disco acervo_com_palavras [1] artigos_relevantes_json).1
         artigos_relevantes_json
       = Ok registros)
    ∧ ∀ c, (128 ≤ c)%N → escapar c = [c].
Proof.
  apply (salvar_artigos_ida_e_volta disco acervo_com_palavras [1] artigos_relevantes_json).
  vm_compute. reflexivity.
Defined.

(** C8 fails on the code: the keywords of an article are pairs, tuples of
    a term and a score, and JSON has arrays only.  The record that is read
    back holds a list where the record that was saved holds a tuple, and a
    list is not equal to a tuple. *)
Lemma salvar_artigos_tupla_como_lista :
  (Aninhado.salvar_artigos disco acervo_com_palavras [1] artigos_relevantes_json).2
  = Ok ()
  ∧ Aninhado.carregar_artigos
      (Aninhado.salvar_artigos disco acervo_com_palavras [1] artigos_relevantes_json).1
      artigos_relevantes_json
    = Ok [artigo_com_palavras_lido]
  ∧ acervo_com_palavras !! 1 = Some artigo_com_palavras
  ∧ artigo_com_palavras_lido ≠ artigo_com_palavras.
Proof.
  split_and!; [vm_compute; reflexivity..|].
  intros H. apply (f_equal (.!! "keywords")) in H. vm_compute in H. discriminate.
Qed.

(** ** The further theorems on the reference instance *)

(** An abstract and a query of stop words: the call raises and the heap
    is the one it was called on. *)
Lemma calcular_relevancia_excecao_intacta_exemplo :
  (calcular_relevancia acervo_vazio [1] (str_of "the of") en).1 = acervo_vazio
  ∧ (ValueError empty_vocabulary = KeyError "resumo"
     ∨ ValueError empty_vocabulary = TypeError
     ∨ ValueError empty_vocabulary = AttributeError
     ∨ ValueError empty_vocabulary = ValueError empty_vocabulary
     ∨ ValueError empty_vocabulary = ValueError no_samples).
Proof.
  apply (calcular_relevancia_excecao_intacta acervo_vazio [1] (str_of "the of") en).
  vm_compute. reflexivity.
Defined.

(** A record that has a title only. *)
Lemma calcular_relevancia_sem_resumo_exemplo :
  calcular_relevancia acervo_incompleto [1] consulta en
  = (acervo_incompleto, Raise (KeyError "resumo")).
Proof.
  apply (calcular_relevancia_sem_resumo acervo_incompleto [1] consulta en).
  - intros a ->%list_elem_of_singleton. vm_compute. by eexists.
  - exists 1, (<["titulo" := VStr (str_of "GNN")]> ∅).
    split; [by left|]. split; vm_compute; reflexivity.
Defined.

(** One abstract is the sentinel: one similarity, which goes to the first
    article; the second article, at position 1, receives 0. *)
Lemma calcular_relevancia_por_posicao_exemplo :
  ∃ sims,
    similaridades_de (stop_words_para en) acervo_sem_resumo [1; 2] consulta = Ok sims
    ∧ length sims = length [VStr (F:=Z) (str_of "Graph neural networks")]
    ∧ (∀ j a s, [1; 2] !! j = Some a → sims !! j = Some s →
         chave (calcular_relevancia acervo_sem_resumo [1; 2] consulta en).1 a = Ok s)
    ∧ (∀ j a, [1; 2] !! j = Some a →
         (length [VStr (F:=Z) (str_of "Graph neural networks")] ≤ j)%nat →
         chave (calcular_relevancia acervo_sem_resumo [1; 2] consulta en).1 a = Ok zero).
Proof.
  apply (calcular_relevancia_por_posicao acervo_sem_resumo [1; 2] consulta en
           [VStr (str_of "Graph neural networks")]
           (calcular_relevancia acervo_sem_resumo [1; 2] consulta en).1 [1; 2]).
  - apply (bool_decide_unpack _). vm_compute. exact I.
  - vm_compute. reflexivity.
  - vm_compute. reflexivity.
Defined.

(** The second of the three articles, whose abstract is the query. *)
Lemma calcular_relevancia_alinhada_exemplo : chave acervo_pontuado 2 = Ok 1000000%Z.
Proof.
  pose proof (calcular_relevancia_alinhada acervo [1; 2; 3] consulta en
                [str_of "Cooking pasta in the oven"; str_of "Graph neural networks";
                 str_of "A survey of neural networks for vision"]
                acervo_pontuado [2; 3; 1]) as H.
  cbv zeta in H. rewrite (H ltac:(apply (bool_decide_unpack _); vm_compute; exact I)
                            ltac:(repeat constructor; vm_compute; (reflexivity || discriminate))
                            ltac:(vm_compute; reflexivity)
                            1%nat 2 (str_of "Graph neural networks") eq_refl eq_refl).
  vm_compute. reflexivity.
Defined.

(** The three articles: the call returns, and the condition holds. *)
Lemma calcular_relevancia_retorna_sse_exemplo :
  (∃ σ' ordenados, calcular_relevancia acervo [1; 2; 3] consulta en = (σ', Ok ordenados))
  ↔ [str_of "Cooking pasta in the oven"; str_of "Graph neural networks";
     str_of "A survey of neural networks for vision"] ≠ []
    ∧ ∃ t, t ∈ ([str_of "Cooking pasta in the oven"; str_of "Graph neural networks";
                 str_of "A survey of neural networks for vision"] ++ [consulta])%list
           ∧ build_analyzer (stop_words_para en) t ≠ [].
Proof.
  apply (calcular_relevancia_retorna_sse acervo [1; 2; 3] consulta en
           (VStr <$> [str_of "Cooking pasta in the oven"; str_of "Graph neural networks";
                      str_of "A survey of neural networks for vision"])).
  - vm_compute. reflexivity.
  - vm_compute. reflexivity.
Defined.

(** The ranked list 2, 3, 1 is cut after its second article. *)
Lemma artigos_relevantes_prefixo_exemplo :
  ∃ relevantes resto,
    artigos_relevantes acervo_pontuado [2; 3; 1] = Ok relevantes
    ∧ [2; 3; 1] = (relevantes ++ resto)%list
    ∧ (∀ a, a ∈ relevantes → ∃ r, chave acervo_pontuado a = Ok r ∧ ltb zero r = true)
    ∧ (∀ a, a ∈ resto → ∃ r, chave acervo_pontuado a = Ok r ∧ leb r zero = true).
Proof.
  apply (artigos_relevantes_prefixo acervo [1; 2; 3] consulta en acervo_pontuado [2; 3; 1]).
  vm_compute. reflexivity.
Defined.

(** The filter on an article that was not scored. *)
Lemma artigos_relevantes_sem_relevancia_exemplo :
  artigos_relevantes acervo [1] = Raise (KeyError "relevancia").
Proof.
  apply (artigos_relevantes_sem_relevancia acervo [1]).
  - intros a ->%list_elem_of_singleton. eexists. split; [vm_compute; reflexivity|].
    left. vm_compute. reflexivity.
  - do 2 eexists. split; [by left|]. split; vm_compute; reflexivity.
Defined.

(** A cap of one on the search with two results. *)
Lemma serpi_coletar_artigos_registros_exemplo :
  ∃ σ' artigos,
    SerpiAPI.coletar_artigos (Internet0 := rede) ∅ consulta 1 chave_api = (σ', Ok artigos)
    ∧ Forall2 (λ a r, σ' !! a = Some (SerpiAPI.novo_artigo r)) artigos
        (fatia_ate 1 (default [] ((<["organic_results" := resultados_exemplo]> ∅
                                     : gmap string (list (dict Z)))
                                  !! "organic_results")))
    ∧ NoDup artigos
    ∧ (∀ a, a ∈ artigos → (∅ : heap Z) !! a = None)
    ∧ (∀ a, a ∉ artigos → σ' !! a = (∅ : heap Z) !! a).
Proof.
  apply (serpi_coletar_artigos_registros (Internet0 := rede) ∅ consulta 1%Z chave_api
           {| status_code := 200;
              json := Ok (<["organic_results" := resultados_exemplo]> ∅);
              iter_content := [] |}).
  - vm_compute. reflexivity.
  - reflexivity.
  - reflexivity.
Defined.

(** A cap of minus one on the search with two results: one article. *)
Lemma serpi_coletar_artigos_limite_negativo_exemplo :
  ∃ σ' artigos,
    SerpiAPI.coletar_artigos (Internet0 := rede) ∅ consulta (-1) chave_api
    = (σ', Ok artigos)
    ∧ Z.of_nat (length artigos)
      = (0 `max` (Z.of_nat (length (default [] ((<["organic_results" := resultados_exemplo]> ∅
                                                   : gmap string (list (dict Z)))
                                                !! "organic_results")))
                  + -1))%Z.
Proof.
  apply (serpi_coletar_artigos_limite_negativo (Internet0 := rede) ∅ consulta (-1)%Z
           chave_api
           {| status_code := 200;
              json := Ok (<["organic_results" := resultados_exemplo]> ∅);
              iter_content := [] |}).
  - done.
  - vm_compute. reflexivity.
  - reflexivity.
  - reflexivity.
Defined.

(** A cap of one on the search with two publications. *)
Lemma bilingue_coletar_artigos_registros_exemplo :
  ∃ σ' artigos,
    Bilingue.coletar_artigos (Internet0 := rede) ∅ consulta 1 = (σ', Ok artigos)
    ∧ Forall2 (λ a p, σ' !! a = Some (Bilingue.novo_artigo p)) artigos
        (take (Z.to_nat 1) publicacoes_da_busca)
    ∧ NoDup artigos
    ∧ (∀ a, a ∈ artigos → (∅ : heap Z) !! a = None)
    ∧ (∀ a, a ∉ artigos → σ' !! a = (∅ : heap Z) !! a).
Proof.
  apply (bilingue_coletar_artigos_registros (Internet0 := rede) ∅ consulta 1%Z
           publicacoes_da_busca).
  reflexivity.
Defined.

(** One publication, then a failure, with a cap of one: the call raises. *)
Lemma bilingue_coletar_artigos_falha_tardia_exemplo :
  (Bilingue.coletar_artigos (Internet0 := rede_instavel) ∅ consulta 1).2
  = Raise RequestException.
Proof.
  apply (bilingue_coletar_artigos_falha_tardia (Internet0 := rede_instavel) ∅ consulta
           1%Z [ {| bib := Some (<["title" := VStr (str_of "GNN")]> ∅);
                    eprint_url := None |} ] RequestException).
  - reflexivity.
  - vm_compute. lia.
Defined.

(** A successful download into the empty working directory. *)
Lemma baixar_pdf_so_o_alvo_exemplo :
  protegidos (baixar_pdf (Internet0 := rede) disco (artigo (str_of "GNN") [] endereco) pdfs).1
  = protegidos disco
  ∧ diretorios disco
    ⊆ diretorios (baixar_pdf (Internet0 := rede) disco
                    (artigo (str_of "GNN") [] endereco) pdfs).1
  ∧ (∀ d, d ∈ diretorios (baixar_pdf (Internet0 := rede) disco
                            (artigo (str_of "GNN") [] endereco) pdfs).1 →
          d ∈ diretorios disco ∨ d `prefix_of` pdfs)
  ∧ (os_path_exists disco pdfs = true →
     diretorios (baixar_pdf (Internet0 := rede) disco
                   (artigo (str_of "GNN") [] endereco) pdfs).1
     = diretorios disco)
  ∧ ∀ p, canonico p = true →
         (∀ titulo, artigo (str_of "GNN") [] endereco !! "titulo" = Some (VStr titulo) →
                    p ≠ os_path_join pdfs (take 50 titulo ++ ponto_pdf)%list) →
         arquivos (baixar_pdf (Internet0 := rede) disco
                     (artigo (str_of "GNN") [] endereco) pdfs).1 !! p
         = arquivos disco !! p.
Proof.
  apply (baixar_pdf_so_o_alvo (Internet0 := rede) disco
           (artigo (str_of "GNN") [] endereco) pdfs _
           (baixar_pdf (Internet0 := rede) disco
              (artigo (str_of "GNN") [] endereco) pdfs).2).
  - by destruct (baixar_pdf _ _ _).
  - reflexivity.
  - intros titulo Ht. vm_compute in Ht. injection Ht as <-. reflexivity.
Defined.

(** An article with an empty link. *)
Lemma baixar_pdf_sem_arquivo_exemplo :
  arquivos (baixar_pdf (Internet0 := rede) disco (artigo (str_of "GNN") [] []) pdfs).1
  = arquivos disco
  ∧ (baixar_pdf (Internet0 := rede) disco (artigo (str_of "GNN") [] []) pdfs).2
    ≠ Ok true.
Proof.
  apply (baixar_pdf_sem_arquivo (Internet0 := rede) disco
           (artigo (str_of "GNN") [] []) pdfs).
  - by destruct (baixar_pdf _ _ _).
  - left. vm_compute. reflexivity.
Defined.

(** The body fails after two chunks: three bytes stay in the file. *)
Lemma baixar_pdf_parcial_exemplo :
  ∃ fs',
    baixar_pdf (Internet0 := rede_instavel) disco_com_pdfs
      (artigo (str_of "GNN") [] endereco) pdfs = (fs', Ok false)
    ∧ arquivos fs' !! str_of "pdfs/GNN.pdf"
      = Some (Binario [Byte.x25; Byte.x50; Byte.x44]).
Proof.
  apply (baixar_pdf_parcial (Internet0 := rede_instavel) disco_com_pdfs
           (artigo (str_of "GNN") [] endereco) pdfs endereco
           {| status_code := 200;
              json := Raise JSONDecodeError;
              iter_content := [Ok [Byte.x25; Byte.x50]; Ok [Byte.x44];
                               Raise RequestException; Ok [Byte.x46]] |}
           (str_of "GNN")
           {| diretorios := {[pdfs]};
              arquivos := <[str_of "pdfs/GNN.pdf" := Binario []]> ∅;
              protegidos := ∅ |}
           [[Byte.x25; Byte.x50]; [Byte.x44]] RequestException [Ok [Byte.x46]]).
  - vm_compute. reflexivity.
  - vm_compute. reflexivity.
  - discriminate.
  - vm_compute. reflexivity.
  - reflexivity.
  - vm_compute. reflexivity.
  - vm_compute. reflexivity.
  - reflexivity.
Defined.

(** The title [/GNN]: the file is [/GNN.pdf], not a file of [pdfs]. *)
Lemma baixar_pdf_titulo_absoluto_exemplo :
  ∃ url response chunks,
    artigo (barra :: str_of "GNN") [] endereco !! "link" = Some (VStr url)
    ∧ @requests_get Z rede url [] = Ok response
    ∧ iter_content response = Ok <$> chunks
    ∧ arquivos (baixar_pdf (Internet0 := rede) disco_com_pdfs
                  (artigo (barra :: str_of "GNN") [] endereco) pdfs).1
        !! (barra :: take 49 (str_of "GNN") ++ ponto_pdf)%list
      = Some (Binario (concat chunks)).
Proof.
  apply (baixar_pdf_titulo_absoluto (Internet0 := rede) disco_com_pdfs
           (artigo (barra :: str_of "GNN") [] endereco) pdfs).
  - vm_compute. reflexivity.
  - vm_compute. reflexivity.
Defined.


(** A title that is a lone surrogate. *)
Lemma salvar_artigos_codificacao_exemplo :
  (salvar_artigos disco acervo_substituto [1] artigos_relevantes_json).2
  = Raise UnicodeEncodeError.
Proof.
  destruct (salvar_artigos_codificacao disco acervo_substituto [1] artigos_relevantes_json
              {| diretorios := ∅;
                 arquivos := <[artigos_relevantes_json := Texto []]> ∅;
                 protegidos := ∅ |}
              [artigo [55296%N] (str_of "Graph neural networks") []]) as [_ H].
  - vm_compute. reflexivity.
  - repeat constructor.
  - apply (H (artigo [55296%N] (str_of "Graph neural networks") []) "titulo" [55296%N]).
    + by left.
    + vm_compute. reflexivity.
    + reflexivity.
Defined.


(** [Filtro_bilingue.py] on the search with two publications, an
    unsupported language tag and a line that is not a number. *)
Lemma bilingue_principal_salva_exemplo :
  ∃ σ1 artigos,
    Bilingue.coletar_artigos (Internet0 := rede) ∅ consulta (numero_ou_padrao None)
    = (σ1, Ok artigos)
    ∧ (artigos = [] →
       (Filtro_bilingue.principal (Internet0 := rede) ∅ disco consulta
          (str_of "fr") None).1.1 = σ1
       ∧ (Filtro_bilingue.principal (Internet0 := rede) ∅ disco consulta
            (str_of "fr") None).1.2 = disco)
    ∧ (artigos ≠ [] →
       ∃ ordenados registros,
         calcular_relevancia σ1 artigos consulta (idioma_ou_padrao (str_of "fr"))
         = ((Filtro_bilingue.principal (Internet0 := rede) ∅ disco consulta
               (str_of "fr") None).1.1, Ok ordenados)
         ∧ Forall2
             (λ a d, (Filtro_bilingue.principal (Internet0 := rede) ∅ disco consulta
                        (str_of "fr") None).1.1 !! a = Some d)
             (filter (λ a, ltb zero
                             (relevancia_de
                                (Filtro_bilingue.principal (Internet0 := rede) ∅ disco
                                   consulta (str_of "fr") None).1.1 a) = true)
                ordenados)
             registros
         ∧ carregar_artigos
             (Filtro_bilingue.principal (Internet0 := rede) ∅ disco consulta
                (str_of "fr") None).1.2 artigos_relevantes_json
           = Ok registros
         ∧ Forall (λ d, ∃ r, d !! "relevancia" = Some (VNum r) ∧ ltb zero r = true)
             registros).
Proof.
  apply (bilingue_principal_salva (Internet0 := rede) ∅ disco consulta (str_of "fr") None).
  vm_compute. reflexivity.
Defined.


(** One article passes the filter and [pdfs] cannot be created. *)
Lemma bilingue_principal_pasta_protegida_exemplo :
  ∃ e, Filtro_bilingue.principal (Internet0 := rede) ∅ disco_protegido consulta en None
       = ((calcular_relevancia
             (Bilingue.coletar_artigos (Internet0 := rede) ∅ consulta 10).1
             [1; 2] consulta en).1,
          disco_protegido, Raise e).
Proof.
  apply (bilingue_principal_pasta_protegida (Internet0 := rede) ∅ disco_protegido
           consulta en None
           (Bilingue.coletar_artigos (Internet0 := rede) ∅ consulta 10).1 [1; 2]
           (calcular_relevancia
              (Bilingue.coletar_artigos (Internet0 := rede) ∅ consulta 10).1
              [1; 2] consulta en).1
           [1; 2] 1 []).
  - vm_compute. reflexivity.
  - vm_compute. reflexivity.
  - vm_compute. reflexivity.
  - vm_compute. reflexivity.
  - apply (bool_decide_unpack _). vm_compute. exact I.
Defined.

(** A round on a heap that holds the three articles already: the second
    of them is as it was. *)
Lemma serpi_rodada_preserva_exemplo :
  (Filtro_SerpiAPI.rodada (Internet0 := rede) acervo disco en [] []
     consulta (Some 1%Z)).1.1 !! 2
  = acervo !! 2.
Proof.
  apply (serpi_rodada_preserva (Internet0 := rede) acervo disco en [] [] consulta
           (Some 1%Z) _
           (Filtro_SerpiAPI.rodada (Internet0 := rede) acervo disco en [] []
              consulta (Some 1%Z)).1.2
           (Filtro_SerpiAPI.rodada (Internet0 := rede) acervo disco en [] []
              consulta (Some 1%Z)).2).
  - by destruct (Filtro_SerpiAPI.rodada _ _ _ _ _ _ _) as [[??]?].
  - vm_compute. by eexists.
Defined.

(** Two rounds, [graph] and [neural]. *)
Lemma serpi_laco_consulta_exemplo :
  str_of "graph neural" = juntar [32%N] duas_rodadas.*1.
Proof.
  apply (serpi_laco_consulta (Internet0 := rede) ∅ disco en duas_rodadas
           (Filtro_SerpiAPI.laco (Internet0 := rede) ∅ disco en [] [] duas_rodadas).1.1
           (Filtro_SerpiAPI.laco (Internet0 := rede) ∅ disco en [] [] duas_rodadas).1.2
           [1; 2]).
  - vm_compute. reflexivity.
  - intros t n resto [= <- _ _]. discriminate.
Defined.

(** The run of the two rounds to its end. *)
Lemma serpi_principal_salva_exemplo :
  ∃ fs1 artigos query,
    Filtro_SerpiAPI.laco (Internet0 := rede) ∅ disco (idioma_ou_padrao en) [] []
      duas_rodadas
    = ((Filtro_SerpiAPI.principal (Internet0 := rede) ∅ disco en duas_rodadas).1.1,
       fs1, Ok (artigos, query))
    ∧ NoDup artigos
    ∧ (artigos = [] →
       (Filtro_SerpiAPI.principal (Internet0 := rede) ∅ disco en duas_rodadas).1.2
       = disco)
    ∧ (artigos ≠ [] →
       ∃ registros,
         Forall2
           (λ a d, (Filtro_SerpiAPI.principal (Internet0 := rede) ∅ disco en
                      duas_rodadas).1.1 !! a = Some d)
           artigos registros
         ∧ carregar_artigos
             (Filtro_SerpiAPI.principal (Internet0 := rede) ∅ disco en duas_rodadas).1.2
             artigos_relevantes_json
           = Ok registros
         ∧ Forall (λ d, ∃ r, d !! "relevancia" = Some (VNum r) ∧ ltb zero r = true)
             registros).
Proof.
  apply (serpi_principal_salva (Internet0 := rede) ∅ disco en duas_rodadas).
  vm_compute. reflexivity.
Defined.

